(** * Cybernetic Design Network: traversal, feedback, layout, edge randomisation

    A shallow embedding of the algorithmic core of the repository:
    - [bfsPath] (src/CyberneticDesignNetwork.tsx) and [findNodePaths]
      (the d3 view), the flat breadth-first traversals;
    - [getExplorationScore], [getAdaptiveHierarchicalLayers],
      [forceDirectedLayout] and [handleFeedback] (the topographic map view);
    - [randomizeConnections] (the d3 view).

    JavaScript [Map]s keyed by node id are finite maps ([positions], which
    the layout iterates over, is an association list in insertion order),
    [Set]s are finite sets, arrays are lists.  Loops whose termination is not
    syntactic run on fuel: the traversals compute a fuel that is proved
    sufficient, [randomizeConnections] takes it as an argument.  A result
    [None] means that the fuel ran out or that the JavaScript code threw.

    Around that core the development embeds what the views do with it:
    - the node marker's [getFeedbackAdjustment], the statistics panel, the
      handlers of the map component ([handleNodeClick], [handleFeedback],
      [handleClose], [toggleCyberneticMode]) as a machine over its state;
    - the positions and lines of the 3D scene ([twoDPositions],
      [hierarchicalPositions], [hierarchicalLines], [twoDLines]) and the
      layer changes ([changedLayerNodes], [layerChanges]);
    - the topographic scene ([nodePositions], [pathPoints], [isActive]);
    - the 2D graph's [getNodeSize] and connection info. *)

From Stdlib Require Import QArith Qround Reals Psatz.
From stdpp Require Import gmap strings list fin_maps relations sorting.

Set Warnings "-clear-no-such-hyp".

Open Scope string_scope.
Open Scope nat_scope.
Open Scope list_scope.
Open Scope stdpp_scope.

(** [length] is the length of a list throughout. *)
Abbreviation length := List.length.

(** * Part I: the program, and the vocabulary of its specification *)

(** ** The graph: directed links between node ids *)

Record RawNode := mkNode { id : string; label : string }.

Record RawLink := mkLink { source : string; target : string }.

(** [links.filter(l => l.source === nodeId).map(l => l.target)] *)
Definition outgoing (links : list RawLink) (nodeId : string) : list string :=
  List.map target (List.filter (fun l => String.eqb (source l) nodeId) links).

(** One directed link from [a] to [b]. *)
Definition edge (links : list RawLink) (a b : string) : Prop :=
  mkLink a b ∈ links.

(** Reachability through directed links; every node reaches itself. *)
Definition reachable (links : list RawLink) : string → string → Prop :=
  rtc (edge links).

(** The links that leave a node outside [visited]: what the traversals may
    still expand. *)
Definition pending (links : list RawLink) (visited : gset string) : list RawLink :=
  List.filter (fun l => negb (bool_decide (source l ∈ visited))) links.

(** ** Flat traversal: [bfsPath] and [findNodePaths] *)

Module Flat.

(** The [while (queue.length > 0)] loop of [bfsPath]; one unit of fuel per
    dequeued id. *)
Fixpoint bfsPath_loop (fuel : nat) (links : list RawLink)
    (visited : gset string) (queue path : list string) : option (list string) :=
  match queue with
  | [] => Some path
  | current :: queue =>
    match fuel with
    | O => None
    | S fuel =>
      if bool_decide (current ∈ visited) then
        bfsPath_loop fuel links visited queue path
      else
        let visited := {[current]} ∪ visited in
        let path := path ++ [current] in
        let outgoing := outgoing links current in
        let queue :=
          queue ++ List.filter (fun n => negb (bool_decide (n ∈ visited))) outgoing in
        bfsPath_loop fuel links visited queue path
    end
  end.

Definition bfsPath (startId : string) (links : list RawLink) : option (list string) :=
  bfsPath_loop (S (length links)) links ∅ [startId] [].

(** The loop of [findNodePaths]: every connected node is queued, visited or
    not. *)
Fixpoint findNodePaths_loop (fuel : nat) (links : list RawLink)
    (visited : gset string) (queue path : list string) : option (list string) :=
  match queue with
  | [] => Some path
  | current :: queue =>
    match fuel with
    | O => None
    | S fuel =>
      if bool_decide (current ∈ visited) then
        findNodePaths_loop fuel links visited queue path
      else
        let visited := {[current]} ∪ visited in
        let path := path ++ [current] in
        let connectedNodes := outgoing links current in
        findNodePaths_loop fuel links visited (queue ++ connectedNodes) path
    end
  end.

Definition findNodePaths (nodeId : string) (links : list RawLink) : option (list string) :=
  findNodePaths_loop (S (length links)) links ∅ [nodeId] [].

(** What both loops maintain. *)
Record inv (links : list RawLink) (startId : string)
    (visited : gset string) (queue path : list string) : Prop := {
  inv_visited : visited = list_to_set path;
  inv_nodup : NoDup path;
  inv_reach : ∀ n, n ∈ path ++ queue → reachable links startId n;
  inv_start : startId ∈ path ++ queue;
  inv_head : path = [] ∨ head path = Some startId;
  inv_first : path = [] → head queue = Some startId;
  inv_closed : ∀ u v, u ∈ path → edge links u v → v ∈ path ++ queue
}.

(** What the finished traversal satisfies. *)
Definition traversal_of (links : list RawLink) (startId : string)
    (path : list string) : Prop :=
  head path = Some startId ∧ NoDup path ∧
  ∀ n, n ∈ path ↔ reachable links startId n.

End Flat.

(** ** Feedback records and the exploration score *)

(** The four counters of a node.  They start at [0] and are only ever
    incremented by one, so they are natural numbers. *)
Record NodeExploration := mkExploration {
  visits : nat;
  insightful : nat;
  neutral : nat;
  familiar : nat
}.

(** A counter read as a JavaScript number. *)
Definition num (n : nat) : Q := inject_Z (Z.of_nat n).

(** [data.insightful + data.neutral + data.familiar] *)
Definition totalFeedback (data : NodeExploration) : nat :=
  insightful data + neutral data + familiar data.

(** [getExplorationScore]: the quotient is exact rational arithmetic. *)
Definition getExplorationScore (nodeId : string)
    (explorationData : gmap string NodeExploration) : Q :=
  match explorationData !! nodeId with
  | None => 0
  | Some data =>
    if totalFeedback data =? 0 then 0
    else (num (insightful data) * 2 - num (familiar data) * 2) / num (totalFeedback data)
  end.

(** ** Layered traversal: [getAdaptiveHierarchicalLayers] *)

Module Layers.

Record NodeLayer := mkLayer { level : nat; nodes : list string }.

(** [ids.filter(id => !visited.has(id))]: the filter runs over the whole
    level before any of its ids is marked. *)
Definition unvisited (visited : gset string) (ids : list string) : list string :=
  List.filter (fun id => negb (bool_decide (id ∈ visited))) ids.

(** [validNodes.forEach(nodeId => nextLevel.push(...outgoing))] *)
Definition expand (links : list RawLink) (validNodes : list string) : list string :=
  flat_map (outgoing links) validNodes.

(** [validNodes.forEach(id => visited.add(id))] *)
Definition mark (validNodes : list string) (visited : gset string) : gset string :=
  list_to_set validNodes ∪ visited.

(** The first loop: all reachable ids in discovery order. *)
Fixpoint collect (fuel : nat) (links : list RawLink) (tempVisited : gset string)
    (tempLevel allNodesInPath : list string) : option (list string) :=
  match tempLevel with
  | [] => Some allNodesInPath
  | _ :: _ =>
    let validNodes := unvisited tempVisited tempLevel in
    match validNodes with
    | [] => Some allNodesInPath
    | _ :: _ =>
      match fuel with
      | O => None
      | S fuel =>
        collect fuel links (mark validNodes tempVisited)
          (expand links validNodes) (allNodesInPath ++ validNodes)
      end
    end
  end.

(** The comparator handed to [sort]: [(a, b) => b.score - a.score]. *)
Definition compareFn (a b : string * Q) : Q := (snd b - snd a)%Q.

(** [Array.prototype.sort] is stable, and [compareFn] orders by a total
    preorder on the rational scores; the result is then the one stable
    arrangement by descending score, computed here by insertion: an element
    moves behind exactly the later elements that compare before it. *)
Fixpoint insert_sorted (x : string * Q) (l : list (string * Q)) : list (string * Q) :=
  match l with
  | [] => [x]
  | y :: l' =>
    if Qle_bool (compareFn x y) 0 then x :: y :: l'
    else y :: insert_sorted x l'
  end.

Definition sort (l : list (string * Q)) : list (string * Q) :=
  foldr insert_sorted [] l.

Definition nodesPerLayer : nat := 3.

(** The [forEach] that distributes the sorted nodes into layers; [idx] is
    the index of the head of the list and [total] is
    [nodesWithScores.length]. *)
Fixpoint distribute (nodesWithScores : list (string * Q)) (idx total : nat)
    (layers : list NodeLayer) (currentLayerNodes : list string)
    (currentLayerIndex : nat) : list NodeLayer :=
  match nodesWithScores with
  | [] => layers
  | node :: rest =>
    let currentLayerNodes := currentLayerNodes ++ [fst node] in
    if (nodesPerLayer <=? length currentLayerNodes) || (idx =? total - 1) then
      distribute rest (S idx) total
        (layers ++ [mkLayer currentLayerIndex currentLayerNodes]) [] (S currentLayerIndex)
    else
      distribute rest (S idx) total layers currentLayerNodes currentLayerIndex
  end.

(** The second loop: normal mode. *)
Fixpoint standard (fuel : nat) (links : list RawLink) (visited : gset string)
    (currentLevel : list string) (level : nat) (layers : list NodeLayer)
    : option (list NodeLayer) :=
  match currentLevel with
  | [] => Some layers
  | _ :: _ =>
    let validNodes := unvisited visited currentLevel in
    match validNodes with
    | [] => Some layers
    | _ :: _ =>
      match fuel with
      | O => None
      | S fuel =>
        standard fuel links (mark validNodes visited) (expand links validNodes)
          (S level) (layers ++ [mkLayer level validNodes])
      end
    end
  end.

Definition getAdaptiveHierarchicalLayers (startId : string) (links : list RawLink)
    (explorationData : gmap string NodeExploration) (cyberneticMode : bool)
    : option (list NodeLayer) :=
  let fuel := S (length links) in
  match collect fuel links ∅ [startId] [] with
  | None => None
  | Some allNodesInPath =>
    if cyberneticMode && (1 <? length allNodesInPath) then
      match allNodesInPath with
      | [] => None
      | startNode :: otherNodes =>
        let nodesWithScores :=
          List.map (fun nodeId => (nodeId, getExplorationScore nodeId explorationData))
            otherNodes in
        let nodesWithScores := sort nodesWithScores in
        Some (distribute nodesWithScores 0 (length nodesWithScores)
                [mkLayer 0 [startNode]] [] 1)
      end
    else standard fuel links ∅ [startId] 0 []
  end.

(** The ids of a layering, layer after layer. *)
Definition flatten (layers : list NodeLayer) : list string :=
  flat_map nodes layers.

(** Ids a traversal from [startId] can ever meet. *)
Definition universe (links : list RawLink) (startId : string) : list string :=
  startId :: List.map target links.

(** What both loops maintain; [seen] is what the loop has listed so far. *)
Record level_inv (links : list RawLink) (startId : string) (visited : gset string)
    (currentLevel seen : list string) : Prop := {
  level_inv_visited : ∀ n, n ∈ visited ↔ n ∈ seen;
  level_inv_reach : ∀ n, n ∈ seen ++ currentLevel → reachable links startId n;
  level_inv_universe : ∀ n, n ∈ currentLevel → n ∈ universe links startId;
  level_inv_start : startId ∈ seen ++ currentLevel;
  level_inv_closed : ∀ u v, u ∈ seen → edge links u v → v ∈ seen ++ currentLevel
}.

(** [a] may stand before [b] in a list sorted by descending score. *)
Definition descending (a b : string * Q) : Prop := (snd b <= snd a)%Q.

Section Distribute.

(** The score of an id; the pairs handed to [distribute] carry it. *)
Variable score : string → Q.

(** Layer [la] stands before layer [lb]: a smaller level, and no smaller
    score. *)
Definition before (la lb : NodeLayer) : Prop :=
  level la < level lb ∧
  ∀ a b, a ∈ nodes la → b ∈ nodes lb → (score b <= score a)%Q.

(** Id [a] may stand before id [b]. *)
Definition by_score (a b : string) : Prop := (score b <= score a)%Q.

End Distribute.

(** The diamond [A→B, A→C, B→D, C→D]. *)
Definition diamond : list RawLink :=
  [mkLink "A" "B"; mkLink "A" "C"; mkLink "B" "D"; mkLink "C" "D"].

End Layers.

(** ** The session: recording feedback *)

Module Session.

Import Layers.

(** ['insightful' | 'neutral' | 'familiar'] *)
Inductive FeedbackType := Insightful | Neutral | Familiar.

(** [current[type]] *)
Definition counter (type : FeedbackType) (current : NodeExploration) : nat :=
  match type with
  | Insightful => insightful current
  | Neutral => neutral current
  | Familiar => familiar current
  end.

(** [{ ...current, [type]: current[type] + 1 }] *)
Definition bump (type : FeedbackType) (current : NodeExploration) : NodeExploration :=
  match type with
  | Insightful =>
    mkExploration (visits current) (insightful current + 1) (neutral current)
      (familiar current)
  | Neutral =>
    mkExploration (visits current) (insightful current) (neutral current + 1)
      (familiar current)
  | Familiar =>
    mkExploration (visits current) (insightful current) (neutral current)
      (familiar current + 1)
  end.

(** The state of the map component that the feedback handler reads and
    writes. *)
Record State := mkState {
  links : list RawLink;
  activeNode : option string;
  hierarchicalLayers : list NodeLayer;
  previousLayers : list NodeLayer;
  cyberneticMode : bool;
  explorationData : gmap string NodeExploration
}.

(** The initial exploration map: a zero record for every node. *)
Definition initialExplorationData (nodes : list RawNode) : gmap string NodeExploration :=
  fold_left (fun map node => <[id node := mkExploration 0 0 0 0]> map) nodes ∅.

(** Truthiness of [activeNode : string | null]. *)
Definition truthy (activeNode : option string) : bool :=
  match activeNode with
  | None => false
  | Some nodeId => negb (String.eqb nodeId "")
  end.

(** [handleFeedback].  [None]: the handler threw.  [get(nodeId)!] is
    [undefined] for an id without a record, and reading [current[type]]
    then throws a [TypeError]. *)
Definition handleFeedback (st : State) (nodeId : string) (type : FeedbackType)
    : option State :=
  let newExplorationData := explorationData st in
  match newExplorationData !! nodeId with
  | None => None
  | Some current =>
    let newExplorationData := <[nodeId := bump type current]> newExplorationData in
    match activeNode st with
    | Some active =>
      if truthy (activeNode st) && cyberneticMode st then
        match getAdaptiveHierarchicalLayers active (links st) newExplorationData
                (cyberneticMode st) with
        | None => None
        | Some newLayers =>
          Some (mkState (links st) (activeNode st) newLayers (hierarchicalLayers st)
                  (cyberneticMode st) newExplorationData)
        end
      else
        Some (mkState (links st) (activeNode st) (hierarchicalLayers st)
                (previousLayers st) (cyberneticMode st) newExplorationData)
    | None =>
      Some (mkState (links st) (activeNode st) (hierarchicalLayers st)
              (previousLayers st) (cyberneticMode st) newExplorationData)
    end
  end.

(** The record an absent node would be given if it counted as all zeros. *)
Definition recordOrZero (st : State) (nodeId : string) : NodeExploration :=
  default (mkExploration 0 0 0 0) (explorationData st !! nodeId).

(** Recording feedback is total over node ids, absent ones included. *)
Definition feedback_total : Prop :=
  ∀ st nodeId type, ∃ st',
    handleFeedback st nodeId type = Some st' ∧
    explorationData st' !! nodeId = Some (bump type (recordOrZero st nodeId)).

(** A session on an empty graph: no node has a record. *)
Definition emptySession : State := mkState [] None [] [] false ∅.

(** A session on two linked nodes in cybernetic mode, the first node
    active and no feedback recorded yet. *)
Definition smallSession : State :=
  mkState [mkLink "form" "function"] (Some "form") [] [] true
    (initialExplorationData [mkNode "form" "Form"; mkNode "function" "Function"]).

End Session.

(** ** Edge randomisation: [randomizeConnections] *)

Module Randomize.

(** A value of [Math.random()]: a rational in [[0, 1)]. *)
Record Unit01 := mkUnit01 {
  value : Q;
  value_range : Qle_bool 0 value && negb (Qle_bool 1 value) = true
}.

(** The random source: the sequence of the values it will return. *)
Definition Source := nat → Unit01.

(** [Math.floor(r * nodeIds.length)] *)
Definition index (r : Unit01) (n : nat) : nat :=
  Z.to_nat (Qfloor (value r * inject_Z (Z.of_nat n))).

(** [nodeIds[Math.floor(Math.random() * nodeIds.length)]]; [None] is
    [undefined], which an empty [nodeIds] yields. *)
Definition pick (r : Unit01) (nodeIds : list string) : option string :=
  nodeIds !! index r (length nodeIds).

(** The template literal [`${source}-${target}`]. *)
Definition pairKey (source target : string) : string :=
  String.append source (String.append "-" target).

(** The mutable locals of [randomizeConnections], with the number of values
    drawn from the random source so far. *)
Record Gen := mkGen {
  newLinks : list RawLink;
  usedPairs : gset string;
  outgoingCount : gmap string nat;
  incomingCount : gmap string nat;
  drawn : nat
}.

(** [count.get(id) || 0] *)
Definition getOr0 (count : gmap string nat) (nodeId : string) : nat :=
  default 0 (count !! nodeId).

(** The four statements of the guarded block that adds one link. *)
Definition addLink (source target : string) (g : Gen) : Gen :=
  mkGen (newLinks g ++ [mkLink source target])
        ({[pairKey source target]} ∪ usedPairs g)
        (<[source := getOr0 (outgoingCount g) source + 1]> (outgoingCount g))
        (<[target := getOr0 (incomingCount g) target + 1]> (incomingCount g))
        (drawn g).

(** One draw: [Math.random()]. *)
Definition random (rand : Source) (g : Gen) : Unit01 * Gen :=
  (rand (drawn g),
   mkGen (newLinks g) (usedPairs g) (outgoingCount g) (incomingCount g) (S (drawn g))).

(** The guard [source !== target && !usedPairs.has(pairKey)] and the block
    it protects. *)
Definition tryLink (source target : string) (g : Gen) : Gen :=
  if negb (String.eqb source target)
     && negb (bool_decide (pairKey source target ∈ usedPairs g))
  then addLink source target g
  else g.

Definition minConnectionsPerNode : nat := 3.

(** First pass, the [while] loop for one [sourceNode]; a unit of fuel per
    iteration.  The pick is [undefined] only for an empty [nodeIds], and
    the loop runs for a [sourceNode] of [nodeIds]. *)
Fixpoint fillOutgoing (fuel : nat) (rand : Source) (nodeIds : list string)
    (sourceNode : string) (g : Gen) : option Gen :=
  if getOr0 (outgoingCount g) sourceNode <? minConnectionsPerNode then
    match fuel with
    | O => None
    | S fuel =>
      let (r, g) := random rand g in
      match pick r nodeIds with
      | None => fillOutgoing fuel rand nodeIds sourceNode g
      | Some targetNode =>
        fillOutgoing fuel rand nodeIds sourceNode (tryLink sourceNode targetNode g)
      end
    end
  else Some g.

(** Second pass, the [while] loop for one [targetNode]. *)
Fixpoint fillIncoming (fuel : nat) (rand : Source) (nodeIds : list string)
    (targetNode : string) (g : Gen) : option Gen :=
  if getOr0 (incomingCount g) targetNode <? minConnectionsPerNode then
    match fuel with
    | O => None
    | S fuel =>
      let (r, g) := random rand g in
      match pick r nodeIds with
      | None => fillIncoming fuel rand nodeIds targetNode g
      | Some sourceNode =>
        fillIncoming fuel rand nodeIds targetNode (tryLink sourceNode targetNode g)
      end
    end
  else Some g.

(** [for (const node of nodeIds) body] *)
Fixpoint forEachNode (body : string → Gen → option Gen) (nodeIds : list string)
    (g : Gen) : option Gen :=
  match nodeIds with
  | [] => Some g
  | node :: nodeIds =>
    match body node g with
    | None => None
    | Some g => forEachNode body nodeIds g
    end
  end.

(** Third pass; [remaining] is [maxAttempts - attempts].  For an empty
    [nodeIds] both picks are [undefined], and [undefined !== undefined] is
    false. *)
Fixpoint topUp (remaining : nat) (rand : Source) (nodeIds : list string)
    (targetNumLinks : nat) (g : Gen) : Gen :=
  if length (newLinks g) <? targetNumLinks then
    match remaining with
    | O => g
    | S remaining =>
      let (r1, g) := random rand g in
      let (r2, g) := random rand g in
      match pick r1 nodeIds, pick r2 nodeIds with
      | Some source, Some target =>
        topUp remaining rand nodeIds targetNumLinks (tryLink source target g)
      | _, _ => topUp remaining rand nodeIds targetNumLinks g
      end
    end
  else g.

(** [nodeIds.forEach(id => { outgoingCount.set(id, 0); incomingCount.set(id, 0) })] *)
Definition initialGen (nodeIds : list string) : Gen :=
  let zero := fold_left (fun count nodeId => <[nodeId := 0]> count) nodeIds ∅ in
  mkGen [] ∅ zero zero 0.

(** [randomizeConnections]; [targetNumLinks] is
    [originalLinksRef.current.length], and [fuel] bounds the iterations of
    each [while] loop of the first two passes.  [None]: some loop did not
    finish within [fuel] iterations. *)
Definition randomizeConnections (fuel : nat) (rand : Source) (nodeIds : list string)
    (targetNumLinks : nat) : option (list RawLink) :=
  match forEachNode (fillOutgoing fuel rand nodeIds) nodeIds (initialGen nodeIds) with
  | None => None
  | Some g =>
    match forEachNode (fillIncoming fuel rand nodeIds) nodeIds g with
    | None => None
    | Some g =>
      let maxAttempts := targetNumLinks * 10 in
      Some (newLinks (topUp maxAttempts rand nodeIds targetNumLinks g))
    end
  end.

(** Links of [links] that leave, respectively enter, a node. *)
Definition outDegree (links : list RawLink) (nodeId : string) : nat :=
  length (List.filter (fun l => String.eqb (source l) nodeId) links).

Definition inDegree (links : list RawLink) (nodeId : string) : nat :=
  length (List.filter (fun l => String.eqb (target l) nodeId) links).

(** A source that keeps returning the quarters [0, 1/4, 1/2, 3/4] in turn. *)
Definition quarters : Source := fun n =>
  match n mod 4 with
  | 0 => mkUnit01 0 eq_refl
  | 1 => mkUnit01 (1 # 4) eq_refl
  | 2 => mkUnit01 (1 # 2) eq_refl
  | _ => mkUnit01 (3 # 4) eq_refl
  end.

(** A source that always returns [0]. *)
Definition zeros : Source := fun _ => mkUnit01 0 eq_refl.

(** What the three passes maintain: the links join node ids, they are
    loop-free and distinct, their keys are in [usedPairs], and the two count
    maps hold the degrees. *)
Record gen_inv (nodeIds : list string) (g : Gen) : Prop := {
  inv_within : ∀ l, l ∈ newLinks g → source l ∈ nodeIds ∧ target l ∈ nodeIds;
  inv_no_self : ∀ l, l ∈ newLinks g → source l ≠ target l;
  inv_no_dup : NoDup (newLinks g);
  inv_used : ∀ l, l ∈ newLinks g → pairKey (source l) (target l) ∈ usedPairs g;
  inv_out : ∀ nodeId, getOr0 (outgoingCount g) nodeId = outDegree (newLinks g) nodeId;
  inv_in : ∀ nodeId, getOr0 (incomingCount g) nodeId = inDegree (newLinks g) nodeId
}.

(** Degrees only grow from [g] to [g']. *)
Definition grows (g g' : Gen) : Prop :=
  ∀ nodeId,
    outDegree (newLinks g) nodeId ≤ outDegree (newLinks g') nodeId ∧
    inDegree (newLinks g) nodeId ≤ inDegree (newLinks g') nodeId.

End Randomize.

(** ** Force-directed layout: [forceDirectedLayout] *)

Module Layout.

Import Randomize.

(** The arithmetic of JavaScript numbers as far as the layout uses it:
    [lit] reads a literal or an integer as a number, [falsy] is the test
    behind [||].  The layout is written once over this interface: what is
    proved of it for every instance holds of IEEE doubles in particular. *)
Class Arith (number : Type) := {
  lit : Q → number;
  plus : number → number → number;
  minus : number → number → number;
  times : number → number → number;
  divide : number → number → number;
  Math_sqrt : number → number;
  Math_cos : number → number;
  Math_sin : number → number;
  Math_PI : number;
  Math_min : number → number → number;
  Math_max : number → number → number;
  falsy : number → bool
}.

Declare Scope number_scope.
Delimit Scope number_scope with number.
Infix "+" := plus : number_scope.
Infix "-" := minus : number_scope.
Infix "*" := times : number_scope.
Infix "/" := divide : number_scope.

(** The object kept for a node: [{ x, y, vx, vy }]. *)
Record Position (number : Type) := mkPosition {
  x : number; y : number; vx : number; vy : number
}.

Arguments mkPosition {number}.
Arguments x {number}.
Arguments y {number}.
Arguments vx {number}.
Arguments vy {number}.

Section Engine.

Context {number : Type} `{Arith number}.

Local Open Scope number_scope.

(** The map [positions], in insertion order. *)
Definition Positions : Type := list (string * Position number).

(** [positions.get(key)] *)
Fixpoint get (positions : Positions) (key : string) : option (Position number) :=
  match positions with
  | [] => None
  | (k, pos) :: positions => if String.eqb k key then Some pos else get positions key
  end.

(** [positions.set(key, pos)]: an existing key keeps its place. *)
Fixpoint set (positions : Positions) (key : string) (pos : Position number) : Positions :=
  match positions with
  | [] => [(key, pos)]
  | (k, old) :: positions =>
    if String.eqb k key then (k, pos) :: positions
    else (k, old) :: set positions key pos
  end.

(** An assignment to fields of the object that [positions] holds under
    [key]. *)
Fixpoint mutate (positions : Positions) (key : string)
    (f : Position number → Position number) : Positions :=
  match positions with
  | [] => []
  | (k, pos) :: positions =>
    if String.eqb k key then (k, f pos) :: positions
    else (k, pos) :: mutate positions key f
  end.

(** [Math.random()] *)
Definition random (rand : Source) (drawn : nat) : number * nat :=
  (lit (value (rand drawn)), S drawn).

(** The body of the initialising [nodes.forEach((node, i) => ...)]. *)
Definition place (randomize : bool) (rand : Source) (count : nat)
    (node : RawNode) (i : nat) (st : Positions * nat) : Positions * nat :=
  let (positions, drawn) := st in
  if randomize then
    let (r1, drawn) := random rand drawn in
    let angle := r1 * Math_PI * lit 2 in
    let (r2, drawn) := random rand drawn in
    let radius := lit 2 + r2 * lit 3 in
    let (r3, drawn) := random rand drawn in
    let (r4, drawn) := random rand drawn in
    (set positions (id node)
       (mkPosition (Math_cos angle * radius) (Math_sin angle * radius)
          ((r3 - lit 0.5) * lit 0.1) ((r4 - lit 0.5) * lit 0.1)),
     drawn)
  else
    let angle := (lit (inject_Z (Z.of_nat i)) / lit (inject_Z (Z.of_nat count)))
                 * Math_PI * lit 2 in
    let radius := lit 3.5 in
    (set positions (id node)
       (mkPosition (Math_cos angle * radius) (Math_sin angle * radius)
          (lit 0) (lit 0)),
     drawn).

Fixpoint initialise (randomize : bool) (rand : Source) (count : nat)
    (nodes : list RawNode) (i : nat) (st : Positions * nat) : Positions * nat :=
  match nodes with
  | [] => st
  | node :: nodes =>
    initialise randomize rand count nodes (S i) (place randomize rand count node i st)
  end.

Definition repulsionStrength : number := lit 0.5.

Definition attractionStrength : number := lit 0.02.

Definition damping : number := lit 0.85.

(** The body of the inner repulsion loop.  [None]: [positions.get(id)!]
    was [undefined] and reading its [x] threw. *)
Definition repel (nodeA nodeB : RawNode) (positions : Positions) : option Positions :=
  if String.eqb (id nodeA) (id nodeB) then Some positions
  else
    posA ← get positions (id nodeA);
    posB ← get positions (id nodeB);
    let dx := x posA - x posB in
    let dy := y posA - y posB in
    let distSq := dx * dx + dy * dy + lit 0.01 in
    let dist := Math_sqrt distSq in
    let force := repulsionStrength / distSq in
    Some (mutate positions (id nodeA) (fun pos =>
      mkPosition (x pos) (y pos)
        (vx pos + (dx / dist) * force) (vy pos + (dy / dist) * force))).

(** [list.forEach(item => body)] where [body] may throw. *)
Fixpoint forEach {A : Type} (body : A → Positions → option Positions)
    (items : list A) (positions : Positions) : option Positions :=
  match items with
  | [] => Some positions
  | item :: items =>
    positions ← body item positions;
    forEach body items positions
  end.

Definition repulsion (nodes : list RawNode) (positions : Positions) : option Positions :=
  forEach (fun nodeA => forEach (fun nodeB => repel nodeA nodeB) nodes) nodes positions.

(** The body of the attraction loop: a link with an end outside the map is
    skipped.  [posA] and [posB] are the same object when the link is a
    loop, so the second pair of assignments reads what the first wrote. *)
Definition attract (link : RawLink) (positions : Positions) : option Positions :=
  match get positions (source link), get positions (target link) with
  | Some posA, Some posB =>
    let dx := x posB - x posA in
    let dy := y posB - y posA in
    let dist := Math_sqrt (dx * dx + dy * dy + lit 0.01) in
    let force := dist * attractionStrength in
    let positions := mutate positions (source link) (fun pos =>
      mkPosition (x pos) (y pos)
        (vx pos + (dx / dist) * force) (vy pos + (dy / dist) * force)) in
    Some (mutate positions (target link) (fun pos =>
      mkPosition (x pos) (y pos)
        (vx pos - (dx / dist) * force) (vy pos - (dy / dist) * force)))
  | _, _ => Some positions
  end.

(** The body of the integrating loop; the jitter runs while
    [iter < iterations / 3]. *)
Definition integrate (randomize : bool) (rand : Source) (iter iterations : nat)
    (node : RawNode) (st : Positions * nat) : option (Positions * nat) :=
  let (positions, drawn) := st in
  pos ← get positions (id node);
  let pos := mkPosition (x pos + vx pos) (y pos + vy pos)
               (vx pos * damping) (vy pos * damping) in
  if randomize && (iter * 3 <? iterations)%nat then
    let (r1, drawn) := random rand drawn in
    let px := x pos + (r1 - lit 0.5) * lit 0.05 in
    let (r2, drawn) := random rand drawn in
    let py := y pos + (r2 - lit 0.5) * lit 0.05 in
    Some (mutate positions (id node) (fun _ => mkPosition px py (vx pos) (vy pos)),
          drawn)
  else Some (mutate positions (id node) (fun _ => pos), drawn).

Fixpoint integration (randomize : bool) (rand : Source) (iter iterations : nat)
    (nodes : list RawNode) (st : Positions * nat) : option (Positions * nat) :=
  match nodes with
  | [] => Some st
  | node :: nodes =>
    st ← integrate randomize rand iter iterations node st;
    integration randomize rand iter iterations nodes st
  end.

(** One iteration of the simulation. *)
Definition step (randomize : bool) (rand : Source) (nodes : list RawNode)
    (links : list RawLink) (iter iterations : nat) (st : Positions * nat)
    : option (Positions * nat) :=
  let (positions, drawn) := st in
  positions ← repulsion nodes positions;
  positions ← forEach attract links positions;
  integration randomize rand iter iterations nodes (positions, drawn).

(** [for (let iter = ...; iter < iterations; iter++)], with [todo] the
    iterations still to run. *)
Fixpoint simulate (randomize : bool) (rand : Source) (nodes : list RawNode)
    (links : list RawLink) (todo iter iterations : nat) (st : Positions * nat)
    : option (Positions * nat) :=
  match todo with
  | O => Some st
  | S todo =>
    st ← step randomize rand nodes links iter iterations st;
    simulate randomize rand nodes links todo (S iter) iterations st
  end.

(** The body of the loop that computes the bounding box
    [(minX, maxX, minY, maxY)]. *)
Definition widen (box : number * number * number * number)
    (entry : string * Position number) : number * number * number * number :=
  let '(minX, maxX, minY, maxY) := box in
  let pos := snd entry in
  (Math_min minX (x pos), Math_max maxX (x pos),
   Math_min minY (y pos), Math_max maxY (y pos)).

(** The bounding box of a non-empty map.  The source starts from
    [Infinity] and [-Infinity]; [Math.min(Infinity, v)] and
    [Math.max(-Infinity, v)] are [v], so the loop starts at the first
    entry. *)
Definition boundingBox (first : Position number) (rest : Positions)
    : number * number * number * number :=
  fold_left widen rest (x first, x first, y first, y first).

Definition targetSize : number := lit 8.

(** The normalising post-pass; on an empty map the last [forEach] has
    nothing to rescale. *)
Definition normalize (positions : Positions) : Positions :=
  match positions with
  | [] => []
  | (_, first) :: rest =>
    let '(minX, maxX, minY, maxY) := boundingBox first rest in
    let rangeX := maxX - minX in
    let rangeY := maxY - minY in
    let maxRange :=
      if falsy (Math_max rangeX rangeY) then lit 1 else Math_max rangeX rangeY in
    let scale := targetSize / maxRange in
    let centerX := (minX + maxX) / lit 2 in
    let centerY := (minY + maxY) / lit 2 in
    List.map (fun '(key, pos) =>
      (key, mkPosition ((x pos - centerX) * scale) ((y pos - centerY) * scale)
              (vx pos) (vy pos)))
      positions
  end.

(** [forceDirectedLayout], with the number of values it drew from the
    random source. *)
Definition forceDirectedLayout (rand : Source) (nodes : list RawNode)
    (links : list RawLink) (randomize : bool) : option (Positions * nat) :=
  let st := initialise randomize rand (length nodes) nodes 0 ([], 0) in
  let iterations := if randomize then 200 else 100 in
  '(positions, drawn) ← simulate randomize rand nodes links iterations 0 iterations st;
  Some (normalize positions, drawn).




(** The node ids that have an entry. *)
Definition keys (positions : Positions) : list string := positions.*1.

(** Both ends of the link are node ids. *)
Definition connected (nodes : list RawNode) (link : RawLink) : bool :=
  bool_decide (source link ∈ id <$> nodes) && bool_decide (target link ∈ id <$> nodes).

End Engine.

(** *** Exact arithmetic *)

(** The real numbers: what the layout computes when no operation rounds.
    No division of the layout is by zero there. *)
#[export] Instance exact : Arith R := {|
  lit := Q2R;
  plus := Rplus;
  minus := Rminus;
  times := Rmult;
  divide := Rdiv;
  Math_sqrt := sqrt;
  Math_cos := cos;
  Math_sin := sin;
  Math_PI := PI;
  Math_min := Rmin;
  Math_max := Rmax;
  falsy := fun r => if Req_dec_T r 0 then true else false
|}.



Local Open Scope R_scope.




(** The share [u] of the repulsion between two nodes [dx, dy] apart. *)
Definition shove (dx dy u : R) : R :=
  u / sqrt (dx * dx + dy * dy + Q2R 0.01) * (Q2R 0.5 / (dx * dx + dy * dy + Q2R 0.01)).





End Layout.

(** ** The two flat traversals side by side *)

Module Thin.

(** [thin visited q1 q2]: the queue [q1] is [q2] without some of its
    entries, all of them visited already. *)
Inductive thin (visited : gset string) : list string → list string → Prop :=
  | thin_nil : thin visited [] []
  | thin_keep n q1 q2 : thin visited q1 q2 → thin visited (n :: q1) (n :: q2)
  | thin_drop n q1 q2 : n ∈ visited → thin visited q1 q2 → thin visited q1 (n :: q2).

End Thin.

(** ** Distance from the start, and the layers of normal mode *)

Module Distance.

(** [b] lies [k] links from [a], and no fewer. *)
Definition distance (links : list RawLink) (a b : string) (k : nat) : Prop :=
  nsteps (edge links) k a b ∧ ∀ j, j < k → ¬ nsteps (edge links) j a b.

(** What a layer at index [k] of a layering from [startId] is in normal
    mode: its level is its index, it is not empty, and it lists the ids at
    distance [k]. *)
Definition ring (links : list RawLink) (startId : string) (k : nat)
    (la : Layers.NodeLayer) : Prop :=
  Layers.level la = k ∧ Layers.nodes la ≠ [] ∧
  ∀ n, n ∈ Layers.nodes la ↔ distance links startId n k.

(** What the normal-mode loop maintains at the start of round [level]. *)
Record ring_inv (links : list RawLink) (startId : string) (visited : gset string)
    (currentLevel : list string) (level : nat) (layers : list Layers.NodeLayer)
    : Prop := {
  ring_visited : ∀ n, n ∈ visited ↔ ∃ j, j < level ∧ nsteps (edge links) j startId n;
  ring_sound : ∀ n, n ∈ currentLevel → nsteps (edge links) level startId n;
  ring_complete : ∀ n, nsteps (edge links) level startId n →
                       n ∈ currentLevel ∨ n ∈ visited;
  ring_length : length layers = level;
  ring_layers : ∀ k la, layers !! k = Some la → ring links startId k la
}.

End Distance.

(** ** The order of a flat traversal *)

Module Order.

Import Distance.

(** [a] is no further from the start than [b]. *)
Definition closer (links : list RawLink) (startId a b : string) : Prop :=
  ∀ i j, distance links startId a i → distance links startId b j → i ≤ j.

(** What the loop of a flat traversal maintains while it lists the ids at
    distance [k]: the queue is [near ++ far], with candidates for distance
    [k] in [near] and for distance [k + 1] in [far]. *)
Record order_inv (links : list RawLink) (startId : string) (k : nat)
    (visited : gset string) (near far path : list string) : Prop := {
  order_visited : visited = list_to_set path;
  order_sorted : StronglySorted (closer links startId) path;
  order_path : ∀ n, n ∈ path → ∃ j, j ≤ k ∧ distance links startId n j;
  order_near : ∀ n, n ∈ near → nsteps (edge links) k startId n;
  order_far : ∀ n, n ∈ far → nsteps (edge links) (S k) startId n;
  order_below : ∀ n j, j < k → nsteps (edge links) j startId n → n ∈ path;
  order_level : ∀ n, nsteps (edge links) k startId n → n ∈ path ∨ n ∈ near;
  order_closed : ∀ u n, u ∈ path → edge links u n → n ∈ path ∨ n ∈ near ∨ n ∈ far
}.

End Order.

(** ** The node marker: [getFeedbackAdjustment] *)

Module Marker.

(** [Math.max] on two numbers. *)
Definition Math_max (a b : Q) : Q := if Qle_bool a b then b else a.

(** [{ opacity, intensity }] *)
Record Adjustment := mkAdjustment { opacity : Q; intensity : Q }.

(** [getFeedbackAdjustment] of [NodeMarker], in exact rational arithmetic. *)
Definition getFeedbackAdjustment (cyberneticMode : bool) (exploration : NodeExploration)
    : Adjustment :=
  if negb cyberneticMode then mkAdjustment 1 1
  else
    let totalFeedback := totalFeedback exploration in
    if totalFeedback =? 0 then mkAdjustment 1 1
    else
      let score :=
        ((num (insightful exploration) * 1 - num (familiar exploration) * 1)
           / num totalFeedback)%Q in
      let opacity :=
        Math_max 0.3
          (1 - (num (familiar exploration) / (num totalFeedback + 1)) * 0.7)%Q in
      let intensity := (1 + score * 0.5)%Q in
      mkAdjustment opacity intensity.

(** [baseIntensity * intensityMultiplier] *)
Definition emissiveIntensity (isActive cyberneticMode : bool)
    (exploration : NodeExploration) : Q :=
  let baseIntensity := if isActive then 1.5%Q else 0.8%Q in
  (baseIntensity * intensity (getFeedbackAdjustment cyberneticMode exploration))%Q.

(** [baseOpacity * nodeOpacity] *)
Definition adjustedOpacity (isActive cyberneticMode : bool)
    (exploration : NodeExploration) : Q :=
  let baseOpacity := if isActive then 0.3%Q else 0.15%Q in
  (baseOpacity * opacity (getFeedbackAdjustment cyberneticMode exploration))%Q.

End Marker.

(** ** The handlers of the map component *)

Module Handlers.

Import Layers Session.

(** The state of [CyberneticTopoMap] that its handlers read and write:
    the session, the two [useState] cells of the feedback panel, and the
    ids captured by the [setTimeout] callbacks that have not fired yet,
    oldest first.  The cell [layout2D] is left out: [handleRandomize]
    alone writes it, and no handler reads it. *)
Record View := mkView {
  session : State;
  showFeedback : bool;
  feedbackNodeId : option string;
  timers : list string
}.

(** [{ ...current, visits: current.visits + 1 }] *)
Definition visit (current : NodeExploration) : NodeExploration :=
  mkExploration (visits current + 1) (insightful current) (neutral current)
    (familiar current).

(** [handleNodeClick].  [None]: the state update threw; [newMap.get(id)!]
    is [undefined] for an id without a record, and reading
    [current.visits] then throws. *)
Definition handleNodeClick (v : View) (id : string) : option View :=
  let st := session v in
  if bool_decide (activeNode st = Some id) then
    let closed :=
      mkState (links st) None [] [] (cyberneticMode st) (explorationData st) in
    if cyberneticMode st then Some (mkView closed true (Some id) (timers v))
    else Some (mkView closed (showFeedback v) (feedbackNodeId v) (timers v))
  else
    let previous :=
      if (0 <? length (hierarchicalLayers st)) && cyberneticMode st
      then hierarchicalLayers st else previousLayers st in
    newLayers ← getAdaptiveHierarchicalLayers id (links st) (explorationData st)
                  (cyberneticMode st);
    current ← explorationData st !! id;
    let newMap := <[id := visit current]> (explorationData st) in
    Some (mkView
            (mkState (links st) (Some id) newLayers previous (cyberneticMode st) newMap)
            (showFeedback v) (feedbackNodeId v)
            (if cyberneticMode st then timers v ++ [id] else timers v)).

(** [handleClose] *)
Definition handleClose (st : State) : State :=
  mkState (links st) None [] [] (cyberneticMode st) (explorationData st).

(** [toggleCyberneticMode] *)
Definition toggleCyberneticMode (st : State) : option State :=
  let mode := negb (cyberneticMode st) in
  match activeNode st with
  | Some active =>
    if truthy (activeNode st) then
      newLayers ← getAdaptiveHierarchicalLayers active (links st) (explorationData st)
                    mode;
      Some (mkState (links st) (activeNode st) newLayers (hierarchicalLayers st) mode
              (explorationData st))
    else
      Some (mkState (links st) (activeNode st) (hierarchicalLayers st)
              (previousLayers st) mode (explorationData st))
  | None =>
    Some (mkState (links st) (activeNode st) (hierarchicalLayers st)
            (previousLayers st) mode (explorationData st))
  end.

(** A button of the [FeedbackPanel]: [onFeedback(nodeId, type)], then
    [onClose()].  The panel is rendered while
    [showFeedback && feedbackNodeId] holds; without it there is no button
    to press, and the view stays as it is. *)
Definition pressFeedback (v : View) (type : FeedbackType) : option View :=
  match feedbackNodeId v with
  | Some nodeId =>
    if showFeedback v && truthy (feedbackNodeId v) then
      st ← handleFeedback (session v) nodeId type;
      Some (mkView st false (feedbackNodeId v) (timers v))
    else Some v
  | None => Some v
  end.

(** The callback of the oldest pending [setTimeout]:
    [setFeedbackNodeId(id); setShowFeedback(true)]. *)
Definition fire (v : View) : View :=
  match timers v with
  | [] => v
  | id :: timers => mkView (session v) true (Some id) timers
  end.

(** What can happen to the view. *)
Inductive Event :=
  | Click (id : string)
  | Feedback (type : FeedbackType)
  | Close
  | Toggle
  | Timeout.

Definition handle (v : View) (event : Event) : option View :=
  match event with
  | Click id => handleNodeClick v id
  | Feedback type => pressFeedback v type
  | Close =>
    Some (mkView (handleClose (session v)) (showFeedback v) (feedbackNodeId v)
            (timers v))
  | Toggle =>
    st ← toggleCyberneticMode (session v);
    Some (mkView st (showFeedback v) (feedbackNodeId v) (timers v))
  | Timeout => Some (fire v)
  end.

(** The events of a list, one after the other; [None] as soon as a
    handler throws. *)
Fixpoint run (v : View) (events : list Event) : option View :=
  match events with
  | [] => Some v
  | event :: events => v ← handle v event; run v events
  end.

(** The view of the first render. *)
Definition initialView (nodes : list RawNode) (links : list RawLink) : View :=
  mkView (mkState links None [] [] false (initialExplorationData nodes)) false None [].

(** The ids that the events click. *)
Definition clicked (events : list Event) : list string :=
  omap (fun event => match event with Click id => Some id | _ => None end) events.

(** Every id that a handler may be given has a record. *)
Record recorded (ids : gset string) (v : View) : Prop := {
  recorded_dom : dom (explorationData (session v)) = ids;
  recorded_panel : ∀ id, feedbackNodeId v = Some id → id ∈ ids;
  recorded_timers : ∀ id, id ∈ timers v → id ∈ ids
}.

(** The layers on display are those of the active node under the current
    mode and exploration data, and no layers are kept without an active
    node. *)
Definition fresh (v : View) : Prop :=
  let st := session v in
  match activeNode st with
  | Some active =>
    active ≠ "" ∧
    getAdaptiveHierarchicalLayers active (links st) (explorationData st)
      (cyberneticMode st) = Some (hierarchicalLayers st)
  | None => hierarchicalLayers st = [] ∧ previousLayers st = []
  end.

(** No counter of [data] is above its counterpart in [data']. *)
Definition grown (data data' : gmap string NodeExploration) : Prop :=
  ∀ nodeId current, data !! nodeId = Some current →
    ∃ current', data' !! nodeId = Some current' ∧
      visits current ≤ visits current' ∧ insightful current ≤ insightful current' ∧
      neutral current ≤ neutral current' ∧ familiar current ≤ familiar current'.

End Handlers.

(** ** The statistics panel *)

Module Stats.

(** The four accumulators of the statistics panel. *)
Record Totals := mkTotals {
  totalExplored : nat;
  totalInsightful : nat;
  totalNeutral : nat;
  totalFamiliar : nat
}.

(** The body of [explorationData.forEach(data => ...)]. *)
Definition tally (totals : Totals) (data : NodeExploration) : Totals :=
  mkTotals
    (if 0 <? visits data then totalExplored totals + 1 else totalExplored totals)
    (totalInsightful totals + insightful data)
    (totalNeutral totals + neutral data)
    (totalFamiliar totals + familiar data).

(** The accumulators after the loop over the records in the order
    [records]. *)
Definition totalsOf (records : list NodeExploration) : Totals :=
  fold_left tally records (mkTotals 0 0 0 0).

(** What the panel shows.  [explorationRate] is the number that
    [toFixed(0)] then prints; [None] stands for the [NaN] or [Infinity]
    that the division yields for an empty [nodes]. *)
Record ExplorationStats := mkStats {
  explorationRate : option Q;
  underExplored : Z;
  insightfulShown : nat;
  neutralShown : nat;
  familiarShown : nat
}.

(** The [useMemo] of [ExplorationStatsPanel].  The loop runs over the
    records of the map; its result does not depend on their order. *)
Definition stats (explorationData : gmap string NodeExploration) (nodes : list RawNode)
    : ExplorationStats :=
  let totals := totalsOf (map_to_list explorationData).*2 in
  let explorationRate :=
    if length nodes =? 0 then None
    else Some (num (totalExplored totals) / num (length nodes) * 100)%Q in
  let underExplored := (Z.of_nat (length nodes) - Z.of_nat (totalExplored totals))%Z in
  mkStats explorationRate underExplored (totalInsightful totals) (totalNeutral totals)
    (totalFamiliar totals).

(** The number of records with a visit, and the feedback of all records. *)
Definition explored (records : list NodeExploration) : nat :=
  length (List.filter (fun data => 0 <? visits data) records).

Definition feedbackOf (records : list NodeExploration) : nat :=
  foldr (fun data sum => totalFeedback data + sum) 0 records.

End Stats.

(** ** The 2D graph: node sizes and connection info *)

Module Graph2D.

Import Randomize.

(** [['form', 'function', 'material', 'emotion', 'process']] *)
Definition mainNodes : list string :=
  ["form"; "function"; "material"; "emotion"; "process"].

(** The link has [nodeId] at one of its ends. *)
Definition touches (nodeId : string) (l : RawLink) : bool :=
  String.eqb (source l) nodeId || String.eqb (target l) nodeId.

(** [getNodeSize]: the sizes are small integers. *)
Definition getNodeSize (nodeId : string) (links : list RawLink) : nat :=
  if bool_decide (nodeId ∈ mainNodes) then 55
  else if String.eqb nodeId "feedbackLoop" then 50
  else
    let connectionCount := length (List.filter (touches nodeId) links) in
    Nat.max 25 (Nat.min 45 (25 + connectionCount * 3)).

(** [{ name, connections, incoming, outgoing }] *)
Record NodeInfo := mkNodeInfo {
  name : string;
  connections : nat;
  incoming : nat;
  outgoing : nat
}.

(** The connection info that a click on node [d] computes. *)
Definition nodeInfo (d : RawNode) (currentLinks : list RawLink) : NodeInfo :=
  let outgoingLinks := List.filter (fun l => String.eqb (source l) (id d)) currentLinks in
  let incomingLinks := List.filter (fun l => String.eqb (target l) (id d)) currentLinks in
  mkNodeInfo (label d) (length outgoingLinks + length incomingLinks)
    (length incomingLinks) (length outgoingLinks).

(** The links from [nodeId] to itself. *)
Definition loops (nodeId : string) (links : list RawLink) : nat :=
  length (List.filter
            (fun l => String.eqb (source l) nodeId && String.eqb (target l) nodeId) links).

End Graph2D.

(** ** The 3D scene of the map: positions, lines, layer changes *)

Module Scene.

Import Layers Session Layout.

(** A [THREE.Vector3]. *)
Record Vector3 (number : Type) := mkVector3 { x : number; y : number; z : number }.

Arguments mkVector3 {number}.
Arguments x {number}.
Arguments y {number}.
Arguments z {number}.

(** [entries.forEach(([key, value]) => map.set(key, value))] on a fresh
    [Map]: a later entry replaces an earlier one of the same key. *)
Definition setAll {V : Type} (entries : list (string * V)) : gmap string V :=
  fold_left (fun map entry => <[entry.1 := entry.2]> map) entries ∅.

(** The ids of a layering with the level of their layer, layer after
    layer. *)
Definition levelPairs (layers : list NodeLayer) : list (string * nat) :=
  flat_map (fun layer => (fun nodeId => (nodeId, level layer)) <$> nodes layer) layers.

(** The map from node id to level that both [changedLayerNodes] and the
    left panel build from a layering. *)
Definition layerMap (layers : list NodeLayer) : gmap string nat :=
  setAll (levelPairs layers).

(** The body of [currentLayerMap.forEach]: the entry [{ from, to }] that a
    node gets when its previous level is defined and differs. *)
Definition flagged (previousLayerMap : gmap string nat) (nodeId : string)
    (currentLevel : nat) : option (nat * nat) :=
  match previousLayerMap !! nodeId with
  | Some previousLevel =>
    if previousLevel =? currentLevel then None else Some (previousLevel, currentLevel)
  | None => None
  end.

(** [changedLayerNodes]: the nodes whose level differs from the one they
    had in the previous layering, with [{ from, to }]. *)
Definition changedLayerNodes (cyberneticMode : bool)
    (previousLayers hierarchicalLayers : list NodeLayer) : gmap string (nat * nat) :=
  if negb cyberneticMode || (length previousLayers =? 0) then ∅
  else
    let previousLayerMap := layerMap previousLayers in
    let currentLayerMap := layerMap hierarchicalLayers in
    map_imap (flagged previousLayerMap) currentLayerMap.

(** The counters [{ promoted, demoted }] of the left panel. *)
Definition layerChanges (layers previousLayers : list NodeLayer) : nat * nat :=
  let previousLayerMap := layerMap previousLayers in
  fold_left (fun counters layer =>
    fold_left (fun '(promoted, demoted) nodeId =>
      match previousLayerMap !! nodeId with
      | Some prevLevel =>
        if prevLevel =? level layer then (promoted, demoted)
        else if level layer <? prevLevel then (promoted + 1, demoted)
        else (promoted, demoted + 1)
      | None => (promoted, demoted)
      end) (nodes layer) counters) layers (0, 0).

(** [hierarchicalLayers.some(layer => layer.nodes.includes(nodeId))] *)
Definition isNodeInPath (hierarchicalLayers : list NodeLayer) (nodeId : string) : bool :=
  existsb (fun layer => bool_decide (nodeId ∈ nodes layer)) hierarchicalLayers.

(** [links.some(l => l.source === sourceId && l.target === targetId)] *)
Definition isConnected (links : list RawLink) (sourceId targetId : string) : bool :=
  existsb (fun l => String.eqb (source l) sourceId && String.eqb (target l) targetId)
    links.

Section Positions.

Context {number : Type} `{Arith number}.

Local Open Scope number_scope.

(** An integer read as a number. *)
Definition int (n : nat) : number := lit (inject_Z (Z.of_nat n)).

(** [twoDPositions]: the layout laid flat, [(pos.x, 0, pos.y)]. *)
Definition twoDPositions (layout2D : Positions) : gmap string (Vector3 number) :=
  setAll (List.map (fun entry : string * Position number =>
                      (entry.1, mkVector3 (Layout.x entry.2) (lit 0) (Layout.y entry.2)))
            layout2D).

(** Where the hierarchical view puts the node at index [nodeIdx] of the
    layer at index [levelIdx]. *)
Definition ringPosition (levelIdx numNodes nodeIdx : nat) : Vector3 number :=
  let yPos := lit 4 - int levelIdx * lit 1.8 in
  let radius := Math_min (lit 3) (int numNodes * lit 0.4) in
  let angle := (int nodeIdx / int numNodes) * Math_PI * lit 2 in
  mkVector3 (Math_cos angle * radius) yPos (Math_sin angle * radius).

(** The [map.set] calls of [hierarchicalPositions], in order. *)
Definition ringEntries (hierarchicalLayers : list NodeLayer)
    : list (string * Vector3 number) :=
  mjoin (imap (fun levelIdx layer =>
    imap (fun nodeIdx nodeId =>
      (nodeId, ringPosition levelIdx (length (nodes layer)) nodeIdx)) (nodes layer))
    hierarchicalLayers).

(** [hierarchicalPositions] *)
Definition hierarchicalPositions (activeNode : option string)
    (hierarchicalLayers : list NodeLayer) : gmap string (Vector3 number) :=
  if negb (truthy activeNode) || (length hierarchicalLayers =? 0) then ∅
  else setAll (ringEntries hierarchicalLayers).

(** [nodePositions] *)
Definition nodePositions (activeNode : option string)
    (twoDPositions hierarchicalPositions : gmap string (Vector3 number))
    : gmap string (Vector3 number) :=
  if negb (truthy activeNode) then twoDPositions else hierarchicalPositions.

(** The lines of one source towards the next layer. *)
Definition linesFrom (links : list RawLink)
    (hierarchicalPositions : gmap string (Vector3 number)) (nextLayer : NodeLayer)
    (sourceId : string) : list (Vector3 number * Vector3 number) :=
  match hierarchicalPositions !! sourceId with
  | None => []
  | Some sourcePos =>
    flat_map (fun targetId =>
      if isConnected links sourceId targetId then
        match hierarchicalPositions !! targetId with
        | Some targetPos => [(sourcePos, targetPos)]
        | None => []
        end
      else []) (nodes nextLayer)
  end.

(** [hierarchicalLines]: [{ from, to }] for every link from a node of one
    layer to a node of the next. *)
Definition hierarchicalLines (activeNode : option string)
    (hierarchicalLayers : list NodeLayer)
    (hierarchicalPositions : gmap string (Vector3 number)) (links : list RawLink)
    : list (Vector3 number * Vector3 number) :=
  if negb (truthy activeNode) || (length hierarchicalLayers =? 0) then []
  else
    mjoin (imap (fun levelIdx layer =>
      if levelIdx =? (length hierarchicalLayers - 1)%nat then []
      else
        match hierarchicalLayers !! (levelIdx + 1)%nat with
        | None => []
        | Some nextLayer =>
          flat_map (linesFrom links hierarchicalPositions nextLayer) (nodes layer)
        end) hierarchicalLayers).

(** [twoDLines]: one line per link whose two ends have a position. *)
Definition twoDLines (activeNode : option string) (links : list RawLink)
    (twoDPositions : gmap string (Vector3 number))
    : list (Vector3 number * Vector3 number) :=
  if truthy activeNode then []
  else
    omap (fun link =>
      from ← twoDPositions !! source link;
      to ← twoDPositions !! target link;
      Some (from, to)) links.

(** The nodes that the scene draws: those with a position. *)
Definition drawn (nodes : list RawNode) (nodePositions : gmap string (Vector3 number))
    : list RawNode :=
  List.filter (fun node => bool_decide (is_Some (nodePositions !! id node))) nodes.

End Positions.

(** [isActive] of the marker of [node]. *)
Definition isActive (activeNode : option string) (hierarchicalLayers : list NodeLayer)
    (node : RawNode) : bool :=
  bool_decide (activeNode = Some (id node)) || isNodeInPath hierarchicalLayers (id node).

End Scene.

(** ** The topographic scene: positions on the mountain, the active path *)

Module Mountain.

Import Layout Scene.

Section Terrain.

Context {number : Type} `{Arith number}.

Local Open Scope number_scope.

(** Where [nodePositions] of the topographic scene puts node [i] of
    [n]. *)
Definition polar (n i : nat) : Vector3 number :=
  let radiusInner := lit 1.6 in
  let radiusOuter := lit 4.0 in
  let topHeight := lit 2.7 in
  let t := int i / int n in
  let angle := t * Math_PI * lit 2 in
  let ringIndex := (i mod 4)%nat in
  let ringT := int ringIndex / lit 3 in
  let radius := radiusInner + (radiusOuter - radiusInner) * ringT * lit 0.9 in
  let height :=
    lit 0.5 + (lit 1 - ringT) * (topHeight - lit 0.5)
    + Math_sin (t * lit 4 * Math_PI) * lit 0.08 in
  mkVector3 (Math_cos angle * radius) height (Math_sin angle * radius).

(** [nodePositions]: every node on the mountain, in polar coordinates. *)
Definition nodePositions (nodes : list RawNode) : gmap string (Vector3 number) :=
  setAll (imap (fun i node => (id node, polar (length nodes) i)) nodes).

(** The two methods of [THREE.Vector3] that [pathPoints] calls on a
    clone. *)
Variable add : Vector3 number → Vector3 number → Vector3 number.
Variable lerp : Vector3 number → Vector3 number → number → Vector3 number.

(** The body of [activePath.forEach((id, idx) => ...)]. *)
Definition pathStep (nodePositions : gmap string (Vector3 number))
    (pts : list (Vector3 number)) (idx : nat) (nodeId : string)
    : list (Vector3 number) :=
  match nodePositions !! nodeId with
  | None => pts
  | Some base =>
    let lifted := add base (mkVector3 (lit 0) (lit 0.12) (lit 0)) in
    match last pts with
    | Some prev =>
      if (0 <? idx)%nat then
        let mid := add (lerp prev lifted (lit 0.5)) (mkVector3 (lit 0) (lit 0.05) (lit 0)) in
        pts ++ [mid] ++ [lifted]
      else pts ++ [lifted]
    | None => pts ++ [lifted]
    end
  end.

(** The loop from index [idx] on. *)
Fixpoint pathLoop (nodePositions : gmap string (Vector3 number))
    (activePath : list string) (idx : nat) (pts : list (Vector3 number))
    : list (Vector3 number) :=
  match activePath with
  | [] => pts
  | nodeId :: activePath =>
    pathLoop nodePositions activePath (S idx) (pathStep nodePositions pts idx nodeId)
  end.

(** [pathPoints] *)
Definition pathPoints (activePath : list string)
    (nodePositions : gmap string (Vector3 number)) : list (Vector3 number) :=
  pathLoop nodePositions activePath 0 [].

End Terrain.

(** [isActive] of a marker: [activeNode === node.id || activePath.includes(node.id)]. *)
Definition isActive (activeNode : option string) (activePath : list string)
    (node : RawNode) : bool :=
  bool_decide (activeNode = Some (id node)) || bool_decide (id node ∈ activePath).

(** The two cells that [handleNodeClick] of the topographic scene sets. *)
Record Trace := mkTrace { activeNode : option string; activePath : list string }.

(** [handleNodeClick]: [None] stands for a traversal that does not
    return. *)
Definition handleNodeClick (links : list RawLink) (nodeId : string) : option Trace :=
  path ← Flat.bfsPath nodeId links;
  Some (mkTrace (Some nodeId) path).

End Mountain.

(** * Part II: properties *)

(** ** Links and reachability *)

Lemma outgoing_edge links a b : b ∈ outgoing links a ↔ edge links a b.
Proof.
  unfold outgoing, edge. rewrite list_elem_of_In, in_map_iff. split.
  - intros ([s t] & <- & Hin). apply filter_In in Hin as [Hin Heq].
    apply String.eqb_eq in Heq. simpl in *. subst s.
    by apply list_elem_of_In.
  - intros Hin. exists (mkLink a b). split; [done|].
    apply filter_In. split; [by apply list_elem_of_In|].
    simpl. apply String.eqb_refl.
Qed.

Lemma pending_length_le links visited :
  length (pending links visited) ≤ length links.
Proof. apply filter_length_le. Qed.

(** Visiting [current] removes exactly its outgoing links from [pending]. *)
Lemma pending_visit links visited current :
  current ∉ visited →
  length (pending links visited) =
  length (outgoing links current) + length (pending links ({[current]} ∪ visited)).
Proof.
  intros Hnew. unfold pending, outgoing. rewrite length_map.
  induction links as [|l links IH]; [done|].
  simpl. destruct (String.eqb_spec (source l) current) as [Heq|Hne].
  - rewrite Heq, (bool_decide_eq_false_2 _ Hnew).
    rewrite (bool_decide_eq_true_2 (current ∈ {[current]} ∪ visited))
      by (apply elem_of_union_l, elem_of_singleton; reflexivity).
    simpl. by rewrite IH.
  - assert (source l ∈ {[current]} ∪ visited ↔ source l ∈ visited) as Hiff
      by (rewrite elem_of_union, elem_of_singleton; tauto).
    rewrite (bool_decide_ext _ _ Hiff).
    destruct (bool_decide (source l ∈ visited)); simpl; [apply IH|].
    rewrite IH. lia.
Qed.

(** ** The flat traversals *)

Module FlatFacts.

Import Flat.

Lemma inv_init links startId : inv links startId ∅ [startId] [].
Proof.
  split; simpl; try done.
  - constructor.
  - intros n Hn. apply list_elem_of_singleton in Hn as ->. apply rtc_refl.
  - set_solver.
  - by left.
  - intros u v Hu. by apply elem_of_nil in Hu.
Qed.

Lemma inv_done links startId visited path :
  inv links startId visited [] path → traversal_of links startId path.
Proof.
  intros [Hv Hnd Hreach Hstart Hhead Hfirst Hclosed].
  rewrite app_nil_r in Hstart.
  split; [|split; [done|]].
  - destruct Hhead as [->|]; [by apply elem_of_nil in Hstart|done].
  - intros n. split.
    + intros Hn. apply Hreach. by rewrite app_nil_r.
    + revert n. apply rtc_ind_r; [done|].
      intros y z _ He Hy. specialize (Hclosed y z Hy He).
      by rewrite app_nil_r in Hclosed.
Qed.

Lemma inv_skip links startId visited current queue path :
  inv links startId visited (current :: queue) path →
  current ∈ visited →
  inv links startId visited queue path.
Proof.
  intros [Hv Hnd Hreach Hstart Hhead Hfirst Hclosed] Hin.
  assert (current ∈ path) as Hcp by (subst visited; set_solver).
  split; try done.
  - intros n Hn. apply Hreach. set_solver.
  - set_solver.
  - intros ->. by apply elem_of_nil in Hcp.
  - intros u v Hu He. specialize (Hclosed u v Hu He). set_solver.
Qed.

(** Visiting [current] and queueing [pushed], provided [pushed] holds
    successors of [current] only, and all the unvisited ones. *)
Lemma inv_visit links startId visited current queue path pushed :
  inv links startId visited (current :: queue) path →
  current ∉ visited →
  (∀ n, n ∈ pushed → edge links current n) →
  (∀ n, edge links current n → n ∈ pushed ∨ n ∈ {[current]} ∪ visited) →
  inv links startId ({[current]} ∪ visited) (queue ++ pushed) (path ++ [current]).
Proof.
  intros [Hv Hnd Hreach Hstart Hhead Hfirst Hclosed] Hnew Hsucc Hall.
  assert (current ∉ path) as Hcp by (subst visited; set_solver).
  assert (reachable links startId current) as Hrc by (apply Hreach; set_solver).
  split.
  - rewrite list_to_set_snoc_L. subst visited. set_solver.
  - apply NoDup_app. split; [done|]. split; [set_solver|]. apply NoDup_singleton.
  - intros n Hn.
    rewrite !elem_of_app, list_elem_of_singleton in Hn.
    destruct Hn as [[Hn| ->]|[Hn|Hn]]; [apply Hreach; set_solver|done|apply Hreach; set_solver|].
    eapply rtc_r; [exact Hrc|by apply Hsucc].
  - set_solver.
  - right. destruct path as [|p path]; simpl.
    + specialize (Hfirst eq_refl). simpl in Hfirst. done.
    + destruct Hhead as [?|Hhead]; [done|]. done.
  - intros Hnil. by destruct path.
  - intros u v Hu He.
    rewrite elem_of_app, list_elem_of_singleton in Hu.
    destruct Hu as [Hu| ->].
    + specialize (Hclosed u v Hu He). set_solver.
    + destruct (Hall v He) as [Hp|Hp]; [set_solver|].
      subst visited. set_solver.
Qed.

Lemma bfsPath_loop_spec links startId fuel : ∀ visited queue path,
  inv links startId visited queue path →
  length queue + length (pending links visited) ≤ fuel →
  ∃ res, bfsPath_loop fuel links visited queue path = Some res ∧
         traversal_of links startId res.
Proof.
  induction fuel as [|fuel IH]; intros visited queue path Hinv Hfuel.
  - destruct queue; [|simpl in Hfuel; lia].
    exists path. split; [done|]. by eapply inv_done.
  - destruct queue as [|current queue].
    { exists path. split; [done|]. by eapply inv_done. }
    simpl. case_bool_decide as Hin.
    + apply IH; [by eapply inv_skip|]. simpl in Hfuel. lia.
    + apply IH.
      * apply inv_visit; [done|done| |].
        -- intros n Hn. apply list_elem_of_In, filter_In in Hn as [Hn _].
           by apply outgoing_edge, list_elem_of_In.
        -- intros n He. destruct (decide (n ∈ {[current]} ∪ visited)) as [?|Hn]; [by right|].
           left. apply list_elem_of_In, filter_In. split.
           ++ by apply list_elem_of_In, outgoing_edge.
           ++ by rewrite bool_decide_eq_false_2.
      * rewrite length_app. simpl in Hfuel.
        rewrite (pending_visit links visited current Hin) in Hfuel.
        pose proof (filter_length_le
          (fun n => negb (bool_decide (n ∈ {[current]} ∪ visited)))
          (outgoing links current)).
        lia.
Qed.

Lemma findNodePaths_loop_spec links startId fuel : ∀ visited queue path,
  inv links startId visited queue path →
  length queue + length (pending links visited) ≤ fuel →
  ∃ res, findNodePaths_loop fuel links visited queue path = Some res ∧
         traversal_of links startId res.
Proof.
  induction fuel as [|fuel IH]; intros visited queue path Hinv Hfuel.
  - destruct queue; [|simpl in Hfuel; lia].
    exists path. split; [done|]. by eapply inv_done.
  - destruct queue as [|current queue].
    { exists path. split; [done|]. by eapply inv_done. }
    simpl. case_bool_decide as Hin.
    + apply IH; [by eapply inv_skip|]. simpl in Hfuel. lia.
    + apply IH.
      * apply inv_visit; [done|done| |].
        -- intros n Hn. by apply outgoing_edge.
        -- intros n He. left. by apply outgoing_edge.
      * rewrite length_app. simpl in Hfuel.
        rewrite (pending_visit links visited current Hin) in Hfuel. lia.
Qed.

(** C9. From every start id and link list, [bfsPath] and [findNodePaths]
    return a path: its first element is the start id, it has no duplicate,
    and its elements are exactly the ids reachable from the start through
    directed links (the start itself included, also without outgoing
    links). *)
Theorem bfsPath_traversal (startId : string) (links : list RawLink) :
  (∃ path, bfsPath startId links = Some path ∧ traversal_of links startId path) ∧
  (∃ path, findNodePaths startId links = Some path ∧ traversal_of links startId path).
Proof.
  split.
  - apply bfsPath_loop_spec; [apply inv_init|].
    simpl. pose proof (pending_length_le links ∅). lia.
  - apply findNodePaths_loop_spec; [apply inv_init|].
    simpl. pose proof (pending_length_le links ∅). lia.
Qed.

End FlatFacts.

(** ** The exploration score *)

Lemma num_nonneg n : (0 <= num n)%Q.
Proof.
  unfold num. change 0%Q with (inject_Z 0). rewrite <- Zle_Qle. lia.
Qed.

Lemma num_totalFeedback data :
  (num (totalFeedback data) ==
   num (insightful data) + num (neutral data) + num (familiar data))%Q.
Proof.
  unfold num, totalFeedback. by rewrite !Nat2Z.inj_add, !inject_Z_plus.
Qed.

Lemma num_pos n : 0 < n → (0 < num n)%Q.
Proof.
  intros Hn. unfold num. change 0%Q with (inject_Z 0). rewrite <- Zlt_Qlt. lia.
Qed.

(** C7. The score is [(insightful*2 - familiar*2) / total] when the total
    feedback is positive, [0] for a node without a record or without
    feedback, and it always lies between [-2] and [2]. *)
Theorem getExplorationScore_range (nodeId : string)
    (explorationData : gmap string NodeExploration) :
  (∀ data, explorationData !! nodeId = Some data → 0 < totalFeedback data →
     getExplorationScore nodeId explorationData =
     ((num (insightful data) * 2 - num (familiar data) * 2)
        / num (insightful data + neutral data + familiar data))%Q) ∧
  (explorationData !! nodeId = None →
     getExplorationScore nodeId explorationData = 0%Q) ∧
  (∀ data, explorationData !! nodeId = Some data → totalFeedback data = 0 →
     getExplorationScore nodeId explorationData = 0%Q) ∧
  (-2 <= getExplorationScore nodeId explorationData <= 2)%Q.
Proof.
  unfold getExplorationScore.
  destruct (explorationData !! nodeId) as [data|] eqn:Hdata.
  - destruct (Nat.eqb_spec (totalFeedback data) 0) as [Hzero|Hpos].
    + repeat split; try done; try lra.
      intros d [= <-] Hd. lia.
    + assert (0 < totalFeedback data) as Htotal by lia.
      pose proof (num_pos _ Htotal) as Hnum.
      pose proof (num_totalFeedback data) as Hsum.
      pose proof (num_nonneg (insightful data)).
      pose proof (num_nonneg (neutral data)).
      pose proof (num_nonneg (familiar data)).
      repeat split.
      * by intros d [= <-] _.
      * done.
      * intros d [= <-] Hd. lia.
      * apply Qle_shift_div_l; [done|]. lra.
      * apply Qle_shift_div_r; [done|]. lra.
  - repeat split; try done; lra.
Qed.

(** The score of a lone node with two insightful marks among three. *)
Lemma getExplorationScore_range_witness :
  getExplorationScore "form" {[ "form" := mkExploration 4 2 1 0 ]} =
    ((num 2 * 2 - num 0 * 2) / num (2 + 1 + 0))%Q ∧
  (-2 <= getExplorationScore "form" {[ "form" := mkExploration 4 2 1 0 ]} <= 2)%Q.
Proof.
  destruct (getExplorationScore_range "form" {[ "form" := mkExploration 4 2 1 0 ]})
    as (Hvalue & _ & _ & Hrange).
  split; [|exact Hrange].
  apply (Hvalue (mkExploration 4 2 1 0)); [reflexivity|vm_compute; lia].
Defined.

(** ** The layered traversal *)

Module LayersFacts.

Import Layers.

(** *** Membership in the pieces of one round *)

Lemma elem_of_unvisited visited ids x :
  x ∈ unvisited visited ids ↔ x ∈ ids ∧ x ∉ visited.
Proof.
  unfold unvisited. rewrite list_elem_of_In, filter_In, <- list_elem_of_In.
  rewrite negb_true_iff, bool_decide_eq_false. tauto.
Qed.

Lemma elem_of_expand links validNodes x :
  x ∈ expand links validNodes ↔ ∃ u, u ∈ validNodes ∧ edge links u x.
Proof.
  unfold expand. rewrite list_elem_of_In, in_flat_map. split.
  - intros (u & Hu & Hx). exists u. split; [by apply list_elem_of_In|].
    by apply outgoing_edge, list_elem_of_In.
  - intros (u & Hu & Hx). exists u. split; [by apply list_elem_of_In|].
    by apply list_elem_of_In, outgoing_edge.
Qed.

Lemma elem_of_mark validNodes visited x :
  x ∈ mark validNodes visited ↔ x ∈ validNodes ∨ x ∈ visited.
Proof. unfold mark. by rewrite elem_of_union, elem_of_list_to_set. Qed.

(** *** Fuel: every round marks a fresh id of the universe *)

Lemma edge_universe links startId u v : edge links u v → v ∈ universe links startId.
Proof.
  intros He. unfold universe. apply elem_of_cons. right.
  apply list_elem_of_In, in_map_iff. exists (mkLink u v).
  split; [done|]. by apply list_elem_of_In.
Qed.

Lemma unvisited_mark_lt visited validNodes ids x :
  x ∈ validNodes → x ∈ ids → x ∉ visited →
  length (unvisited (mark validNodes visited) ids) < length (unvisited visited ids).
Proof.
  intros Hv Hi Hn. induction ids as [|y ids IH]; [by apply elem_of_nil in Hi|].
  assert (length (unvisited (mark validNodes visited) ids)
          ≤ length (unvisited visited ids)) as Hle.
  { clear. induction ids as [|z ids IH]; [done|]. simpl.
    destruct (decide (z ∈ visited)) as [Hz|Hz].
    - rewrite (bool_decide_eq_true_2 (z ∈ visited) Hz).
      rewrite (bool_decide_eq_true_2 (z ∈ mark validNodes visited))
        by (apply elem_of_mark; by right).
      done.
    - rewrite (bool_decide_eq_false_2 (z ∈ visited) Hz).
      destruct (bool_decide (z ∈ mark validNodes visited)); simpl; lia. }
  simpl. apply elem_of_cons in Hi as [<-|Hi].
  - rewrite (bool_decide_eq_false_2 (x ∈ visited) Hn).
    rewrite (bool_decide_eq_true_2 (x ∈ mark validNodes visited))
      by (apply elem_of_mark; by left).
    simpl. lia.
  - specialize (IH Hi).
    destruct (decide (y ∈ visited)) as [Hy|Hy].
    + rewrite (bool_decide_eq_true_2 (y ∈ visited) Hy).
      rewrite (bool_decide_eq_true_2 (y ∈ mark validNodes visited))
        by (apply elem_of_mark; by right).
      done.
    + rewrite (bool_decide_eq_false_2 (y ∈ visited) Hy).
      destruct (bool_decide (y ∈ mark validNodes visited)); simpl; lia.
Qed.

(** *** The invariant of both loops *)

Lemma level_inv_init links startId : level_inv links startId ∅ [startId] [].
Proof.
  split; simpl.
  - set_solver.
  - intros n Hn. apply list_elem_of_singleton in Hn as ->. apply rtc_refl.
  - intros n Hn. apply list_elem_of_singleton in Hn as ->. apply list_elem_of_here.
  - apply list_elem_of_here.
  - intros u v Hu. by apply elem_of_nil in Hu.
Qed.

Lemma level_inv_round links startId visited currentLevel seen :
  level_inv links startId visited currentLevel seen →
  let validNodes := unvisited visited currentLevel in
  level_inv links startId (mark validNodes visited) (expand links validNodes)
    (seen ++ validNodes).
Proof.
  intros [Hv Hreach Huni Hstart Hclosed] validNodes. split.
  - intros n. rewrite elem_of_mark, elem_of_app, Hv. tauto.
  - intros n. rewrite !elem_of_app. intros [[Hn|Hn]|Hn].
    + apply Hreach. apply elem_of_app. by left.
    + apply elem_of_unvisited in Hn as [Hn _]. apply Hreach, elem_of_app. by right.
    + apply elem_of_expand in Hn as (u & Hu & He).
      apply elem_of_unvisited in Hu as [Hu _].
      eapply rtc_r; [|exact He]. apply Hreach, elem_of_app. by right.
  - intros n Hn. apply elem_of_expand in Hn as (u & _ & He).
    by eapply edge_universe.
  - apply elem_of_app in Hstart as [Hs|Hs].
    + rewrite !elem_of_app. by left; left.
    + destruct (decide (startId ∈ visited)) as [Hin|Hnin].
      * rewrite !elem_of_app. left; left. by apply Hv.
      * rewrite !elem_of_app. left; right. by apply elem_of_unvisited.
  - intros u v Hu He. rewrite !elem_of_app.
    apply elem_of_app in Hu as [Hu|Hu].
    + specialize (Hclosed u v Hu He). apply elem_of_app in Hclosed as [Hc|Hc]; [by left; left|].
      destruct (decide (v ∈ visited)) as [Hin|Hnin].
      * left; left. by apply Hv.
      * left; right. by apply elem_of_unvisited.
    + right. apply elem_of_expand. by exists u.
Qed.

(** When no id of the level is fresh, everything reachable has been seen. *)
Lemma level_inv_done links startId visited currentLevel seen :
  level_inv links startId visited currentLevel seen →
  unvisited visited currentLevel = [] →
  ∀ n, n ∈ seen ↔ reachable links startId n.
Proof.
  intros [Hv Hreach Huni Hstart Hclosed] Hnone.
  assert (∀ n, n ∈ seen ++ currentLevel → n ∈ seen) as Hin.
  { intros n Hn. apply elem_of_app in Hn as [Hn|Hn]; [done|].
    destruct (decide (n ∈ visited)) as [Hvis|Hvis]; [by apply Hv|].
    assert (n ∈ unvisited visited currentLevel) as Hu by by apply elem_of_unvisited.
    rewrite Hnone in Hu. by apply elem_of_nil in Hu. }
  intros n. split.
  - intros Hn. apply Hreach, elem_of_app. by left.
  - revert n. apply rtc_ind_r; [by apply Hin|].
    intros y z _ He Hy. apply Hin. by eapply Hclosed.
Qed.

(** The two tests at the head of a round amount to one: an empty level has
    no fresh id. *)
Lemma collect_round fuel links visited tempLevel allNodesInPath :
  collect fuel links visited tempLevel allNodesInPath =
  match unvisited visited tempLevel with
  | [] => Some allNodesInPath
  | _ :: _ =>
    match fuel with
    | O => None
    | S fuel =>
      let validNodes := unvisited visited tempLevel in
      collect fuel links (mark validNodes visited) (expand links validNodes)
        (allNodesInPath ++ validNodes)
    end
  end.
Proof. by destruct fuel, tempLevel. Qed.

Lemma standard_round fuel links visited currentLevel level layers :
  standard fuel links visited currentLevel level layers =
  match unvisited visited currentLevel with
  | [] => Some layers
  | _ :: _ =>
    match fuel with
    | O => None
    | S fuel =>
      let validNodes := unvisited visited currentLevel in
      standard fuel links (mark validNodes visited) (expand links validNodes)
        (S level) (layers ++ [mkLayer level validNodes])
    end
  end.
Proof. by destruct fuel, currentLevel. Qed.

Lemma collect_spec links startId fuel : ∀ visited tempLevel allNodesInPath,
  level_inv links startId visited tempLevel allNodesInPath →
  length (unvisited visited (universe links startId)) ≤ fuel →
  ∃ res, collect fuel links visited tempLevel allNodesInPath = Some res ∧
         allNodesInPath `prefix_of` res ∧
         ∀ n, n ∈ res ↔ reachable links startId n.
Proof.
  induction fuel as [|fuel IH]; intros visited tempLevel allNodesInPath Hinv Hfuel;
    rewrite collect_round;
    pose proof (level_inv_round _ _ _ _ _ Hinv) as Hround; simpl in Hround;
    destruct (unvisited visited tempLevel) as [|x validNodes] eqn:Hvalid;
    try (exists allNodesInPath; split; [done|]; split; [done|]; by eapply level_inv_done).
  - exfalso.
    assert (x ∈ unvisited visited tempLevel) as Hx by (rewrite Hvalid; apply list_elem_of_here).
    apply elem_of_unvisited in Hx as [Hx Hnx].
    assert (x ∈ unvisited visited (universe links startId)) as Hxu.
    { apply elem_of_unvisited. split; [|done]. by apply (level_inv_universe _ _ _ _ _ Hinv). }
    destruct (unvisited visited (universe links startId)); [by apply elem_of_nil in Hxu|].
    simpl in Hfuel. lia.
  - assert (x ∈ unvisited visited tempLevel) as Hx by (rewrite Hvalid; apply list_elem_of_here).
    apply elem_of_unvisited in Hx as [Hx Hnx].
    destruct (IH _ _ _ Hround) as (res & Hres & Hpre & Hset).
    { pose proof (unvisited_mark_lt visited (x :: validNodes)
        (universe links startId) x) as Hlt.
      specialize (Hlt (list_elem_of_here _ _)
        (level_inv_universe _ _ _ _ _ Hinv x Hx) Hnx). lia. }
    exists res. split; [exact Hres|]. split; [|done].
    etrans; [|exact Hpre]. by apply prefix_app_r.
Qed.

Lemma flatten_snoc layers level validNodes :
  flatten (layers ++ [mkLayer level validNodes]) = flatten layers ++ validNodes.
Proof. unfold flatten. rewrite flat_map_app. simpl. by rewrite app_nil_r. Qed.

(** The layers of normal mode are the rounds of [collect]. *)
Lemma standard_collect links fuel : ∀ visited currentLevel level layers,
  flatten <$> standard fuel links visited currentLevel level layers =
  collect fuel links visited currentLevel (flatten layers).
Proof.
  induction fuel as [|fuel IH]; intros visited currentLevel level layers;
    rewrite standard_round, collect_round;
    destruct (unvisited visited currentLevel) as [|x validNodes]; try done.
  simpl. by rewrite IH, flatten_snoc.
Qed.

(** *** The sort: descending, a permutation, stable *)

Lemma insert_sorted_perm x l : insert_sorted x l ≡ₚ x :: l.
Proof.
  induction l as [|y l IH]; simpl; [done|].
  destruct (Qle_bool (compareFn x y) 0); [done|].
  rewrite IH. apply Permutation_swap.
Qed.

Lemma sort_perm l : sort l ≡ₚ l.
Proof.
  induction l as [|x l IH]; simpl; [done|].
  by rewrite insert_sorted_perm, IH.
Qed.

Lemma insert_sorted_sorted x l :
  StronglySorted descending l → StronglySorted descending (insert_sorted x l).
Proof.
  induction 1 as [|y l Hl IH Hy]; simpl; [repeat constructor|].
  destruct (Qle_bool (compareFn x y) 0) eqn:Hc.
  - apply Qle_bool_iff in Hc. unfold compareFn in Hc.
    constructor; [by constructor|].
    constructor; [unfold descending; lra|].
    eapply Forall_impl; [exact Hy|]. unfold descending. intros z Hz. simpl in Hz. lra.
  - assert (¬ (compareFn x y <= 0)%Q) as Hn
      by (intros Hle; apply Qle_bool_iff in Hle; congruence).
    unfold compareFn in Hn.
    constructor; [done|].
    rewrite (insert_sorted_perm x l). constructor; [unfold descending; lra|done].
Qed.

Lemma sort_sorted l : StronglySorted descending (sort l).
Proof.
  induction l as [|x l IH]; simpl; [constructor|].
  by apply insert_sorted_sorted.
Qed.

(** Stability: the elements of any one score keep their relative order. *)
Lemma insert_sorted_stable q x l :
  List.filter (fun p => Qeq_bool (snd p) q) (insert_sorted x l) =
  List.filter (fun p => Qeq_bool (snd p) q) (x :: l).
Proof.
  induction l as [|y l IH]; [done|]. simpl insert_sorted.
  destruct (Qle_bool (compareFn x y) 0) eqn:Hc; [done|].
  assert (¬ (compareFn x y <= 0)%Q) as Hn
    by (intros Hle; apply Qle_bool_iff in Hle; congruence).
  unfold compareFn in Hn.
  change (List.filter ?f (y :: ?k)) with (if f y then y :: List.filter f k else List.filter f k).
  rewrite IH. simpl.
  destruct (Qeq_bool (snd x) q) eqn:Hx, (Qeq_bool (snd y) q) eqn:Hy; try done.
  apply Qeq_bool_iff in Hx, Hy. exfalso. apply Hn. rewrite Hx, Hy. lra.
Qed.

Lemma sort_stable q l :
  List.filter (fun p => Qeq_bool (snd p) q) (sort l) =
  List.filter (fun p => Qeq_bool (snd p) q) l.
Proof.
  induction l as [|x l IH]; [done|].
  simpl sort. rewrite insert_sorted_stable. simpl. by rewrite IH.
Qed.

(** *** Distribution into layers *)

Section DistributeFacts.

Variable score : string → Q.

Local Abbreviation before := (Layers.before score).
Local Abbreviation by_score := (Layers.by_score score).

Lemma distribute_app l : ∀ idx total layers cur k,
  distribute l idx total layers cur k = layers ++ distribute l idx total [] cur k.
Proof.
  induction l as [|node rest IH]; intros idx total layers cur k; cbn [distribute].
  - by rewrite app_nil_r.
  - destruct ((nodesPerLayer <=? length (cur ++ [node.1])) || (idx =? total - 1)).
    + rewrite (IH _ _ (layers ++ _)), (IH _ _ ([] ++ _)). by rewrite <- app_assoc.
    + apply IH.
Qed.

Lemma distribute_before l : ∀ idx total cur k,
  StronglySorted by_score (cur ++ l.*1) →
  StronglySorted before (distribute l idx total [] cur k) ∧
  ∀ la, la ∈ distribute l idx total [] cur k →
    k ≤ level la ∧ ∀ a, a ∈ nodes la → a ∈ cur ++ l.*1.
Proof.
  induction l as [|node rest IH]; intros idx total cur k Hsorted;
    cbn [distribute]; cbn [fmap list_fmap] in *.
  { split; [constructor|]. intros la Hla. by apply elem_of_nil in Hla. }
  rewrite (cons_middle node.1 cur (rest.*1)), (assoc_L (++)) in Hsorted.
  rewrite (cons_middle node.1 cur (rest.*1)), (assoc_L (++)).
  destruct ((nodesPerLayer <=? length (cur ++ [node.1])) || (idx =? total - 1)).
  - rewrite distribute_app. cbn [app].
    destruct (IH (S idx) total [] (S k)) as [Hs Hin].
    { simpl. by eapply StronglySorted_app_1_r. }
    split.
    + constructor; [done|]. apply Forall_forall. intros lb Hlb.
      destruct (Hin lb Hlb) as [Hlevel Hnodes]. split; [simpl; lia|].
      intros a b Ha Hb. simpl in Ha.
      eapply (StronglySorted_app_1_elem_of by_score); [exact Hsorted|done|].
      by apply Hnodes.
    + intros la Hla. apply elem_of_cons in Hla as [->|Hla]; simpl.
      * split; [lia|]. intros a Ha. apply elem_of_app. by left.
      * destruct (Hin la Hla) as [Hlevel Hnodes]. split; [lia|].
        intros a Ha. apply elem_of_app. right. by apply Hnodes.
  - by apply IH.
Qed.

(** No id is lost: the last index closes the layer under construction. *)
Lemma distribute_flatten l : ∀ idx total cur k,
  idx + length l = total → l ≠ [] ∨ cur = [] →
  flatten (distribute l idx total [] cur k) = cur ++ l.*1.
Proof.
  induction l as [|node rest IH]; intros idx total cur k Hidx Hlast;
    cbn [distribute]; cbn [fmap list_fmap].
  { destruct Hlast as [?| ->]; done. }
  rewrite (cons_middle node.1 cur (rest.*1)), (assoc_L (++)).
  destruct (nodesPerLayer <=? length (cur ++ [node.1])) eqn:Hfull; cbn [orb].
  - rewrite distribute_app. cbn [app flatten flat_map nodes].
    f_equal. apply (IH (S idx) total [] (S k)); [simpl in Hidx; lia|by right].
  - destruct (idx =? total - 1) eqn:Hend.
    + apply Nat.eqb_eq in Hend. simpl in Hidx.
      destruct rest; [|simpl in Hidx; lia].
      simpl. by rewrite !app_nil_r.
    + apply Nat.eqb_neq in Hend. apply IH; [simpl in Hidx; lia|].
      left. intros ->. simpl in Hidx. lia.
Qed.

End DistributeFacts.

(** Members of a list sorted by [R] are equal or related one way round. *)
Lemma StronglySorted_elem_of {A} (R : relation A) (l : list A) x y :
  StronglySorted R l → x ∈ l → y ∈ l → x = y ∨ R x y ∨ R y x.
Proof.
  induction 1 as [|z l Hl IH Hz]; intros Hx Hy; [by apply elem_of_nil in Hx|].
  rewrite Forall_forall in Hz.
  apply elem_of_cons in Hx as [->|Hx], Hy as [->|Hy]; auto.
Qed.

Lemma sorted_ids score (l : list (string * Q)) :
  Forall (fun p => snd p = score (fst p)) l →
  StronglySorted descending l → StronglySorted (by_score score) (l.*1).
Proof.
  intros Hcarry Hsorted. induction Hsorted as [|p l Hl IH Hp]; [constructor|].
  apply Forall_cons in Hcarry as [Hp1 Hcarry]. cbn [fmap list_fmap].
  constructor; [by apply IH|].
  rewrite Forall_forall in Hp, Hcarry. apply Forall_forall.
  intros b Hb. apply list_elem_of_fmap in Hb as (q & -> & Hq).
  unfold by_score. rewrite <- Hp1, <- (Hcarry q Hq). by apply Hp.
Qed.

Lemma elem_of_flatten layers n :
  n ∈ flatten layers ↔ ∃ la, la ∈ layers ∧ n ∈ nodes la.
Proof.
  unfold flatten. rewrite list_elem_of_In, in_flat_map.
  split; intros (la & Hla & Hn); exists la; by rewrite ?list_elem_of_In in *.
Qed.

(** *** The traversal returns *)

(** The first loop returns the start id followed by the other reachable
    ids. *)
Lemma collect_start links startId :
  ∃ otherNodes,
    collect (S (length links)) links ∅ [startId] [] = Some (startId :: otherNodes) ∧
    ∀ n, n ∈ startId :: otherNodes ↔ reachable links startId n.
Proof.
  assert (collect (S (length links)) links ∅ [startId] [] =
          collect (length links) links (mark [startId] ∅) (expand links [startId])
            [startId]) as -> by done.
  pose proof (level_inv_round _ _ _ _ _ (level_inv_init links startId)) as Hinv.
  change (level_inv links startId (mark [startId] ∅) (expand links [startId]) [startId])
    in Hinv.
  destruct (collect_spec links startId (length links) _ _ _ Hinv)
    as (res & Hres & [k Hk] & Hset).
  - pose proof (unvisited_mark_lt ∅ [startId] (universe links startId) startId) as Hlt.
    specialize (Hlt (list_elem_of_here _ _) (list_elem_of_here _ _)
      (not_elem_of_empty _)).
    assert (length (universe links startId) = S (length links)) as Hu
      by (unfold universe; simpl; by rewrite length_map).
    apply Nat.lt_succ_r. rewrite <- Hu.
    eapply Nat.lt_le_trans; [exact Hlt|apply filter_length_le].
  - subst res. exists k. split; [exact Hres|exact Hset].
Qed.

(** Normal mode returns, and its layers hold what the first loop
    collected. *)
Lemma standard_flatten links startId allNodesInPath :
  collect (S (length links)) links ∅ [startId] [] = Some allNodesInPath →
  ∃ layers,
    standard (S (length links)) links ∅ [startId] 0 [] = Some layers ∧
    flatten layers = allNodesInPath.
Proof.
  intros Hc.
  pose proof (standard_collect links (S (length links)) ∅ [startId] 0 []) as Hs.
  change (flatten []) with (@nil string) in Hs. rewrite Hc in Hs.
  destruct (standard (S (length links)) links ∅ [startId] 0 []) as [layers|];
    [|done].
  exists layers. injection Hs as Hs. by rewrite Hs.
Qed.

Lemma standard_prefix links fuel : ∀ visited currentLevel level layers res,
  standard fuel links visited currentLevel level layers = Some res →
  layers `prefix_of` res.
Proof.
  induction fuel as [|fuel IH]; intros visited currentLevel level layers res;
    rewrite standard_round;
    destruct (unvisited visited currentLevel) as [|x validNodes]; try done;
    try (by intros [= <-]).
  cbn zeta. intros Hres. apply IH in Hres.
  etrans; [|exact Hres]. by apply prefix_app_r.
Qed.

(** What normal mode does achieve: it returns, layer 0 is the start node
    alone, and the ids of the layers are exactly the reachable ones (an id
    may be listed more than once). *)
Lemma standard_layers_cover startId links explorationData :
  ∃ layers,
    getAdaptiveHierarchicalLayers startId links explorationData false = Some layers ∧
    head layers = Some (mkLayer 0 [startId]) ∧
    ∀ n, (∃ la, la ∈ layers ∧ n ∈ nodes la) ↔ reachable links startId n.
Proof.
  unfold getAdaptiveHierarchicalLayers.
  destruct (collect_start links startId) as (otherNodes & Hc & Hset).
  rewrite Hc. cbn [andb].
  destruct (standard_flatten links startId _ Hc) as (layers & Hs & Hflat).
  exists layers. split; [exact Hs|]. split.
  - assert (standard (S (length links)) links ∅ [startId] 0 [] =
            standard (length links) links (mark [startId] ∅) (expand links [startId])
              1 [mkLayer 0 [startId]]) as Hfirst by done.
    rewrite Hfirst in Hs. apply standard_prefix in Hs as [k ->]. done.
  - intros n. by rewrite <- elem_of_flatten, Hflat.
Qed.

(** The traversal returns a layering in both modes. *)
Lemma getAdaptiveHierarchicalLayers_total startId links explorationData cyberneticMode :
  is_Some (getAdaptiveHierarchicalLayers startId links explorationData cyberneticMode).
Proof.
  unfold getAdaptiveHierarchicalLayers.
  destruct (collect_start links startId) as (otherNodes & Hc & _).
  rewrite Hc.
  destruct (standard_flatten links startId _ Hc) as (layers & -> & _).
  by destruct (cyberneticMode && _).
Qed.

(** C1 (what the code does). On the diamond, normal mode lists [D] twice in
    layer 2: [D] is a successor of both [B] and [C], and the level is
    filtered against [visited] before any of its ids is marked.  The flat
    traversals list [D] once. *)
Theorem standard_layers_duplicate :
  getAdaptiveHierarchicalLayers "A" diamond ∅ false =
    Some [mkLayer 0 ["A"]; mkLayer 1 ["B"; "C"]; mkLayer 2 ["D"; "D"]] ∧
  Flat.bfsPath "A" diamond = Some ["A"; "B"; "C"; "D"] ∧
  Flat.findNodePaths "A" diamond = Some ["A"; "B"; "C"; "D"].
Proof. by vm_compute. Qed.

(** C8. Adaptive mode returns a layering that holds every reachable id,
    and it is monotone in the score: a node of strictly higher score than
    a non-start node [B] never lies in a layer of higher level than [B].
    This covers in particular two non-start nodes with nonzero total
    feedback. *)
Theorem adaptive_layers_monotone (startId : string) (links : list RawLink)
    (explorationData : gmap string NodeExploration) :
  ∃ layers,
    getAdaptiveHierarchicalLayers startId links explorationData true = Some layers ∧
    (∀ n, reachable links startId n → ∃ la, la ∈ layers ∧ n ∈ nodes la) ∧
    ∀ la lb A B, la ∈ layers → lb ∈ layers → A ∈ nodes la → B ∈ nodes lb →
      B ≠ startId →
      (getExplorationScore B explorationData < getExplorationScore A explorationData)%Q →
      level la ≤ level lb.
Proof.
  unfold getAdaptiveHierarchicalLayers.
  destruct (collect_start links startId) as (otherNodes & Hc & Hset).
  rewrite Hc. destruct otherNodes as [|o otherNodes].
  - (* nothing but the start is reachable: the normal loop runs *)
    cbn [andb length Nat.ltb Nat.leb].
    destruct (standard_flatten links startId _ Hc) as (layers & -> & Hflat).
    exists layers. split; [done|]. split.
    + intros n Hn. apply elem_of_flatten. rewrite Hflat. by apply Hset.
    + intros la lb A B _ Hlb _ HB Hne _. exfalso. apply Hne.
      assert (B ∈ flatten layers) as HBf by (apply elem_of_flatten; eauto).
      rewrite Hflat in HBf. by apply list_elem_of_singleton in HBf.
  - cbn [andb length Nat.ltb Nat.leb].
    set (score := fun nodeId => getExplorationScore nodeId explorationData).
    set (sorted := sort (List.map (fun nodeId => (nodeId, score nodeId)) (o :: otherNodes))).
    assert (sorted ≡ₚ (fun nodeId => (nodeId, score nodeId)) <$> (o :: otherNodes))
      as Hperm by apply sort_perm.
    assert (sorted.*1 ≡ₚ o :: otherNodes) as Hids.
    { rewrite Hperm, <- list_fmap_compose. by rewrite list_fmap_id. }
    assert (Forall (fun p => snd p = score (fst p)) sorted) as Hcarry.
    { rewrite Hperm. apply Forall_fmap, Forall_forall. by intros. }
    pose proof (sorted_ids score sorted Hcarry (sort_sorted _)) as Hsorted.
    destruct (distribute_before score sorted 0 (length sorted) [] 1 Hsorted)
      as [Hbefore Hin].
    rewrite distribute_app. eexists. split; [done|]. split.
    + intros n Hn. apply Hset in Hn. apply elem_of_cons in Hn as [->|Hn].
      * eexists. split; [apply list_elem_of_here|]. apply list_elem_of_here.
      * assert (n ∈ flatten (distribute sorted 0 (length sorted) [] [] 1)) as Hf.
        { rewrite distribute_flatten by (done || by right). simpl. by rewrite Hids. }
        apply elem_of_flatten in Hf as (la & Hla & Hnla).
        exists la. split; [|done]. apply elem_of_app. by right.
    + intros la lb A B Hla Hlb HA HB Hne Hlt.
      apply elem_of_app in Hlb as [Hlb|Hlb].
      { apply list_elem_of_singleton in Hlb as ->. simpl in HB.
        by apply list_elem_of_singleton in HB. }
      apply elem_of_app in Hla as [Hla|Hla].
      { apply list_elem_of_singleton in Hla as ->. simpl. lia. }
      destruct (StronglySorted_elem_of _ _ la lb Hbefore Hla Hlb)
        as [->|[[Hlevel _]|[_ Hscore]]]; [done|lia|].
      specialize (Hscore B A HB HA). fold (score A) in Hlt. fold (score B) in Hlt.
      lra.
Qed.

End LayersFacts.

(** ** Recording feedback *)

Module SessionFacts.

Import Layers LayersFacts Session.

(** C3 (as stated) fails: the handler throws on an id without a record. *)
Lemma feedback_not_total :
  handleFeedback emptySession "form" Insightful = None ∧ ¬ feedback_total.
Proof.
  split; [done|]. intros Htotal.
  destruct (Htotal emptySession "form" Insightful) as (st' & Hst & _).
  discriminate Hst.
Qed.

(** C3 (amended). For a node id that has a record, recording feedback of
    any kind returns; the new record has that kind's counter one higher and
    the other counters and the visits unchanged, and no other node's record
    changes.  On the zero record every node starts with, that kind's counter
    becomes 1. *)
Theorem handleFeedback_recorded (st : State) (nodeId : string) (type : FeedbackType)
    (current : NodeExploration) :
  explorationData st !! nodeId = Some current →
  ∃ st',
    handleFeedback st nodeId type = Some st' ∧
    explorationData st' = <[nodeId := bump type current]> (explorationData st) ∧
    counter type (bump type current) = counter type current + 1 ∧
    visits (bump type current) = visits current ∧
    (∀ other, other ≠ type → counter other (bump type current) = counter other current) ∧
    (current = mkExploration 0 0 0 0 → counter type (bump type current) = 1).
Proof.
  intros Hcurrent. unfold handleFeedback. rewrite Hcurrent.
  assert (counter type (bump type current) = counter type current + 1 ∧
          visits (bump type current) = visits current ∧
          (∀ other, other ≠ type →
             counter other (bump type current) = counter other current) ∧
          (current = mkExploration 0 0 0 0 → counter type (bump type current) = 1))
    as Hbump.
  { split; [by destruct type|]. split; [by destruct type|]. split.
    - intros other Hne. by destruct type, other.
    - intros ->. by destruct type. }
  destruct (activeNode st) as [active|]; [|by eexists].
  destruct (truthy (Some active) && cyberneticMode st); [|by eexists].
  destruct (getAdaptiveHierarchicalLayers_total active (links st)
    (<[nodeId := bump type current]> (explorationData st)) (cyberneticMode st))
    as [newLayers ->].
  by eexists.
Qed.

Lemma handleFeedback_recorded_witness :
  ∃ st',
    handleFeedback smallSession "function" Insightful = Some st' ∧
    explorationData st' !! "function" = Some (mkExploration 0 1 0 0).
Proof.
  destruct (handleFeedback_recorded smallSession "function" Insightful
    (mkExploration 0 0 0 0)) as (st' & Hst & Hdata & _).
  - reflexivity.
  - exists st'. split; [exact Hst|]. rewrite Hdata. apply lookup_insert_eq.
Defined.

End SessionFacts.

(** ** Edge randomisation *)

Module RandomizeFacts.

Import Randomize.

(** *** The picked index is in range *)

Lemma index_lt r n : 0 < n → index r n < n.
Proof.
  intros Hn. unfold index. destruct r as [v Hv]. cbn [value].
  apply andb_true_iff in Hv as [Hlo Hhi].
  apply Qle_bool_iff in Hlo. apply negb_true_iff in Hhi.
  assert (v < 1)%Q as Hlt.
  { destruct (Qlt_le_dec v 1) as [?|Hle]; [done|].
    apply Qle_bool_iff in Hle. congruence. }
  set (x := (v * inject_Z (Z.of_nat n))%Q).
  assert (0 < inject_Z (Z.of_nat n))%Q as Hnq
    by (change 0%Q with (inject_Z 0); rewrite <- Zlt_Qlt; lia).
  assert (0 <= x)%Q as Hx0 by (unfold x; nra).
  assert (x < inject_Z (Z.of_nat n))%Q as Hxn by (unfold x; nra).
  pose proof (Qfloor_le x) as Hfl.
  pose proof (Qfloor_resp_le 0 x Hx0) as Hf0. change (Qfloor 0) with 0%Z in Hf0.
  assert (inject_Z (Qfloor x) < inject_Z (Z.of_nat n))%Q as Hfn by lra.
  rewrite <- Zlt_Qlt in Hfn. fold x. lia.
Qed.

Lemma pick_is_Some r nodeIds : nodeIds ≠ [] → is_Some (pick r nodeIds).
Proof.
  intros Hne. unfold pick. apply lookup_lt_is_Some_2.
  apply index_lt. destruct nodeIds; [done|simpl; lia].
Qed.

Lemma pick_elem_of r nodeIds nodeId : pick r nodeIds = Some nodeId → nodeId ∈ nodeIds.
Proof. unfold pick. apply list_elem_of_lookup_2. Qed.

(** *** What every returned edge list satisfies *)

Lemma grows_refl g : grows g g.
Proof. by intros nodeId. Qed.

Lemma grows_trans g1 g2 g3 : grows g1 g2 → grows g2 g3 → grows g1 g3.
Proof.
  intros H12 H23 nodeId. destruct (H12 nodeId), (H23 nodeId). lia.
Qed.

Lemma outDegree_snoc links s t nodeId :
  outDegree (links ++ [mkLink s t]) nodeId =
  outDegree links nodeId + (if String.eqb s nodeId then 1 else 0).
Proof.
  unfold outDegree. rewrite List.filter_app, length_app. simpl.
  by destruct (String.eqb s nodeId).
Qed.

Lemma inDegree_snoc links s t nodeId :
  inDegree (links ++ [mkLink s t]) nodeId =
  inDegree links nodeId + (if String.eqb t nodeId then 1 else 0).
Proof.
  unfold inDegree. rewrite List.filter_app, length_app. simpl.
  by destruct (String.eqb t nodeId).
Qed.

Lemma getOr0_insert count key n nodeId :
  getOr0 (<[key := n]> count) nodeId =
  if String.eqb key nodeId then n else getOr0 count nodeId.
Proof.
  unfold getOr0. destruct (String.eqb_spec key nodeId) as [->|Hne].
  - by rewrite lookup_insert_eq.
  - by rewrite lookup_insert_ne.
Qed.

Lemma gen_inv_init nodeIds : gen_inv nodeIds (initialGen nodeIds).
Proof.
  assert (∀ count : gmap string nat, (∀ nodeId, getOr0 count nodeId = 0) →
          ∀ nodeId, getOr0 (fold_left (fun count nodeId => <[nodeId := 0]> count)
                              nodeIds count) nodeId = 0) as Hzero.
  { induction nodeIds as [|n nodeIds IH]; intros count Hcount nodeId; [by apply Hcount|].
    simpl. apply IH. intros k. rewrite getOr0_insert.
    by destruct (String.eqb n k). }
  split; simpl.
  - intros l Hl. by apply elem_of_nil in Hl.
  - intros l Hl. by apply elem_of_nil in Hl.
  - constructor.
  - intros l Hl. by apply elem_of_nil in Hl.
  - intros nodeId. by apply Hzero.
  - intros nodeId. by apply Hzero.
Qed.

Lemma gen_inv_random nodeIds rand g :
  gen_inv nodeIds g → gen_inv nodeIds (random rand g).2.
Proof. by intros [? ? ? ? ? ?]. Qed.

Lemma grows_random rand g : grows g (random rand g).2.
Proof. by intros nodeId. Qed.

Lemma gen_inv_tryLink nodeIds s t g :
  s ∈ nodeIds → t ∈ nodeIds →
  gen_inv nodeIds g → gen_inv nodeIds (tryLink s t g) ∧ grows g (tryLink s t g).
Proof.
  intros Hs Ht Hinv. unfold tryLink.
  destruct (String.eqb_spec s t) as [Heq|Hne]; simpl; [by split; [|apply grows_refl]|].
  case_bool_decide as Hused; simpl; [by split; [|apply grows_refl]|].
  destruct Hinv as [Hwithin Hself Hdup Hkeys Hout Hin]. split.
  - split; simpl.
    + intros l Hl. apply elem_of_app in Hl as [Hl|Hl]; [by apply Hwithin|].
      by apply list_elem_of_singleton in Hl as ->.
    + intros l Hl. apply elem_of_app in Hl as [Hl|Hl]; [by apply Hself|].
      by apply list_elem_of_singleton in Hl as ->.
    + apply NoDup_app. split; [done|]. split; [|apply NoDup_singleton].
      intros l Hl Hl'. apply list_elem_of_singleton in Hl' as ->.
      apply Hused. by apply (Hkeys _ Hl).
    + intros l Hl. apply elem_of_union.
      apply elem_of_app in Hl as [Hl|Hl]; [right; by apply Hkeys|].
      apply list_elem_of_singleton in Hl as ->. left. by apply elem_of_singleton.
    + intros nodeId. rewrite getOr0_insert, outDegree_snoc, !Hout.
      destruct (String.eqb_spec s nodeId) as [->|]; lia.
    + intros nodeId. rewrite getOr0_insert, inDegree_snoc, !Hin.
      destruct (String.eqb_spec t nodeId) as [->|]; lia.
  - intros nodeId. simpl. rewrite outDegree_snoc, inDegree_snoc. lia.
Qed.

Lemma fillOutgoing_spec rand nodeIds sourceNode fuel :
  sourceNode ∈ nodeIds → ∀ g g',
  fillOutgoing fuel rand nodeIds sourceNode g = Some g' →
  gen_inv nodeIds g →
  gen_inv nodeIds g' ∧ grows g g' ∧
  minConnectionsPerNode ≤ outDegree (newLinks g') sourceNode.
Proof.
  intros Hnode. induction fuel as [|fuel IH]; intros g g'; cbn [fillOutgoing];
    destruct (Nat.ltb_spec (getOr0 (outgoingCount g) sourceNode) minConnectionsPerNode)
      as [Hlt|Hge]; try done;
    try (intros [= <-] Hinv; split; [done|]; split; [apply grows_refl|];
         by rewrite <- (inv_out _ _ Hinv)).
  intros Hrun Hinv.
  pose proof (gen_inv_random nodeIds rand g Hinv) as Hinv1.
  pose proof (grows_random rand g) as Hgrow1.
  destruct (random rand g) as [r g1] eqn:Hr. cbn [snd] in Hinv1, Hgrow1.
  destruct (pick r nodeIds) as [targetNode|] eqn:Hpick.
  - destruct (gen_inv_tryLink nodeIds sourceNode targetNode g1 Hnode
      (pick_elem_of _ _ _ Hpick) Hinv1) as [Hinv2 Hgrow2].
    destruct (IH _ _ Hrun Hinv2) as (Hinv' & Hgrow' & Hdeg).
    split; [done|]. split; [|done].
    eapply grows_trans; [exact Hgrow1|]. by eapply grows_trans.
  - destruct (IH _ _ Hrun Hinv1) as (Hinv' & Hgrow' & Hdeg).
    split; [done|]. split; [|done]. by eapply grows_trans.
Qed.

Lemma fillIncoming_spec rand nodeIds targetNode fuel :
  targetNode ∈ nodeIds → ∀ g g',
  fillIncoming fuel rand nodeIds targetNode g = Some g' →
  gen_inv nodeIds g →
  gen_inv nodeIds g' ∧ grows g g' ∧
  minConnectionsPerNode ≤ inDegree (newLinks g') targetNode.
Proof.
  intros Hnode. induction fuel as [|fuel IH]; intros g g'; cbn [fillIncoming];
    destruct (Nat.ltb_spec (getOr0 (incomingCount g) targetNode) minConnectionsPerNode)
      as [Hlt|Hge]; try done;
    try (intros [= <-] Hinv; split; [done|]; split; [apply grows_refl|];
         by rewrite <- (inv_in _ _ Hinv)).
  intros Hrun Hinv.
  pose proof (gen_inv_random nodeIds rand g Hinv) as Hinv1.
  pose proof (grows_random rand g) as Hgrow1.
  destruct (random rand g) as [r g1] eqn:Hr. cbn [snd] in Hinv1, Hgrow1.
  destruct (pick r nodeIds) as [sourceNode|] eqn:Hpick.
  - destruct (gen_inv_tryLink nodeIds sourceNode targetNode g1
      (pick_elem_of _ _ _ Hpick) Hnode Hinv1) as [Hinv2 Hgrow2].
    destruct (IH _ _ Hrun Hinv2) as (Hinv' & Hgrow' & Hdeg).
    split; [done|]. split; [|done].
    eapply grows_trans; [exact Hgrow1|]. by eapply grows_trans.
  - destruct (IH _ _ Hrun Hinv1) as (Hinv' & Hgrow' & Hdeg).
    split; [done|]. split; [|done]. by eapply grows_trans.
Qed.

(** A pass that establishes [reached] for each node in turn, where later
    links cannot undo [reached]. *)
Lemma forEachNode_spec (nodeIds : list string) (body : string → Gen → option Gen)
    (reached : string → Gen → Prop) :
  (∀ node g g', node ∈ nodeIds → body node g = Some g' → gen_inv nodeIds g →
     gen_inv nodeIds g' ∧ grows g g' ∧ reached node g') →
  (∀ node g g', grows g g' → reached node g → reached node g') →
  ∀ todo g g', (∀ node, node ∈ todo → node ∈ nodeIds) →
    forEachNode body todo g = Some g' → gen_inv nodeIds g →
    gen_inv nodeIds g' ∧ grows g g' ∧ ∀ node, node ∈ todo → reached node g'.
Proof.
  intros Hbody Hmono. induction todo as [|node todo IH]; intros g g' Hsub; simpl.
  - intros [= <-] Hinv. split; [done|]. split; [apply grows_refl|].
    intros node Hnode. by apply elem_of_nil in Hnode.
  - destruct (body node g) as [g1|] eqn:Hb; [|done]. intros Hrun Hinv.
    destruct (Hbody _ _ _ (Hsub _ (list_elem_of_here _ _)) Hb Hinv)
      as (Hinv1 & Hgrow1 & Hreached).
    destruct (IH g1 g') as (Hinv' & Hgrow' & Hall); [|done|done|].
    { intros n Hn. by apply Hsub, list_elem_of_further. }
    split; [done|]. split; [by eapply grows_trans|].
    intros n Hn. apply elem_of_cons in Hn as [->|Hn]; [|by apply Hall].
    by eapply Hmono.
Qed.

Lemma topUp_spec rand nodeIds targetNumLinks remaining : ∀ g,
  gen_inv nodeIds g →
  gen_inv nodeIds (topUp remaining rand nodeIds targetNumLinks g) ∧
  grows g (topUp remaining rand nodeIds targetNumLinks g).
Proof.
  induction remaining as [|remaining IH]; intros g Hinv; cbn [topUp];
    destruct (length (newLinks g) <? targetNumLinks);
    try (split; [done|apply grows_refl]).
  pose proof (gen_inv_random nodeIds rand g Hinv) as Hinv1.
  pose proof (grows_random rand g) as Hgrow1.
  destruct (random rand g) as [r1 g1] eqn:Hr1. cbn [snd] in Hinv1, Hgrow1.
  pose proof (gen_inv_random nodeIds rand g1 Hinv1) as Hinv2.
  pose proof (grows_random rand g1) as Hgrow2.
  destruct (random rand g1) as [r2 g2] eqn:Hr2. cbn [snd] in Hinv2, Hgrow2.
  assert (grows g g2) as Hgrow by by eapply grows_trans.
  destruct (pick r1 nodeIds) as [s|] eqn:Hs, (pick r2 nodeIds) as [t|] eqn:Ht;
    try (destruct (IH g2 Hinv2) as [Hinv' Hgrow']; split; [done|];
         by eapply grows_trans).
  destruct (gen_inv_tryLink nodeIds s t g2 (pick_elem_of _ _ _ Hs)
    (pick_elem_of _ _ _ Ht) Hinv2) as [Hinv3 Hgrow3].
  destruct (IH _ Hinv3) as [Hinv' Hgrow']. split; [done|].
  eapply grows_trans; [exact Hgrow|]. by eapply grows_trans.
Qed.

(** The first pass, when it returns. *)
Lemma firstPass_spec fuel rand nodeIds g :
  forEachNode (fillOutgoing fuel rand nodeIds) nodeIds (initialGen nodeIds) = Some g →
  gen_inv nodeIds g ∧
  ∀ node, node ∈ nodeIds → minConnectionsPerNode ≤ outDegree (newLinks g) node.
Proof.
  intros Hpass.
  destruct (forEachNode_spec nodeIds (fillOutgoing fuel rand nodeIds)
    (fun node g => minConnectionsPerNode ≤ outDegree (newLinks g) node))
    with (todo := nodeIds) (g := initialGen nodeIds) (g' := g)
    as (Hinv & _ & Hout); [| |done|done|apply gen_inv_init|done].
  - intros node g0 g0' Hnode. by apply fillOutgoing_spec.
  - intros node g0 g0' Hgrow Hreached. destruct (Hgrow node). lia.
Qed.

(** C5. Every edge list that [randomizeConnections] returns has no
    self-loop, no (source, target) pair twice, and gives every node of the
    input list out-degree and in-degree at least 3. *)
Theorem randomizeConnections_degrees (fuel : nat) (rand : Source)
    (nodeIds : list string) (targetNumLinks : nat) (links : list RawLink) :
  randomizeConnections fuel rand nodeIds targetNumLinks = Some links →
  (∀ l, l ∈ links → source l ≠ target l) ∧
  NoDup ((fun l => (source l, target l)) <$> links) ∧
  ∀ nodeId, nodeId ∈ nodeIds →
    3 ≤ outDegree links nodeId ∧ 3 ≤ inDegree links nodeId.
Proof.
  unfold randomizeConnections.
  destruct (forEachNode (fillOutgoing fuel rand nodeIds) nodeIds (initialGen nodeIds))
    as [g1|] eqn:Hpass1; [|done].
  destruct (forEachNode (fillIncoming fuel rand nodeIds) nodeIds g1)
    as [g2|] eqn:Hpass2; [|done].
  intros [= <-].
  destruct (firstPass_spec fuel rand nodeIds g1 Hpass1) as [Hinv1 Hout].
  destruct (forEachNode_spec nodeIds (fillIncoming fuel rand nodeIds)
    (fun node g => minConnectionsPerNode ≤ inDegree (newLinks g) node))
    with (todo := nodeIds) (g := g1) (g' := g2)
    as (Hinv2 & Hgrow2 & Hin); [| |done|done|done|].
  { intros node g g' Hnode. by apply fillIncoming_spec. }
  { intros node g g' Hgrow Hreached. destruct (Hgrow node). lia. }
  destruct (topUp_spec rand nodeIds targetNumLinks (targetNumLinks * 10) g2 Hinv2)
    as [Hinv3 Hgrow3].
  split; [exact (inv_no_self _ _ Hinv3)|]. split.
  - apply NoDup_fmap_2_strong; [|exact (inv_no_dup _ _ Hinv3)].
    intros [s1 t1] [s2 t2] _ _ [= -> ->]. done.
  - intros nodeId Hnode. specialize (Hout nodeId Hnode). specialize (Hin nodeId Hnode).
    destruct (Hgrow2 nodeId), (Hgrow3 nodeId).
    unfold minConnectionsPerNode in *. lia.
Qed.

(** Five nodes, the source [quarters], and a target of 18 links. *)
Lemma randomizeConnections_degrees_witness :
  ∃ links,
    randomizeConnections 20 quarters
      ["form"; "function"; "material"; "emotion"; "process"] 18 = Some links ∧
    length links = 18 ∧
    ∀ nodeId, nodeId ∈ ["form"; "function"; "material"; "emotion"; "process"] →
      3 ≤ outDegree links nodeId ∧ 3 ≤ inDegree links nodeId.
Proof.
  eexists. split; [vm_compute; reflexivity|]. split; [reflexivity|].
  eapply (randomizeConnections_degrees 20 quarters
    ["form"; "function"; "material"; "emotion"; "process"] 18).
  vm_compute. reflexivity.
Defined.

(** *** Passes one and two may never finish *)

(** A source that only ever proposes [sourceNode] itself adds no link. *)
Lemma fillOutgoing_stuck rand nodeIds sourceNode :
  (∀ n, pick (rand n) nodeIds = Some sourceNode) →
  ∀ fuel g,
    getOr0 (outgoingCount g) sourceNode < minConnectionsPerNode →
    fillOutgoing fuel rand nodeIds sourceNode g = None.
Proof.
  intros Hpick. induction fuel as [|fuel IH]; intros g Hg; simpl.
  - apply Nat.ltb_lt in Hg. by rewrite Hg.
  - pose proof Hg as Hg'. apply Nat.ltb_lt in Hg'. rewrite Hg'.
    rewrite Hpick. unfold tryLink. rewrite String.eqb_refl. simpl.
    by apply IH.
Qed.

Lemma forEachNode_stuck body first rest g :
  body first g = None → forEachNode body (first :: rest) g = None.
Proof. intros H. simpl. by rewrite H. Qed.

(** A node has at most one link to each node id other than itself. *)
Lemma outDegree_bound nodeIds g nodeId :
  gen_inv nodeIds g → nodeId ∈ nodeIds →
  outDegree (newLinks g) nodeId < length nodeIds.
Proof.
  intros [Hwithin Hself Hdup _ _ _] Hnode. unfold outDegree.
  set (leaving := List.filter (fun l => String.eqb (source l) nodeId) (newLinks g)).
  set (others := List.filter (fun n => negb (String.eqb n nodeId)) nodeIds).
  assert (∀ l, l ∈ leaving → l ∈ newLinks g ∧ source l = nodeId) as Hleaving.
  { intros l Hl. apply list_elem_of_In, filter_In in Hl as [Hl Heq].
    split; [by apply list_elem_of_In|by apply String.eqb_eq]. }
  assert (length leaving = length (target <$> leaving)) as -> by by rewrite length_fmap.
  assert (length (target <$> leaving) ≤ length others) as Hle.
  { apply NoDup_incl_length.
    - apply NoDup_ListNoDup, NoDup_fmap_2_strong.
      + intros [s1 t1] [s2 t2] H1 H2. simpl. intros ->.
        destruct (Hleaving _ H1) as [_ Hs1], (Hleaving _ H2) as [_ Hs2].
        simpl in *. by subst.
      + apply NoDup_ListNoDup, List.NoDup_filter, NoDup_ListNoDup, Hdup.
    - intros t Ht. apply list_elem_of_In, list_elem_of_fmap in Ht as (l & -> & Hl).
      destruct (Hleaving _ Hl) as [Hin Hsrc].
      apply filter_In. split; [by apply list_elem_of_In, Hwithin|].
      apply negb_true_iff, String.eqb_neq. rewrite <- Hsrc.
      intros Heq. by apply (Hself _ Hin). }
  assert (length others < length nodeIds) as Hlt.
  { unfold others. clear -Hnode.
    induction nodeIds as [|n nodeIds IH]; [by apply elem_of_nil in Hnode|].
    simpl. destruct (String.eqb_spec n nodeId) as [->|Hne]; simpl.
    - pose proof (filter_length_le (fun n => negb (String.eqb n nodeId)) nodeIds). lia.
    - apply elem_of_cons in Hnode as [?|Hnode]; [done|]. specialize (IH Hnode). lia. }
  lia.
Qed.

(** C4 (what the code does). Only the third pass counts its attempts.  On
    one, two or three nodes the first pass never finishes, whatever the
    random source returns and however much fuel it is given: no node can
    get three links to other nodes.  On four nodes it never finishes when
    the source keeps returning [0]. *)
Theorem randomizeConnections_diverges :
  (∀ fuel rand nodeIds targetNumLinks,
     nodeIds ≠ [] → length nodeIds ≤ 3 →
     randomizeConnections fuel rand nodeIds targetNumLinks = None) ∧
  (∀ fuel targetNumLinks,
     randomizeConnections fuel zeros ["form"; "function"; "material"; "emotion"]
       targetNumLinks = None).
Proof.
  split.
  - intros fuel rand nodeIds targetNumLinks Hne Hsmall. unfold randomizeConnections.
    destruct (forEachNode (fillOutgoing fuel rand nodeIds) nodeIds (initialGen nodeIds))
      as [g|] eqn:Hpass; [|done].
    exfalso. destruct (firstPass_spec fuel rand nodeIds g Hpass) as [Hinv Hout].
    destruct nodeIds as [|first rest]; [done|].
    pose proof (Hout first (list_elem_of_here _ _)) as Hdeg.
    pose proof (outDegree_bound _ g first Hinv (list_elem_of_here _ _)) as Hbound.
    unfold minConnectionsPerNode in Hdeg. lia.
  - intros fuel targetNumLinks. unfold randomizeConnections.
    rewrite forEachNode_stuck; [done|].
    apply fillOutgoing_stuck; [done|]. vm_compute. lia.
Qed.

End RandomizeFacts.

(** ** The force-directed layout *)

Module LayoutFacts.

Import Randomize Layout.

Section EngineFacts.

Context {number : Type} {arith : Arith number}.

(** Inside this section the engine runs on [number]. *)
Local Abbreviation Positions := (@Layout.Positions number).
Local Abbreviation keys := (@Layout.keys number).
Local Abbreviation get := (@Layout.get number).
Local Abbreviation set := (@Layout.set number).
Local Abbreviation mutate := (@Layout.mutate number).
Local Abbreviation forEach := (@Layout.forEach number).
Local Abbreviation normalize := (@Layout.normalize number arith).
Local Abbreviation initialise := (@Layout.initialise number arith).
Local Abbreviation place := (@Layout.place number arith).
Local Abbreviation repel := (@Layout.repel number arith).
Local Abbreviation repulsion := (@Layout.repulsion number arith).
Local Abbreviation attract := (@Layout.attract number arith).
Local Abbreviation integrate := (@Layout.integrate number arith).
Local Abbreviation integration := (@Layout.integration number arith).
Local Abbreviation step := (@Layout.step number arith).
Local Abbreviation simulate := (@Layout.simulate number arith).
Local Abbreviation forceDirectedLayout := (@Layout.forceDirectedLayout number arith).

(** *** The keys of the map *)

Lemma keys_mutate positions key f : keys (mutate positions key f) = keys positions.
Proof.
  induction positions as [|[k pos] positions IH]; [done|]. simpl.
  destruct (String.eqb k key); [done|]. simpl. f_equal. exact IH.
Qed.

Lemma get_is_Some positions key : is_Some (get positions key) ↔ key ∈ keys positions.
Proof.
  induction positions as [|[k pos] positions IH]; simpl.
  - split; [by intros [? ?]|]. intros Hk. by apply elem_of_nil in Hk.
  - rewrite elem_of_cons. destruct (String.eqb_spec k key) as [->|Hne].
    + split; [by left|by eexists].
    + rewrite IH. split; [by right|]. by intros [->|].
Qed.

Lemma get_None positions key : get positions key = None ↔ key ∉ keys positions.
Proof.
  rewrite <- get_is_Some, <- eq_None_not_Some. done.
Qed.

Lemma elem_of_keys_set positions key pos k :
  k ∈ keys (set positions key pos) ↔ k = key ∨ k ∈ keys positions.
Proof.
  induction positions as [|[k' old] positions IH]; simpl.
  - rewrite list_elem_of_singleton. split; [by left|]. intros [?|Hk]; [done|].
    by apply elem_of_nil in Hk.
  - destruct (String.eqb_spec k' key) as [->|Hne]; simpl; rewrite !elem_of_cons.
    + tauto.
    + rewrite IH. tauto.
Qed.

Lemma NoDup_keys_set positions key pos :
  NoDup (keys positions) → NoDup (keys (set positions key pos)).
Proof.
  induction positions as [|[k old] positions IH]; simpl; intros Hnd.
  - apply NoDup_singleton.
  - apply NoDup_cons in Hnd as [Hk Hnd].
    destruct (String.eqb_spec k key) as [->|Hne]; simpl; apply NoDup_cons.
    + done.
    + split; [|by apply IH]. rewrite elem_of_keys_set. by intros [?|?].
Qed.

Lemma keys_normalize positions : keys (normalize positions) = keys positions.
Proof.
  unfold normalize. destruct positions as [|[k first] rest]; [done|].
  destruct (boundingBox first rest) as [[[minX maxX] minY] maxY].
  unfold keys. rewrite <- list_fmap_compose. apply list_fmap_ext.
  by intros i [key pos].
Qed.

(** After initialisation the map has one entry per node id. *)
Lemma initialise_keys randomize rand count nodes : ∀ i st,
  NoDup (keys st.1) →
  NoDup (keys (initialise randomize rand count nodes i st).1) ∧
  ∀ k, k ∈ keys (initialise randomize rand count nodes i st).1 ↔
       k ∈ id <$> nodes ∨ k ∈ keys st.1.
Proof.
  induction nodes as [|node nodes IH]; intros i [positions drawn] Hnd;
    cbn [initialise fst fmap list_fmap] in *.
  - split; [done|]. intros k. rewrite elem_of_nil. tauto.
  - assert (∃ pos drawn',
      place randomize rand count node i (positions, drawn) =
      (set positions (id node) pos, drawn')) as (pos & drawn' & ->).
    { unfold place. destruct randomize; simpl; by eexists _, _. }
    destruct (IH (S i) (set positions (id node) pos, drawn')) as [Hnd' Hin].
    { simpl. by apply NoDup_keys_set. }
    split; [done|]. intros k. rewrite Hin. cbn [fst].
    rewrite elem_of_keys_set, elem_of_cons. tauto.
Qed.

(** *** No step throws, and none adds or removes an entry *)

Lemma forEach_keys {A} (body : A → Positions → option Positions)
    (items : list A) (K : list string) :
  (∀ item positions, item ∈ items → keys positions = K →
     ∃ positions', body item positions = Some positions' ∧ keys positions' = K) →
  ∀ positions, keys positions = K →
    ∃ positions', forEach body items positions = Some positions' ∧ keys positions' = K.
Proof.
  induction items as [|item items IH]; intros Hbody positions HK; simpl.
  - by exists positions.
  - destruct (Hbody item positions) as (p1 & -> & HK1); [apply list_elem_of_here|done|].
    simpl. apply IH; [|done]. intros it p Hit. apply Hbody. by apply list_elem_of_further.
Qed.

Lemma repel_keys nodeA nodeB positions :
  id nodeA ∈ keys positions → id nodeB ∈ keys positions →
  ∃ positions', repel nodeA nodeB positions = Some positions' ∧
                keys positions' = keys positions.
Proof.
  intros HA HB. unfold repel. destruct (String.eqb (id nodeA) (id nodeB)); [by eexists|].
  apply get_is_Some in HA as [posA ->], HB as [posB ->]. simpl.
  eexists. split; [done|]. apply keys_mutate.
Qed.

Lemma attract_keys link positions :
  ∃ positions', attract link positions = Some positions' ∧
                keys positions' = keys positions.
Proof.
  unfold attract.
  destruct (get positions (source link)), (get positions (target link));
    eexists; (split; [done|]); by rewrite ?keys_mutate.
Qed.

(** A link with an end that is no key leaves the map as it is. *)
Lemma attract_dangling link positions :
  source link ∉ keys positions ∨ target link ∉ keys positions →
  attract link positions = Some positions.
Proof.
  unfold attract. intros [Hs|Ht].
  - apply get_None in Hs. by rewrite Hs.
  - apply get_None in Ht. rewrite Ht. by destruct (get positions (source link)).
Qed.

Lemma integration_keys randomize rand iter iterations nodes : ∀ st,
  (∀ node, node ∈ nodes → id node ∈ keys st.1) →
  ∃ st', integration randomize rand iter iterations nodes st = Some st' ∧
         keys st'.1 = keys st.1.
Proof.
  induction nodes as [|node nodes IH]; intros [positions drawn] Hin;
    cbn [integration fst] in *.
  - by eexists.
  - assert (∃ st1, integrate randomize rand iter iterations node (positions, drawn)
                   = Some st1 ∧ keys st1.1 = keys positions) as (st1 & -> & HK1).
    { unfold integrate.
      destruct (proj2 (get_is_Some positions (id node))) as [pos ->];
        [apply (Hin node), list_elem_of_here|]. simpl.
      destruct (randomize && (iter * 3 <? iterations)%nat); simpl;
        eexists; (split; [done|]); simpl; apply keys_mutate. }
    simpl. destruct (IH st1) as (st' & -> & HK').
    { intros n Hn. rewrite HK1. apply (Hin n). by apply list_elem_of_further. }
    exists st'. split; [done|]. by rewrite HK', HK1.
Qed.

Lemma step_keys randomize rand nodes links iter iterations st :
  (∀ node, node ∈ nodes → id node ∈ keys st.1) →
  ∃ st', step randomize rand nodes links iter iterations st = Some st' ∧
         keys st'.1 = keys st.1.
Proof.
  destruct st as [positions drawn]. simpl. intros Hin. unfold repulsion.
  destruct (forEach_keys (fun nodeA => forEach (fun nodeB => repel nodeA nodeB) nodes)
    nodes (keys positions)) with (positions := positions) as (p1 & -> & HK1); [|done|].
  { intros nodeA p HA HK.
    apply forEach_keys; [|done]. intros nodeB p' HB HK'.
    rewrite <- HK'. apply repel_keys; rewrite HK'; by apply Hin. }
  simpl.
  destruct (forEach_keys attract links (keys positions)) with (positions := p1)
    as (p2 & -> & HK2); [|done|].
  { intros link p _ HK. rewrite <- HK. apply attract_keys. }
  simpl.
  destruct (integration_keys randomize rand iter iterations nodes (p2, drawn))
    as (st' & -> & HK').
  { intros node Hn. simpl. rewrite HK2. by apply Hin. }
  exists st'. split; [done|]. by rewrite HK'.
Qed.

Lemma simulate_keys randomize rand nodes links iterations todo : ∀ iter st,
  (∀ node, node ∈ nodes → id node ∈ keys st.1) →
  ∃ st', simulate randomize rand nodes links todo iter iterations st = Some st' ∧
         keys st'.1 = keys st.1.
Proof.
  induction todo as [|todo IH]; intros iter st Hin; cbn [simulate].
  - by exists st.
  - destruct (step_keys randomize rand nodes links iter iterations st Hin)
      as (st1 & -> & HK1). simpl.
    destruct (IH (S iter) st1) as (st' & -> & HK').
    { intros node Hn. rewrite HK1. by apply Hin. }
    exists st'. split; [done|]. by rewrite HK', HK1.
Qed.

(** The layout returns, with one entry per node id. *)
Lemma forceDirectedLayout_returns rand nodes links randomize :
  ∃ positions drawn,
    forceDirectedLayout rand nodes links randomize = Some (positions, drawn) ∧
    NoDup (keys positions) ∧
    ∀ nodeId, nodeId ∈ keys positions ↔ nodeId ∈ id <$> nodes.
Proof.
  unfold forceDirectedLayout.
  destruct (initialise_keys randomize rand (length nodes) nodes 0 ([], 0))
    as [Hnd Hin]; [constructor|].
  set (st := initialise randomize rand (length nodes) nodes 0 ([], 0)) in *.
  destruct (simulate_keys randomize rand nodes links
    (if randomize then 200 else 100) (if randomize then 200 else 100) 0 st)
    as ([positions drawn] & -> & HK).
  { intros node Hn. apply Hin. left. by apply list_elem_of_fmap_2. }
  simpl in *. exists (normalize positions), drawn. split; [done|].
  rewrite keys_normalize, HK. split; [done|].
  intros nodeId. rewrite Hin. simpl. rewrite elem_of_nil. tauto.
Qed.

(** *** Links with a dangling end do not matter *)

Lemma attraction_connected nodes links : ∀ positions,
  (∀ k, k ∈ keys positions ↔ k ∈ id <$> nodes) →
  forEach attract links positions =
  forEach attract (List.filter (connected nodes) links) positions.
Proof.
  induction links as [|link links IH]; intros positions HK; [done|].
  cbn [forEach List.filter]. destruct (connected nodes link) eqn:Hc.
  - cbn [forEach]. destruct (attract_keys link positions) as (p1 & -> & HK1).
    simpl. apply IH. intros k. by rewrite HK1.
  - rewrite attract_dangling.
    + simpl. by apply IH.
    + unfold connected in Hc. apply andb_false_iff in Hc as [Hc|Hc];
        apply bool_decide_eq_false in Hc; [left|right]; by rewrite HK.
Qed.

Lemma simulate_connected randomize rand nodes links iterations todo : ∀ iter st,
  (∀ k, k ∈ keys st.1 ↔ k ∈ id <$> nodes) →
  simulate randomize rand nodes links todo iter iterations st =
  simulate randomize rand nodes (List.filter (connected nodes) links) todo iter
    iterations st.
Proof.
  induction todo as [|todo IH]; intros iter st HK; cbn [simulate]; [done|].
  assert (∀ node, node ∈ nodes → id node ∈ keys st.1) as Hin.
  { intros node Hn. apply HK. by apply list_elem_of_fmap_2. }
  assert (step randomize rand nodes links iter iterations st =
          step randomize rand nodes (List.filter (connected nodes) links) iter
            iterations st) as Hstep.
  { destruct st as [positions drawn]. unfold step, repulsion.
    destruct (forEach_keys (fun nodeA => forEach (fun nodeB => repel nodeA nodeB) nodes)
      nodes (keys positions)) with (positions := positions) as (p1 & -> & HK1);
      [|done|].
    { intros nodeA p HA HKp. apply forEach_keys; [|done]. intros nodeB p' HB HK'.
      rewrite <- HK'. apply repel_keys; rewrite HK'; by apply Hin. }
    simpl. rewrite (attraction_connected nodes links p1); [done|].
    intros k. rewrite HK1. apply HK. }
  rewrite <- Hstep.
  destruct (step_keys randomize rand nodes links iter iterations st Hin)
    as (st1 & -> & HK1).
  simpl. apply IH. intros k. rewrite HK1. apply HK.
Qed.

(** *** Without [randomize] the random source is never read *)

Lemma initialise_fixed rand1 rand2 count nodes : ∀ i st,
  initialise false rand1 count nodes i st = initialise false rand2 count nodes i st ∧
  (initialise false rand1 count nodes i st).2 = st.2.
Proof.
  induction nodes as [|node nodes IH]; intros i [positions drawn]; [done|].
  cbn [initialise]. unfold place.
  match goal with |- initialise _ _ _ _ _ ?st = _ ∧ _ =>
    destruct (IH (S i) st) as [Heq Hdrawn] end.
  split; [exact Heq|exact Hdrawn].
Qed.

Lemma integration_fixed rand1 rand2 iter iterations nodes : ∀ st,
  integration false rand1 iter iterations nodes st =
  integration false rand2 iter iterations nodes st ∧
  ∀ st', integration false rand1 iter iterations nodes st = Some st' → st'.2 = st.2.
Proof.
  induction nodes as [|node nodes IH]; intros [positions drawn]; cbn [integration].
  - split; [done|]. by intros st' [= <-].
  - unfold integrate. cbn [andb]. destruct (get positions (id node)) as [pos|]; [|done].
    simpl. apply IH.
Qed.

Lemma simulate_fixed rand1 rand2 nodes links iterations todo : ∀ iter st,
  simulate false rand1 nodes links todo iter iterations st =
  simulate false rand2 nodes links todo iter iterations st ∧
  ∀ st', simulate false rand1 nodes links todo iter iterations st = Some st' →
         st'.2 = st.2.
Proof.
  induction todo as [|todo IH]; intros iter [positions drawn]; cbn [simulate].
  - split; [done|]. by intros st' [= <-].
  - unfold step. destruct (repulsion nodes positions) as [p1|]; [|done]. simpl.
    destruct (forEach attract links p1) as [p2|]; [|done]. simpl.
    destruct (integration_fixed rand1 rand2 iter iterations nodes (p2, drawn))
      as [Heq Hdrawn].
    rewrite <- Heq.
    destruct (integration false rand1 iter iterations nodes (p2, drawn))
      as [st1|] eqn:Hint; [|done].
    simpl. destruct (IH (S iter) st1) as [Heq' Hdrawn'].
    split; [done|]. intros st' Hst'. rewrite (Hdrawn' _ Hst').
    by apply (Hdrawn st1).
Qed.


(** The positions before the post-pass: one entry per node id. *)
Lemma simulated_keys rand nodes links randomize :
  ∃ raw drawn,
    simulate randomize rand nodes links (if randomize then 200 else 100) 0
      (if randomize then 200 else 100)
      (initialise randomize rand (length nodes) nodes 0 ([], 0)) = Some (raw, drawn) ∧
    forceDirectedLayout rand nodes links randomize = Some (normalize raw, drawn) ∧
    ∀ k, k ∈ keys raw ↔ k ∈ id <$> nodes.
Proof.
  destruct (initialise_keys randomize rand (length nodes) nodes 0 ([], 0))
    as [Hnd Hin]; [constructor|].
  unfold forceDirectedLayout.
  set (st := initialise randomize rand (length nodes) nodes 0 ([], 0)) in *.
  destruct (simulate_keys randomize rand nodes links
    (if randomize then 200 else 100) (if randomize then 200 else 100) 0 st)
    as ([raw drawn] & -> & HK).
  { intros node Hn. apply Hin. left. by apply list_elem_of_fmap_2. }
  exists raw, drawn. split; [done|]. split; [done|].
  intros k. simpl in HK. rewrite HK, Hin. simpl. rewrite elem_of_nil. tauto.
Qed.

End EngineFacts.

(** C10. For every node list and every link list, dangling links included,
    the layout returns a map with exactly one entry per node id and no other
    entry; and the links with a dangling end are skipped: the result is that
    of the layout run without them.  This holds for every arithmetic, and
    with or without [randomize]. *)
Theorem forceDirectedLayout_entries {number : Type} `{Arith number}
    (rand : Source) (nodes : list RawNode) (links : list RawLink) (randomize : bool) :
  ∃ positions drawn,
    forceDirectedLayout rand nodes links randomize = Some (positions, drawn) ∧
    NoDup (keys positions) ∧
    (∀ nodeId, nodeId ∈ keys positions ↔ nodeId ∈ id <$> nodes) ∧
    forceDirectedLayout rand nodes (List.filter (connected nodes) links) randomize =
      Some (positions, drawn).
Proof.
  destruct (forceDirectedLayout_returns rand nodes links randomize)
    as (positions & drawn & Hrun & Hnd & Hin).
  exists positions, drawn. split; [done|]. split; [done|]. split; [done|].
  rewrite <- Hrun. unfold forceDirectedLayout.
  rewrite <- simulate_connected; [done|].
  intros k.
  destruct (initialise_keys randomize rand (length nodes) nodes 0 ([], 0))
    as [_ Hk]; [constructor|].
  rewrite Hk. simpl. rewrite elem_of_nil. tauto.
Qed.

(** C6. Without [randomize], two calls on the same nodes and links return
    the same position map, whatever the random source would have returned:
    no value is drawn from it.  This holds for every arithmetic, so it is
    equality of the numbers themselves. *)
Theorem forceDirectedLayout_deterministic {number : Type} `{Arith number}
    (rand1 rand2 : Source) (nodes : list RawNode) (links : list RawLink) :
  forceDirectedLayout rand1 nodes links false =
    forceDirectedLayout rand2 nodes links false ∧
  snd <$> forceDirectedLayout rand1 nodes links false = Some 0.
Proof.
  destruct (forceDirectedLayout_returns rand1 nodes links false)
    as (positions & drawn & Hrun & _).
  unfold forceDirectedLayout in *.
  destruct (initialise_fixed rand1 rand2 (length nodes) nodes 0 ([], 0))
    as [Hinit Hdrawn0].
  rewrite <- Hinit.
  destruct (simulate_fixed rand1 rand2 nodes links 100 100 0
    (initialise false rand1 (length nodes) nodes 0 ([], 0))) as [Hsim Hdrawn].
  rewrite <- Hsim. split; [done|].
  destruct (simulate false rand1 nodes links 100 0 100
    (initialise false rand1 (length nodes) nodes 0 ([], 0))) as [[p d]|] eqn:Hs;
    [|done].
  simpl. f_equal. specialize (Hdrawn _ eq_refl). simpl in Hdrawn.
  by rewrite Hdrawn, Hdrawn0.
Qed.

(** *** Exact arithmetic *)

Local Open Scope R_scope.








Lemma shove_even_dx dx dy u : shove (- dx) dy u = shove dx dy u.
Proof. unfold shove. by replace (- dx * - dx) with (dx * dx) by ring. Qed.












End LayoutFacts.

(** ** The two flat traversals agree *)

Module ThinFacts.

Import Flat FlatFacts Thin.

Lemma thin_refl visited q : thin visited q q.
Proof. induction q; by constructor. Qed.

Lemma thin_mono visited visited' q1 q2 :
  visited ⊆ visited' → thin visited q1 q2 → thin visited' q1 q2.
Proof.
  intros Hsub. induction 1; constructor; try done. set_solver.
Qed.

Lemma thin_app visited q1 q2 r1 r2 :
  thin visited q1 q2 → thin visited r1 r2 → thin visited (q1 ++ r1) (q2 ++ r2).
Proof.
  induction 1; intros Hr; simpl; [done|constructor; auto|constructor; auto].
Qed.

Lemma thin_filter visited q :
  thin visited (List.filter (fun n => negb (bool_decide (n ∈ visited))) q) q.
Proof.
  induction q as [|n q IH]; simpl; [constructor|].
  case_bool_decide; simpl; by constructor.
Qed.

(** The two loops list the same path when the queue of [bfsPath] is the
    queue of [findNodePaths] thinned. *)
Lemma loops_agree links fuel2 : ∀ fuel1 visited q1 q2 path p1 p2,
  thin visited q1 q2 →
  bfsPath_loop fuel1 links visited q1 path = Some p1 →
  findNodePaths_loop fuel2 links visited q2 path = Some p2 →
  p1 = p2.
Proof.
  induction fuel2 as [|fuel2 IH]; intros fuel1 visited q1 q2 path p1 p2 Hthin H1 H2.
  - destruct q2; [|done]. inversion Hthin; subst.
    destruct fuel1; simpl in *; congruence.
  - destruct Hthin as [|n q1 q2 Hthin|n q1 q2 Hn Hthin].
    + destruct fuel1; simpl in *; congruence.
    + destruct fuel1 as [|fuel1]; [done|]. simpl in H1, H2.
      case_bool_decide as Hin.
      * by eapply IH.
      * eapply IH; [|exact H1|exact H2].
        apply thin_app; [|apply thin_filter].
        eapply thin_mono; [|exact Hthin]. set_solver.
    + simpl in H2. rewrite bool_decide_eq_true_2 in H2 by done.
      by eapply IH.
Qed.

(** X1. [bfsPath] and [findNodePaths] return the same path. *)
Theorem bfsPath_findNodePaths (startId : string) (links : list RawLink) :
  ∃ path, bfsPath startId links = Some path ∧ findNodePaths startId links = Some path.
Proof.
  destruct (bfsPath_loop_spec links startId (S (length links)) ∅ [startId] [])
    as (p1 & H1 & _); [apply inv_init| |].
  { simpl. pose proof (pending_length_le links ∅). lia. }
  destruct (findNodePaths_loop_spec links startId (S (length links)) ∅ [startId] [])
    as (p2 & H2 & _); [apply inv_init| |].
  { simpl. pose proof (pending_length_le links ∅). lia. }
  exists p1. split; [done|].
  unfold findNodePaths. rewrite H2. f_equal. symmetry.
  eapply loops_agree; [apply thin_refl|exact H1|exact H2].
Qed.

End ThinFacts.

(** ** Normal mode layers the nodes by distance *)

Module DistanceFacts.

Import Layers LayersFacts Distance.

Lemma distance_unique links a b j k :
  distance links a b j → distance links a b k → j = k.
Proof.
  intros [Hj Hminj] [Hk Hmink].
  destruct (Nat.lt_trichotomy j k) as [Hlt|[->|Hlt]]; [|done|].
  - by destruct (Hmink j Hlt).
  - by destruct (Hminj k Hlt).
Qed.

Lemma ring_inv_init links startId : ring_inv links startId ∅ [startId] 0 [].
Proof.
  split.
  - intros n. split; [set_solver|]. intros (j & Hj & _). lia.
  - intros n Hn. apply list_elem_of_singleton in Hn as ->. constructor.
  - intros n Hn. inversion Hn; subst. left. apply list_elem_of_here.
  - done.
  - intros k la Hk. done.
Qed.

Lemma ring_inv_round links startId visited currentLevel level layers :
  ring_inv links startId visited currentLevel level layers →
  let validNodes := unvisited visited currentLevel in
  validNodes ≠ [] →
  ring_inv links startId (mark validNodes visited) (expand links validNodes)
    (S level) (layers ++ [mkLayer level validNodes]).
Proof.
  intros [Hv Hsound Hcomplete Hlen Hlayers] validNodes Hne.
  assert (∀ n, n ∈ validNodes ↔ distance links startId n level) as Hvalid.
  { intros n. unfold validNodes. rewrite elem_of_unvisited. split.
    - intros [Hn Hnv]. split; [by apply Hsound|].
      intros j Hj Hsteps. apply Hnv, Hv. eauto.
    - intros [Hsteps Hmin]. destruct (Hcomplete n Hsteps) as [Hn|Hn].
      + split; [done|]. intros Hin. apply Hv in Hin as (j & Hj & Hjs).
        by apply (Hmin j).
      + apply Hv in Hn as (j & Hj & Hjs). by destruct (Hmin j). }
  assert (∀ n, n ∈ mark validNodes visited ↔
               ∃ j, j < S level ∧ nsteps (edge links) j startId n) as Hv'.
  { intros n. rewrite elem_of_mark, Hvalid. split.
    - intros [[Hsteps _]|Hin].
      + exists level. split; [lia|done].
      + apply Hv in Hin as (j & Hj & Hsteps). exists j. split; [lia|done].
    - intros (j & Hj & Hsteps).
      destruct (decide (n ∈ visited)) as [?|Hno]; [by right|].
      left. assert (j = level) as ->.
      { destruct (decide (j = level)); [done|]. destruct Hno. apply Hv.
        exists j. split; [lia|done]. }
      split; [done|]. intros i Hi His. apply Hno, Hv. eauto. }
  split.
  - exact Hv'.
  - intros n Hn. apply elem_of_expand in Hn as (u & Hu & He).
    apply Hvalid in Hu as [Hu _]. by eapply nsteps_r.
  - intros n Hn. apply nsteps_inv_r in Hn as (u & Hu & He).
    destruct (decide (u ∈ visited)) as [Huv|Huv].
    + right. apply Hv'. apply Hv in Huv as (j & Hj & Hjs).
      exists (S j). split; [lia|]. by eapply nsteps_r.
    + left. apply elem_of_expand. exists u. split; [|done].
      apply elem_of_unvisited. split; [|done].
      by destruct (Hcomplete u Hu).
  - rewrite length_app. simpl. lia.
  - intros k la Hk. apply lookup_app_Some in Hk as [Hk|[Hge Hk]].
    + by apply Hlayers.
    + rewrite Hlen in Hge, Hk.
      apply list_lookup_singleton_Some in Hk as [Hk <-].
      assert (k = level) as -> by lia.
      split; [done|]. split; [done|]. exact Hvalid.
Qed.

Lemma standard_rings links startId fuel : ∀ visited currentLevel level layers res,
  ring_inv links startId visited currentLevel level layers →
  standard fuel links visited currentLevel level layers = Some res →
  ∀ k la, res !! k = Some la → ring links startId k la.
Proof.
  induction fuel as [|fuel IH]; intros visited currentLevel level layers res Hinv;
    rewrite standard_round;
    destruct (unvisited visited currentLevel) as [|x validNodes] eqn:Hvalid;
    try done; try (intros [= <-]; by apply Hinv).
  cbn zeta. apply IH. rewrite <- Hvalid.
  apply ring_inv_round; [done|]. by rewrite Hvalid.
Qed.

(** Normal mode returns the layers of the distance classes. *)
Lemma standard_distance_classes (startId : string) (links : list RawLink)
    (explorationData : gmap string NodeExploration) :
  ∃ layers,
    getAdaptiveHierarchicalLayers startId links explorationData false = Some layers ∧
    (∀ k la, layers !! k = Some la → ring links startId k la) ∧
    (∀ n k, distance links startId n k →
       ∃ la, layers !! k = Some la ∧ n ∈ nodes la).
Proof.
  destruct (standard_layers_cover startId links explorationData)
    as (layers & Hlayers & _ & Hcover).
  exists layers. split; [done|].
  assert (∀ k la, layers !! k = Some la → ring links startId k la) as Hrings.
  { unfold getAdaptiveHierarchicalLayers in Hlayers.
    destruct (collect _ _ _ _ _); [|done]. cbn [andb] in Hlayers.
    eapply standard_rings; [apply ring_inv_init|exact Hlayers]. }
  split; [exact Hrings|].
  intros n k Hdist.
  assert (reachable links startId n) as Hreach.
  { apply rtc_nsteps. exists k. apply Hdist. }
  apply Hcover in Hreach as (la & Hla & Hn).
  apply list_elem_of_lookup in Hla as [i Hi].
  destruct (Hrings i la Hi) as (_ & _ & Hring).
  pose proof (proj1 (Hring n) Hn) as Hi'.
  rewrite (distance_unique _ _ _ _ _ Hdist Hi'). by exists la.
Qed.

(** A node at distance [k + 1] has a predecessor at distance [k]. *)
Lemma distance_pred links startId n k :
  distance links startId n (S k) →
  ∃ u, distance links startId u k ∧ edge links u n.
Proof.
  intros [Hsteps Hmin]. apply nsteps_inv_r in Hsteps as (u & Hu & He).
  exists u. split; [|done]. split; [done|].
  intros j Hj Hju. apply (Hmin (S j)); [lia|]. by eapply nsteps_r.
Qed.

(** X2. In normal mode the layer at index [k] has level [k], is not empty,
    and lists exactly the ids at distance [k] from the start; an id at
    distance [k] is in the layer at index [k], and beyond layer 0 it has a
    link from an id of the layer before. *)
Theorem standard_layers_distance (startId : string) (links : list RawLink)
    (explorationData : gmap string NodeExploration) :
  ∃ layers,
    getAdaptiveHierarchicalLayers startId links explorationData false = Some layers ∧
    (∀ k la, layers !! k = Some la →
       level la = k ∧ nodes la ≠ [] ∧
       ∀ n, n ∈ nodes la ↔ distance links startId n k) ∧
    (∀ n k, distance links startId n k →
       ∃ la, layers !! k = Some la ∧ n ∈ nodes la) ∧
    (∀ n k, distance links startId n (S k) →
       ∃ la u, layers !! k = Some la ∧ u ∈ nodes la ∧ edge links u n).
Proof.
  destruct (standard_distance_classes startId links explorationData)
    as (layers & Hlayers & Hrings & Hplace).
  exists layers. split; [done|]. split; [exact Hrings|]. split; [exact Hplace|].
  intros n k Hn. apply distance_pred in Hn as (u & Hu & He).
  destruct (Hplace u k Hu) as (la & Hla & Hin). by exists la, u.
Qed.

End DistanceFacts.

(** ** The flat traversals list the closest ids first *)

Module OrderFacts.

Import Flat FlatFacts Thin ThinFacts Distance DistanceFacts Order.

Lemma order_inv_init links startId : order_inv links startId 0 ∅ [startId] [] [].
Proof.
  split.
  - done.
  - constructor.
  - intros n Hn. by apply elem_of_nil in Hn.
  - intros n Hn. apply list_elem_of_singleton in Hn as ->. constructor.
  - intros n Hn. by apply elem_of_nil in Hn.
  - intros n j Hj. lia.
  - intros n Hn. inversion Hn; subst. right. apply list_elem_of_here.
  - intros u n Hu. by apply elem_of_nil in Hu.
Qed.

(** When no candidate for distance [k] is left, the candidates for
    distance [k + 1] are next. *)
Lemma order_inv_next links startId k visited far path :
  order_inv links startId k visited [] far path →
  order_inv links startId (S k) visited far [] path.
Proof.
  intros [Hv Hsorted Hpath Hnear Hfar Hbelow Hlevel Hclosed].
  assert (∀ n, nsteps (edge links) k startId n → n ∈ path) as Hlevel'.
  { intros n Hn. destruct (Hlevel n Hn) as [?|Hin]; [done|by apply elem_of_nil in Hin]. }
  split.
  - done.
  - done.
  - intros n Hn. destruct (Hpath n Hn) as (j & Hj & Hd). exists j. split; [lia|done].
  - done.
  - intros n Hn. by apply elem_of_nil in Hn.
  - intros n j Hj Hn. destruct (decide (j = k)) as [->|Hne]; [by apply Hlevel'|].
    apply (Hbelow n j); [lia|done].
  - intros n Hn. apply nsteps_inv_r in Hn as (u & Hu & He).
    destruct (Hclosed u n (Hlevel' u Hu) He) as [?|[Hin|?]];
      [auto|by apply elem_of_nil in Hin|auto].
  - intros u n Hu He.
    destruct (Hclosed u n Hu He) as [?|[Hin|?]];
      [auto|by apply elem_of_nil in Hin|auto].
Qed.

Lemma order_inv_skip links startId k visited current near far path :
  order_inv links startId k visited (current :: near) far path →
  current ∈ visited →
  order_inv links startId k visited near far path.
Proof.
  intros [Hv Hsorted Hpath Hnear Hfar Hbelow Hlevel Hclosed] Hin.
  assert (current ∈ path) as Hcp by (subst visited; set_solver).
  split.
  - done.
  - done.
  - done.
  - intros n Hn. apply Hnear. by apply list_elem_of_further.
  - done.
  - done.
  - intros n Hn. destruct (Hlevel n Hn) as [?|Hq]; [by left|].
    apply elem_of_cons in Hq as [->|?]; auto.
  - intros u n Hu He. destruct (Hclosed u n Hu He) as [?|[Hq|?]]; auto.
    apply elem_of_cons in Hq as [->|?]; auto.
Qed.

Lemma order_inv_visit links startId k visited current near far path :
  order_inv links startId k visited (current :: near) far path →
  current ∉ visited →
  order_inv links startId k ({[current]} ∪ visited) near
    (far ++ outgoing links current) (path ++ [current]).
Proof.
  intros [Hv Hsorted Hpath Hnear Hfar Hbelow Hlevel Hclosed] Hnew.
  assert (current ∉ path) as Hcp by (subst visited; set_solver).
  assert (distance links startId current k) as Hcurrent.
  { split; [apply Hnear, list_elem_of_here|].
    intros j Hj Hsteps. apply Hcp. by apply (Hbelow current j). }
  split.
  - rewrite list_to_set_snoc_L. subst visited. set_solver.
  - apply StronglySorted_app_2; [|done|repeat constructor].
    intros a b Ha Hb. apply list_elem_of_singleton in Hb as ->.
    destruct (Hpath a Ha) as (ja & Hja & Hda).
    intros i j Hi Hj.
    rewrite (distance_unique _ _ _ _ _ Hi Hda), (distance_unique _ _ _ _ _ Hj Hcurrent).
    done.
  - intros n Hn. apply elem_of_app in Hn as [Hn|Hn]; [by apply Hpath|].
    apply list_elem_of_singleton in Hn as ->. by exists k.
  - intros n Hn. apply Hnear. by apply list_elem_of_further.
  - intros n Hn. apply elem_of_app in Hn as [Hn|Hn]; [by apply Hfar|].
    apply outgoing_edge in Hn. eapply nsteps_r; [apply Hcurrent|done].
  - intros n j Hj Hn. apply elem_of_app. left. by apply (Hbelow n j).
  - intros n Hn. rewrite elem_of_app, list_elem_of_singleton.
    destruct (Hlevel n Hn) as [?|Hq]; [by left; left|].
    apply elem_of_cons in Hq as [->|?]; auto.
  - intros u n Hu He. rewrite !elem_of_app, list_elem_of_singleton.
    apply elem_of_app in Hu as [Hu|Hu].
    + destruct (Hclosed u n Hu He) as [?|[Hq|?]]; auto.
      apply elem_of_cons in Hq as [->|?]; auto.
    + apply list_elem_of_singleton in Hu as ->.
      right. right. right. by apply outgoing_edge.
Qed.

(** [findNodePaths] lists the ids in the order of their distance. *)
Lemma findNodePaths_loop_order links startId fuel :
  ∀ k visited near far path res,
  order_inv links startId k visited near far path →
  findNodePaths_loop fuel links visited (near ++ far) path = Some res →
  StronglySorted (closer links startId) res ∧
  ∀ n, n ∈ res → ∃ j, distance links startId n j.
Proof.
  assert (∀ k visited near far path,
    order_inv links startId k visited near far path →
    StronglySorted (closer links startId) path ∧
    ∀ n, n ∈ path → ∃ j, distance links startId n j) as Hdone.
  { intros k visited near far path Hinv. split; [apply Hinv|].
    intros n Hn. destruct (order_path _ _ _ _ _ _ _ Hinv n Hn) as (j & _ & Hj). eauto. }
  induction fuel as [|fuel IH]; intros k visited near far path res Hinv.
  - destruct near, far; try done. simpl. intros [= <-]. by eapply Hdone.
  - assert (∃ k' near' far',
      near ++ far = near' ++ far' ∧
      order_inv links startId k' visited near' far' path ∧
      (near' = [] → far' = [])) as (k' & near' & far' & -> & Hinv' & Hempty).
    { destruct near as [|n near].
      - exists (S k), far, []. rewrite app_nil_r. split; [done|].
        split; [by apply order_inv_next|done].
      - exists k, (n :: near), far. split; [done|]. split; [done|]. done. }
    destruct near' as [|current near'].
    { rewrite (Hempty eq_refl). simpl. intros [= <-]. by eapply Hdone. }
    cbn [app findNodePaths_loop]. case_bool_decide as Hin.
    + apply (IH k'). by eapply order_inv_skip.
    + rewrite <- app_assoc. apply (IH k'). by apply order_inv_visit.
Qed.

(** X3. The flat traversals list the ids closest first: every id of the
    path that [bfsPath] and [findNodePaths] return has a distance from the
    start, and no id comes before an id that is fewer links from the
    start. *)
Theorem bfsPath_closest_first (startId : string) (links : list RawLink) :
  ∃ path,
    bfsPath startId links = Some path ∧
    findNodePaths startId links = Some path ∧
    StronglySorted (closer links startId) path ∧
    ∀ n, n ∈ path → ∃ j, distance links startId n j.
Proof.
  destruct (bfsPath_loop_spec links startId (S (length links)) ∅ [startId] [])
    as (p1 & H1 & _); [apply inv_init| |].
  { simpl. pose proof (pending_length_le links ∅). lia. }
  destruct (findNodePaths_loop_spec links startId (S (length links)) ∅ [startId] [])
    as (p2 & H2 & _); [apply inv_init| |].
  { simpl. pose proof (pending_length_le links ∅). lia. }
  assert (p1 = p2) as -> by (eapply loops_agree; [apply thin_refl|exact H1|exact H2]).
  exists p2. split; [done|]. split; [done|].
  eapply (findNodePaths_loop_order links startId _ 0 ∅ [startId] []);
    [apply order_inv_init|exact H2].
Qed.

End OrderFacts.

(** ** Cybernetic mode: shape, ties, and what it reads *)

Module AdaptiveFacts.

Import Layers LayersFacts Distance DistanceFacts.

Lemma div3_succ n : (n + 3) / 3 = S (n / 3).
Proof.
  replace (n + 3) with (n + 1 * 3) by lia. rewrite Nat.div_add by lia. lia.
Qed.

(** The layers cut from the sorted list: consecutive levels, three ids in
    each but possibly the last. *)
Lemma distribute_chunks l : ∀ idx total cur k,
  idx + length l = total → length cur < nodesPerLayer →
  (∀ i la, distribute l idx total [] cur k !! i = Some la →
     level la = k + i ∧ 1 ≤ length (nodes la) ≤ nodesPerLayer ∧
     (S i < length (distribute l idx total [] cur k) →
      length (nodes la) = nodesPerLayer)) ∧
  length (distribute l idx total [] cur k) =
    match l with [] => 0 | _ :: _ => (length cur + length l + 2) / 3 end.
Proof.
  unfold nodesPerLayer.
  induction l as [|node rest IH]; intros idx total cur k Hidx Hcur; cbn [distribute].
  { split; [|done]. intros i la Hi. done. }
  cbn [length] in Hidx.
  assert (length (cur ++ [node.1]) = S (length cur)) as Hlen
    by (rewrite length_app; simpl; lia).
  unfold nodesPerLayer. rewrite Hlen.
  destruct (3 <=? S (length cur)) eqn:Hfull; cbn [orb].
  - apply Nat.leb_le in Hfull.
    rewrite distribute_app. cbn [app].
    destruct (IH (S idx) total [] (S k)) as [Hrest Hcount]; [lia|simpl; lia|].
    split.
    + intros [|i] la Hi; simpl in Hi.
      * injection Hi as <-. simpl. rewrite Hlen. split; [lia|]. split; lia.
      * destruct (Hrest i la Hi) as (Hlevel & Hsize & Hfullness).
        split; [lia|]. split; [done|]. intros Hlt. apply Hfullness.
        simpl in Hlt. lia.
    + cbn [length]. rewrite Hcount. destruct rest as [|r rest].
      * assert (length cur = 2) as -> by lia. done.
      * assert (length cur = 2) as -> by lia.
        rewrite <- div3_succ. f_equal. simpl. lia.
  - apply Nat.leb_gt in Hfull. destruct (idx =? total - 1) eqn:Hend.
    + apply Nat.eqb_eq in Hend. destruct rest; [|simpl in Hidx; lia].
      cbn [distribute app]. split.
      * intros [|i] la Hi; [|done]. injection Hi as <-. cbn [level nodes].
        rewrite Hlen. split; [lia|]. split; [lia|]. cbn [length]. lia.
      * cbn [length]. apply Nat.div_unique with (length cur); lia.
    + apply Nat.eqb_neq in Hend.
      destruct (IH (S idx) total (cur ++ [node.1]) k) as [Hrest Hcount];
        [lia|rewrite Hlen; lia|].
      split; [exact Hrest|]. rewrite Hcount, Hlen.
      destruct rest as [|r rest]; [simpl in Hidx; lia|].
      cbn [length]. f_equal. lia.
Qed.


(** When nothing but the start is reachable, the normal loop lists one
    layer. *)
Lemma standard_single links startId :
  collect (S (length links)) links ∅ [startId] [] = Some [startId] →
  standard (S (length links)) links ∅ [startId] 0 [] = Some [mkLayer 0 [startId]].
Proof.
  intros Hc. destruct (standard_flatten links startId _ Hc) as (layers & Hs & Hflat).
  rewrite Hs. f_equal.
  pose proof (standard_rings links startId _ _ _ _ _ _ (ring_inv_init links startId) Hs)
    as Hrings.
  destruct layers as [|la [|lb layers]]; [done| |].
  - destruct (Hrings 0 la eq_refl) as (Hlevel & _ & _).
    destruct la as [lv ns]. simpl in *. rewrite app_nil_r in Hflat. by subst.
  - exfalso.
    destruct (Hrings 0 la eq_refl) as (_ & Ha & _).
    destruct (Hrings 1 lb eq_refl) as (_ & Hb & _).
    cbn [flatten flat_map] in Hflat.
    destruct (nodes la) as [|a na]; [done|]. destruct (nodes lb) as [|b nb]; [done|].
    apply (f_equal length) in Hflat. rewrite !length_app in Hflat. simpl in Hflat. lia.
Qed.

(** X4. The shape of the layering in cybernetic mode: layer 0 is the
    start alone, the level of a layer is its index, every layer holds
    between one and three ids, and every layer between the first and the
    last holds exactly three. *)
Theorem adaptive_layers_shape (startId : string) (links : list RawLink)
    (explorationData : gmap string NodeExploration) :
  ∃ layers,
    getAdaptiveHierarchicalLayers startId links explorationData true = Some layers ∧
    head layers = Some (mkLayer 0 [startId]) ∧
    (∀ k la, layers !! k = Some la →
       level la = k ∧ 1 ≤ length (nodes la) ≤ 3 ∧
       (0 < k → S k < length layers → length (nodes la) = 3)) ∧
    length layers = S ((length (flatten layers) + 1) / 3).
Proof.
  unfold getAdaptiveHierarchicalLayers.
  destruct (collect_start links startId) as (otherNodes & Hc & _).
  rewrite Hc. destruct otherNodes as [|o otherNodes].
  - cbn [andb length Nat.ltb Nat.leb].
    rewrite (standard_single _ _ Hc). eexists. split; [done|]. split; [done|].
    split; [|done].
    intros [|k] la Hk; [|done]. injection Hk as <-. simpl. lia.
  - cbn [andb length Nat.ltb Nat.leb].
    set (sorted := sort _).
    assert (length sorted = S (length otherNodes)) as Hlen.
    { unfold sorted. rewrite sort_perm. simpl. by rewrite length_map. }
    destruct (distribute_chunks sorted 0 (length sorted) [] 1) as [Hchunks Hcount];
      [done|unfold nodesPerLayer; simpl; lia|].
    rewrite distribute_app. eexists. split; [done|]. split; [done|].
    unfold nodesPerLayer in Hchunks. split.
    + intros [|k] la Hk; simpl in Hk.
      * injection Hk as <-. simpl. lia.
      * destruct (Hchunks k la Hk) as (Hlevel & Hsize & Hfull).
        split; [lia|]. split; [done|]. intros _ Hlt. apply Hfull.
        simpl in Hlt. lia.
    + cbn [app length]. f_equal. rewrite Hcount.
      cbn [flatten flat_map nodes app length]. fold (flatten (distribute sorted 0 (length sorted) [] [] 1)).
      rewrite distribute_flatten; [|done|by right].
      cbn [app]. rewrite length_fmap, Hlen.
      destruct sorted; [done|]. cbn [length]. f_equal. simpl in Hlen. lia.
Qed.


(** *** Ties keep the discovery order *)

Lemma filter_carried (score : string → Q) q (l : list (string * Q)) :
  Forall (fun p => snd p = score (fst p)) l →
  (List.filter (fun p => Qeq_bool (snd p) q) l).*1 =
  List.filter (fun n => Qeq_bool (score n) q) (l.*1).
Proof.
  induction 1 as [|p l Hp _ IH]; [done|].
  cbn [List.filter fmap list_fmap]. rewrite <- Hp.
  destruct (Qeq_bool (snd p) q); cbn [fmap list_fmap]; by rewrite IH.
Qed.

(** X5. Cybernetic mode lists the ids that normal mode lists, as often,
    with the start first; ids of equal score keep the order in which the
    breadth-first traversal met them. *)
Theorem adaptive_layers_stable (startId : string) (links : list RawLink)
    (explorationData : gmap string NodeExploration) :
  ∃ adaptive standard,
    getAdaptiveHierarchicalLayers startId links explorationData true = Some adaptive ∧
    getAdaptiveHierarchicalLayers startId links explorationData false = Some standard ∧
    head (flatten adaptive) = Some startId ∧
    head (flatten standard) = Some startId ∧
    flatten adaptive ≡ₚ flatten standard ∧
    ∀ q : Q,
      List.filter (fun n => Qeq_bool (getExplorationScore n explorationData) q)
        (tail (flatten adaptive)) =
      List.filter (fun n => Qeq_bool (getExplorationScore n explorationData) q)
        (tail (flatten standard)).
Proof.
  unfold getAdaptiveHierarchicalLayers.
  destruct (collect_start links startId) as (otherNodes & Hc & _).
  rewrite Hc.
  destruct (standard_flatten links startId _ Hc) as (layers & Hs & Hflat).
  rewrite Hs. destruct otherNodes as [|o otherNodes].
  - cbn [andb length Nat.ltb Nat.leb].
    exists layers, layers. rewrite Hflat. by repeat split.
  - cbn [andb length Nat.ltb Nat.leb].
    set (score := fun nodeId => getExplorationScore nodeId explorationData).
    set (pairs := List.map (fun nodeId => (nodeId, score nodeId)) (o :: otherNodes)).
    assert (pairs.*1 = o :: otherNodes) as Hids.
    { unfold pairs. change (List.map ?f ?l) with (f <$> l).
      rewrite <- list_fmap_compose. apply list_fmap_id. }
    assert (Forall (fun p => snd p = score (fst p)) pairs) as Hcarry.
    { apply Forall_forall. intros p Hp. apply list_elem_of_In, in_map_iff in Hp as (n & <- & _).
      done. }
    assert (Forall (fun p => snd p = score (fst p)) (sort pairs)) as Hcarry'.
    { by rewrite sort_perm. }
    rewrite distribute_app. eexists _, layers. split; [done|]. split; [done|].
    cbn [app flatten flat_map nodes].
    fold (flatten (distribute (sort pairs) 0 (length (sort pairs)) [] [] 1)).
    rewrite distribute_flatten; [|done|by right].
    rewrite Hflat. cbn [app head tail]. split; [done|]. split; [done|]. split.
    + constructor. change ((sort pairs).*1 ≡ₚ o :: otherNodes).
      by rewrite sort_perm, Hids.
    + intros q. change (sort (List.map _ _)) with (sort pairs).
      rewrite <- Hids.
      change (List.filter (fun n => Qeq_bool (score n) q) (sort pairs).*1 =
              List.filter (fun n => Qeq_bool (score n) q) pairs.*1).
      rewrite <- (filter_carried score q _ Hcarry), <- (filter_carried score q _ Hcarry').
      by rewrite sort_stable.
Qed.

(** *** The layering reads the exploration data through the scores only *)

(** Two lists of scored ids with the same ids and equal scores. *)
Lemma insert_sorted_ids (x1 x2 : string * Q) (l1 l2 : list (string * Q)) :
  fst x1 = fst x2 → (snd x1 == snd x2)%Q →
  Forall2 (fun p1 p2 => fst p1 = fst p2 ∧ (snd p1 == snd p2)%Q) l1 l2 →
  Forall2 (fun p1 p2 => fst p1 = fst p2 ∧ (snd p1 == snd p2)%Q)
    (insert_sorted x1 l1) (insert_sorted x2 l2).
Proof.
  intros Hfst Hsnd. induction 1 as [|y1 y2 l1 l2 [Hy1 Hy2] Hl IH]; simpl.
  - by repeat constructor.
  - assert (Qle_bool (compareFn x1 y1) 0 = Qle_bool (compareFn x2 y2) 0) as ->.
    { unfold compareFn. apply eq_true_iff_eq. rewrite !Qle_bool_iff.
      by rewrite Hsnd, Hy2. }
    destruct (Qle_bool (compareFn x2 y2) 0); by repeat constructor.
Qed.

Lemma sort_ids (l1 l2 : list (string * Q)) :
  Forall2 (fun p1 p2 => fst p1 = fst p2 ∧ (snd p1 == snd p2)%Q) l1 l2 →
  (sort l1).*1 = (sort l2).*1.
Proof.
  intros Hl.
  assert (Forall2 (fun p1 p2 => fst p1 = fst p2 ∧ (snd p1 == snd p2)%Q)
            (sort l1) (sort l2)) as Hs.
  { induction Hl as [|x1 x2 l1 l2 [Hx1 Hx2] Hl IH]; simpl; [constructor|].
    by apply insert_sorted_ids. }
  induction Hs as [|p1 p2 s1 s2 [Hp _] _ IH]; [done|].
  cbn [fmap list_fmap]. by rewrite Hp, IH.
Qed.

Lemma distribute_ids l1 : ∀ l2 idx total layers cur k,
  l1.*1 = l2.*1 →
  distribute l1 idx total layers cur k = distribute l2 idx total layers cur k.
Proof.
  induction l1 as [|p1 l1 IH]; intros [|p2 l2] idx total layers cur k Hids;
    try done.
  cbn [fmap list_fmap] in Hids. injection Hids as Hp Hids.
  cbn [distribute]. rewrite Hp.
  destruct (_ || _); by apply IH.
Qed.

(** Data that give every node the same score give the same layers. *)
Lemma layers_scores (startId : string) (links : list RawLink)
    (data1 data2 : gmap string NodeExploration) (cyberneticMode : bool) :
  (∀ n, getExplorationScore n data1 == getExplorationScore n data2)%Q →
  getAdaptiveHierarchicalLayers startId links data1 cyberneticMode =
  getAdaptiveHierarchicalLayers startId links data2 cyberneticMode.
Proof.
  intros Hscores. unfold getAdaptiveHierarchicalLayers.
  destruct (collect _ _ _ _ _) as [allNodesInPath|]; [|done].
  destruct (cyberneticMode && _); [|done].
  destruct allNodesInPath as [|startNode otherNodes]; [done|].
  f_equal.
  assert ((sort (List.map (fun nodeId => (nodeId, getExplorationScore nodeId data1))
                   otherNodes)).*1 =
          (sort (List.map (fun nodeId => (nodeId, getExplorationScore nodeId data2))
                   otherNodes)).*1) as Hids.
  { apply sort_ids. induction otherNodes as [|n otherNodes IH]; simpl; [constructor|].
    constructor; [|done]. split; [done|]. apply Hscores. }
  rewrite (distribute_ids _ _ _ _ _ _ _ Hids).
  f_equal. rewrite <- (length_fmap fst), Hids. by rewrite length_fmap.
Qed.

(** Normal mode does not read the data. *)
Lemma standard_ignores_data (startId : string) (links : list RawLink)
    (data1 data2 : gmap string NodeExploration) :
  getAdaptiveHierarchicalLayers startId links data1 false =
  getAdaptiveHierarchicalLayers startId links data2 false.
Proof. done. Qed.

(** X6. The layering reads the exploration data through the scores alone:
    normal mode does not read them at all, and in cybernetic mode data that
    give every node the same score give the same layers (a visit, which no
    score counts, changes nothing). *)
Theorem layers_read_scores (startId : string) (links : list RawLink)
    (data1 data2 : gmap string NodeExploration) :
  getAdaptiveHierarchicalLayers startId links data1 false =
    getAdaptiveHierarchicalLayers startId links data2 false ∧
  ((∀ n, getExplorationScore n data1 == getExplorationScore n data2)%Q →
   getAdaptiveHierarchicalLayers startId links data1 true =
     getAdaptiveHierarchicalLayers startId links data2 true).
Proof.
  split; [apply standard_ignores_data|apply layers_scores].
Qed.


(** *** In both modes the layers list the reachable ids *)

Lemma layers_cover (startId : string) (links : list RawLink)
    (explorationData : gmap string NodeExploration) (cyberneticMode : bool) :
  ∃ layers,
    getAdaptiveHierarchicalLayers startId links explorationData cyberneticMode =
      Some layers ∧
    head (flatten layers) = Some startId ∧
    ∀ n, n ∈ flatten layers ↔ reachable links startId n.
Proof.
  unfold getAdaptiveHierarchicalLayers.
  destruct (collect_start links startId) as (otherNodes & Hc & Hset).
  rewrite Hc.
  destruct (standard_flatten links startId _ Hc) as (layers & Hs & Hflat).
  rewrite Hs.
  destruct (cyberneticMode && _).
  - rewrite distribute_app. eexists. split; [done|].
    cbn [app flatten flat_map nodes].
    match goal with |- context [flat_map nodes ?l] => fold (flatten l) end.
    set (sorted := sort _).
    destruct otherNodes as [|o otherNodes].
    + split; [done|]. intros n. rewrite <- Hset. simpl. done.
    + rewrite distribute_flatten; [|done|].
      2:{ left. intros Hnil. apply (f_equal length) in Hnil. revert Hnil.
          unfold sorted. rewrite sort_perm. done. }
      cbn [app head]. split; [done|]. intros n. rewrite <- Hset.
      assert (sorted.*1 ≡ₚ o :: otherNodes) as ->; [|done].
      unfold sorted. rewrite sort_perm.
      change (List.map ?f ?l) with (f <$> l).
      rewrite <- list_fmap_compose. by rewrite list_fmap_id.
  - exists layers. split; [done|]. rewrite Hflat. split; [done|]. exact Hset.
Qed.

End AdaptiveFacts.

(** ** The score: sign, extremes, and how feedback moves it *)

Module ScoreFacts.

Import Layers Session.

Lemma num_lt (a b : nat) : (num a < num b)%Q ↔ a < b.
Proof. unfold num. rewrite <- Zlt_Qlt. lia. Qed.

Lemma num_zero (a : nat) : (num a == 0)%Q ↔ a = 0.
Proof. unfold num, Qeq. simpl. lia. Qed.

Lemma num_succ (a : nat) : num (a + 1) = (num a + 1)%Q.
Proof. unfold num, Qplus, inject_Z. simpl. f_equal. lia. Qed.

(** The score of a record with feedback, times the feedback. *)
Lemma score_times_total (data : NodeExploration) :
  0 < totalFeedback data →
  ((num (insightful data) * 2 - num (familiar data) * 2) / num (totalFeedback data)
     * num (totalFeedback data) ==
   num (insightful data) * 2 - num (familiar data) * 2)%Q.
Proof.
  intros Htotal. pose proof (num_pos _ Htotal) as Hnum.
  assert (¬ (num (totalFeedback data) == 0)%Q) as Hne by (intros Heq; lra).
  rewrite Qmult_comm, Qmult_div_r by done. reflexivity.
Qed.

(** X7. The sign and the extremes of the score of a node with a record:
    it is positive exactly when the insightful marks outnumber the
    familiar ones, negative exactly when the familiar ones outnumber the
    insightful ones, [2] exactly when there is feedback and all of it is
    insightful, and [-2] exactly when there is feedback and all of it is
    familiar. *)
Theorem getExplorationScore_sign (nodeId : string)
    (explorationData : gmap string NodeExploration) (data : NodeExploration) :
  explorationData !! nodeId = Some data →
  ((0 < getExplorationScore nodeId explorationData)%Q ↔
     familiar data < insightful data) ∧
  ((getExplorationScore nodeId explorationData < 0)%Q ↔
     insightful data < familiar data) ∧
  ((getExplorationScore nodeId explorationData == 2)%Q ↔
     0 < insightful data ∧ neutral data = 0 ∧ familiar data = 0) ∧
  ((getExplorationScore nodeId explorationData == -2)%Q ↔
     0 < familiar data ∧ insightful data = 0 ∧ neutral data = 0).
Proof.
  intros Hdata. unfold getExplorationScore. rewrite Hdata.
  destruct (Nat.eqb_spec (totalFeedback data) 0) as [Hzero|Hpos].
  { unfold totalFeedback in Hzero.
    repeat split; try (intros; lra); try (intros; lia);
      try (intros Heq; discriminate Heq). }
  assert (0 < totalFeedback data) as Htotal by lia.
  pose proof (num_pos _ Htotal) as Hnum.
  pose proof (num_totalFeedback data) as Hsum.
  pose proof (score_times_total data Htotal) as Htimes.
  pose proof (num_nonneg (insightful data)) as Hi.
  pose proof (num_nonneg (neutral data)) as Hn.
  pose proof (num_nonneg (familiar data)) as Hf.
  pose proof (num_lt (familiar data) (insightful data)) as Hfi.
  pose proof (num_lt (insightful data) (familiar data)) as Hif.
  pose proof (num_lt 0 (insightful data)) as Hi0.
  pose proof (num_lt 0 (familiar data)) as Hf0.
  pose proof (num_zero (insightful data)) as Hiz.
  pose proof (num_zero (neutral data)) as Hnz.
  pose proof (num_zero (familiar data)) as Hfz.
  change (num 0) with 0%Q in Hi0, Hf0.
  set (score := ((num (insightful data) * 2 - num (familiar data) * 2)
                   / num (totalFeedback data))%Q) in *.
  split; [|split; [|split]].
  - rewrite <- Hfi. split.
    + intros Hs.
      assert (0 < score * num (totalFeedback data))%Q
        by (by apply Qmult_lt_0_compat).
      lra.
    + intros Hlt. unfold score. apply Qlt_shift_div_l; [done|]. lra.
  - rewrite <- Hif. split.
    + intros Hs.
      assert (0 < (- score) * num (totalFeedback data))%Q
        by (apply Qmult_lt_0_compat; [lra|done]).
      assert ((- score) * num (totalFeedback data) ==
              - (score * num (totalFeedback data)))%Q as Hneg by ring.
      lra.
    + intros Hlt. unfold score. apply Qlt_shift_div_r; [done|]. lra.
  - rewrite <- Hi0, <- Hnz, <- Hfz. split.
    + intros Hs. rewrite Hs in Htimes. split; [|split]; lra.
    + intros (H1 & H2 & H3).
      apply Qle_antisym.
      * unfold score. apply Qle_shift_div_r; [done|]. lra.
      * unfold score. apply Qle_shift_div_l; [done|]. lra.
  - rewrite <- Hf0, <- Hiz, <- Hnz. split.
    + intros Hs. rewrite Hs in Htimes. split; [|split]; lra.
    + intros (H1 & H2 & H3).
      apply Qle_antisym.
      * unfold score. apply Qle_shift_div_r; [done|]. lra.
      * unfold score. apply Qle_shift_div_l; [done|]. lra.
Qed.

Lemma getExplorationScore_sign_witness :
  (0 < getExplorationScore "form" {[ "form" := mkExploration 4 2 1 0 ]})%Q ↔ 0 < 2.
Proof.
  apply (getExplorationScore_sign "form" {[ "form" := mkExploration 4 2 1 0 ]}
           (mkExploration 4 2 1 0)).
  reflexivity.
Defined.


(** What [handleFeedback] leaves in the exploration map. *)
Lemma handleFeedback_data st nodeId type st' :
  handleFeedback st nodeId type = Some st' →
  ∃ current,
    explorationData st !! nodeId = Some current ∧
    explorationData st' = <[nodeId := bump type current]> (explorationData st).
Proof.
  unfold handleFeedback. intros Hst.
  destruct (explorationData st !! nodeId) as [current|]; [|done].
  exists current. split; [done|].
  destruct (activeNode st) as [active|].
  - destruct (truthy (Some active) && cyberneticMode st).
    + destruct (getAdaptiveHierarchicalLayers _ _ _ _); [|done].
      by injection Hst as <-.
    + by injection Hst as <-.
  - by injection Hst as <-.
Qed.

Lemma totalFeedback_bump type current :
  totalFeedback (bump type current) = totalFeedback current + 1.
Proof. destruct type; unfold totalFeedback; simpl; lia. Qed.

(** The score of a record. *)
Lemma score_of_record nodeId data (explorationData : gmap string NodeExploration) :
  explorationData !! nodeId = Some data →
  getExplorationScore nodeId explorationData =
  if totalFeedback data =? 0 then 0%Q
  else ((num (insightful data) * 2 - num (familiar data) * 2)
          / num (totalFeedback data))%Q.
Proof. intros Hdata. unfold getExplorationScore. by rewrite Hdata. Qed.

(** X8. Recording feedback moves the score of the node the way the mark
    says, and moves no other score: an insightful mark never lowers it, a
    familiar mark never raises it, and a neutral mark keeps its sign and
    brings it no further from zero. *)
Theorem handleFeedback_moves_score (st st' : State) (nodeId : string)
    (type : FeedbackType) :
  handleFeedback st nodeId type = Some st' →
  let before := getExplorationScore nodeId (explorationData st) in
  let after := getExplorationScore nodeId (explorationData st') in
  match type with
  | Insightful => (before <= after)%Q
  | Familiar => (after <= before)%Q
  | Neutral => (0 <= after <= before ∨ before <= after <= 0)%Q
  end ∧
  ∀ other, other ≠ nodeId →
    getExplorationScore other (explorationData st') =
    getExplorationScore other (explorationData st).
Proof.
  intros Hst. apply handleFeedback_data in Hst as (current & Hcurrent & Hdata').
  cbn zeta. split.
  2:{ intros other Hother. unfold getExplorationScore.
      by rewrite Hdata', lookup_insert_ne. }
  rewrite (score_of_record nodeId current) by done.
  rewrite (score_of_record nodeId (bump type current))
    by (by rewrite Hdata', lookup_insert_eq).
  rewrite totalFeedback_bump.
  destruct (Nat.eqb_spec (totalFeedback current + 1) 0) as [?|_]; [lia|].
  rewrite num_succ.
  pose proof (num_nonneg (insightful current)) as Hi.
  pose proof (num_nonneg (neutral current)) as Hn.
  pose proof (num_nonneg (familiar current)) as Hf.
  pose proof (num_totalFeedback current) as Hsum.
  destruct (Nat.eqb_spec (totalFeedback current) 0) as [Hzero|Hpos].
  - (* the first mark *)
    assert (num (totalFeedback current) == 0)%Q as Htotal by (by apply num_zero).
    destruct type; cbn [bump insightful familiar]; rewrite ?num_succ.
    + apply Qle_shift_div_l; lra.
    + left. split; [apply Qle_shift_div_l|apply Qle_shift_div_r]; lra.
    + apply Qle_shift_div_r; lra.
  - assert (0 < totalFeedback current) as Htotal by lia.
    pose proof (num_pos _ Htotal) as Hnum.
    pose proof (score_times_total current Htotal) as Htimes.
    assert (-2 <= (num (insightful current) * 2 - num (familiar current) * 2)
                    / num (totalFeedback current) ∧
            (num (insightful current) * 2 - num (familiar current) * 2)
              / num (totalFeedback current) <= 2)%Q as [Hlo Hhi].
    { split; [apply Qle_shift_div_l|apply Qle_shift_div_r]; try done; lra. }
    set (score := ((num (insightful current) * 2 - num (familiar current) * 2)
                     / num (totalFeedback current))%Q) in *.
    assert (score * (num (totalFeedback current) + 1) ==
            score * num (totalFeedback current) + score)%Q as Hnext by ring.
    destruct type; cbn [bump insightful familiar]; rewrite ?num_succ.
    + apply Qle_shift_div_l; lra.
    + destruct (Qlt_le_dec score 0) as [Hneg|Hnonneg].
      * right. split; [apply Qle_shift_div_l; lra|].
        apply Qle_shift_div_r; [lra|].
        assert (0 <= (- score) * num (totalFeedback current))%Q
          by (apply Qmult_le_0_compat; lra).
        assert ((- score) * num (totalFeedback current) ==
                - (score * num (totalFeedback current)))%Q by ring.
        lra.
      * left. split; [|apply Qle_shift_div_r; lra].
        apply Qle_shift_div_l; [lra|].
        assert (0 <= score * num (totalFeedback current))%Q
          by (apply Qmult_le_0_compat; lra).
        lra.
    + apply Qle_shift_div_r; lra.
Qed.

Lemma handleFeedback_moves_score_witness :
  ∃ st', handleFeedback smallSession "function" Insightful = Some st' ∧
    (getExplorationScore "function" (explorationData smallSession) <=
     getExplorationScore "function" (explorationData st'))%Q.
Proof.
  eexists. split; [reflexivity|].
  refine (proj1 (handleFeedback_moves_score smallSession _ "function" Insightful _)).
  reflexivity.
Defined.

End ScoreFacts.

(** ** The node marker *)

Module MarkerFacts.

Import Marker.

Lemma share_range (part total : nat) :
  part ≤ total →
  (0 <= num part / (num total + 1) ∧ num part / (num total + 1) < 1)%Q.
Proof.
  intros Hle.
  pose proof (num_nonneg part). pose proof (num_nonneg total).
  assert (num part <= num total)%Q as Hq.
  { unfold num. rewrite <- Zle_Qle. lia. }
  split.
  - apply Qle_shift_div_l; lra.
  - apply Qlt_shift_div_r; lra.
Qed.

Lemma share_zero (part total : nat) :
  (num part / (num total + 1) == 0)%Q ↔ part = 0.
Proof.
  pose proof (num_nonneg total).
  assert (¬ (num total + 1 == 0)%Q) as Hne by (intros Heq; lra).
  split.
  - intros Hz.
    assert (num part == 0)%Q as Hp.
    {
      rewrite <- (Qmult_div_r (num part) (num total + 1) Hne).
      fold (num part / (num total + 1))%Q. rewrite Hz. ring. }
    unfold num, Qeq in Hp. simpl in Hp. lia.
  - intros ->. unfold num. simpl. unfold Qdiv. ring.
Qed.

(** The two factors: their ranges, and when they differ from 1. *)
Lemma adjustment_bounds (cyberneticMode : bool)
    (exploration : NodeExploration) :
  let adjustment := getFeedbackAdjustment cyberneticMode exploration in
  (0.3 < opacity adjustment ∧ opacity adjustment <= 1)%Q ∧
  (0.5 <= intensity adjustment ∧ intensity adjustment <= 1.5)%Q ∧
  ((opacity adjustment == 1)%Q ↔ cyberneticMode = false ∨ familiar exploration = 0) ∧
  ((1 < intensity adjustment)%Q ↔
   cyberneticMode = true ∧ familiar exploration < insightful exploration).
Proof.
  unfold getFeedbackAdjustment. destruct cyberneticMode; cbn [negb].
  2:{ simpl. repeat split; try lra; try done; try (by left);
        try (intros; lra); try (by intros [? _]). }
  destruct (Nat.eqb_spec (totalFeedback exploration) 0) as [Hzero|Hpos].
  { simpl. unfold totalFeedback in Hzero.
    repeat split; try lra; try done; try (intros; lra);
      try (intros _; right; lia); try (intros [_ Hlt]; lia). }
  cbn zeta. cbn [opacity intensity].
  assert (0 < totalFeedback exploration) as Htotal by lia.
  pose proof (num_pos _ Htotal) as Hnum.
  pose proof (num_totalFeedback exploration) as Hsum.
  pose proof (num_nonneg (insightful exploration)) as Hi.
  pose proof (num_nonneg (neutral exploration)) as Hn.
  pose proof (num_nonneg (familiar exploration)) as Hf.
  assert (familiar exploration ≤ totalFeedback exploration) as Hle
    by (unfold totalFeedback; lia).
  destruct (share_range _ _ Hle) as [Hshare0 Hshare1].
  pose proof (share_zero (familiar exploration) (totalFeedback exploration)) as Hshare.
  set (share := (num (familiar exploration) / (num (totalFeedback exploration) + 1))%Q) in *.
  assert (Math_max 0.3 (1 - share * 0.7) = (1 - share * 0.7)%Q) as ->.
  { unfold Math_max. destruct (Qle_bool 0.3 (1 - share * 0.7)) eqn:Hc; [done|].
    assert (¬ (0.3 <= 1 - share * 0.7)%Q) as Hno
      by (intros Hq; apply Qle_bool_iff in Hq; congruence).
    exfalso. apply Hno. lra. }
  set (score := ((num (insightful exploration) * 1 - num (familiar exploration) * 1)
                   / num (totalFeedback exploration))%Q).
  assert (score * num (totalFeedback exploration) ==
          num (insightful exploration) - num (familiar exploration))%Q as Hscore.
  { assert (¬ (num (totalFeedback exploration) == 0)%Q) as Hne by (intros Heq; lra).
    unfold score. rewrite Qmult_comm, Qmult_div_r by done. ring. }
  assert (-1 <= score ∧ score <= 1)%Q as [Hlo Hhi].
  { unfold score. split.
    - apply Qle_shift_div_l; [done|]. lra.
    - apply Qle_shift_div_r; [done|]. lra. }
  assert ((0 < score)%Q ↔ familiar exploration < insightful exploration) as Hsign.
  { assert ((num (familiar exploration) < num (insightful exploration))%Q ↔
            familiar exploration < insightful exploration) as <-.
    { unfold num. rewrite <- Zlt_Qlt. lia. }
    split.
    - intros Hs.
      assert (0 < score * num (totalFeedback exploration))%Q
        by (apply Qmult_lt_0_compat; done).
      lra.
    - intros Hlt. unfold score. apply Qlt_shift_div_l; [done|]. lra. }
  repeat split; try lra.
  - intros Hone. right. apply Hshare. lra.
  - intros [?| Hzero]; [done|]. apply Hshare in Hzero. lra.
  - apply Hsign. lra.
  - intros [_ Hlt]. apply Hsign in Hlt. lra.
Qed.


(** X9. The adjustment of a node marker.  The opacity lies in (0.3, 1],
    so that the lower bound of the [Math.max] never applies, and it is 1
    exactly when cybernetic mode is off or the node has no familiar mark.
    The intensity lies in [0.5, 1.5], and it is above 1 exactly when
    cybernetic mode is on and the insightful marks outnumber the familiar
    ones.  The marker is then drawn with an emissive intensity in
    [0.4, 2.25] and a halo opacity in (0.045, 0.3]. *)
Theorem getFeedbackAdjustment_range (isActive cyberneticMode : bool)
    (exploration : NodeExploration) :
  let adjustment := getFeedbackAdjustment cyberneticMode exploration in
  (0.3 < opacity adjustment ∧ opacity adjustment <= 1)%Q ∧
  (0.5 <= intensity adjustment ∧ intensity adjustment <= 1.5)%Q ∧
  ((opacity adjustment == 1)%Q ↔ cyberneticMode = false ∨ familiar exploration = 0) ∧
  ((1 < intensity adjustment)%Q ↔
   cyberneticMode = true ∧ familiar exploration < insightful exploration) ∧
  (0.4 <= emissiveIntensity isActive cyberneticMode exploration ∧
   emissiveIntensity isActive cyberneticMode exploration <= 2.25)%Q ∧
  (0.045 < adjustedOpacity isActive cyberneticMode exploration ∧
   adjustedOpacity isActive cyberneticMode exploration <= 0.3)%Q.
Proof.
  destruct (adjustment_bounds cyberneticMode exploration)
    as ([Ho1 Ho2] & [Hi1 Hi2] & Hopaque & Hbright).
  unfold emissiveIntensity, adjustedOpacity.
  set (adjustment := getFeedbackAdjustment cyberneticMode exploration) in *.
  cbn zeta in *.
  split; [done|]. split; [done|]. split; [done|]. split; [done|].
  split; destruct isActive; split; lra.
Qed.

End MarkerFacts.

(** ** The handlers of the map component *)

Module HandlersFacts.

Import Layers LayersFacts AdaptiveFacts Session Handlers.

Lemma initialExplorationData_dom (nodes : list RawNode) :
  dom (initialExplorationData nodes) = list_to_set (id <$> nodes).
Proof.
  unfold initialExplorationData.
  assert (∀ map : gmap string NodeExploration,
    dom (fold_left (fun map node => <[id node := mkExploration 0 0 0 0]> map) nodes map)
    = list_to_set (id <$> nodes) ∪ dom map) as Hfold.
  { induction nodes as [|node nodes IH]; intros map; simpl; [set_solver|].
    rewrite IH, dom_insert_L. set_solver. }
  rewrite Hfold. set_solver.
Qed.

(** *** What each handler does to the session *)

(** A click that opens a node. *)
Lemma handleNodeClick_open v id :
  activeNode (session v) ≠ Some id →
  handleNodeClick v id =
  (newLayers ← getAdaptiveHierarchicalLayers id (links (session v))
                 (explorationData (session v)) (cyberneticMode (session v));
   current ← explorationData (session v) !! id;
   Some (mkView
           (mkState (links (session v)) (Some id) newLayers
              (if (0 <? length (hierarchicalLayers (session v)))
                  && cyberneticMode (session v)
               then hierarchicalLayers (session v) else previousLayers (session v))
              (cyberneticMode (session v))
              (<[id := visit current]> (explorationData (session v))))
           (showFeedback v) (feedbackNodeId v)
           (if cyberneticMode (session v) then timers v ++ [id] else timers v))).
Proof. intros Hne. unfold handleNodeClick. by rewrite bool_decide_eq_false_2. Qed.

(** What a handler that returns leaves of the session: the links, and an
    exploration map that is the old one, or the old one with one record
    visited or marked. *)
Lemma handle_data v event v' :
  handle v event = Some v' →
  links (session v') = links (session v) ∧
  (explorationData (session v') = explorationData (session v) ∨
   ∃ nodeId current next,
     explorationData (session v) !! nodeId = Some current ∧
     explorationData (session v') = <[nodeId := next]> (explorationData (session v)) ∧
     (next = visit current ∨ ∃ type, next = bump type current)).
Proof.
  destruct event as [id|type| | |]; simpl.
  - destruct (decide (activeNode (session v) = Some id)) as [Hactive|Hactive].
    + unfold handleNodeClick. rewrite bool_decide_eq_true_2 by done.
      destruct (cyberneticMode (session v)); intros [= <-]; simpl; auto.
    + rewrite handleNodeClick_open by done.
      destruct (getAdaptiveHierarchicalLayers _ _ _ _) as [newLayers|]; [|done].
      simpl. destruct (explorationData (session v) !! id) as [current|] eqn:Hcurrent;
        [|done].
      simpl. intros [= <-]. simpl. split; [done|]. right.
      exists id, current, (visit current). auto.
  - unfold pressFeedback. destruct (feedbackNodeId v) as [nodeId|]; [|intros [= <-]; auto].
    destruct (showFeedback v && truthy (Some nodeId)); [|intros [= <-]; auto].
    destruct (handleFeedback (session v) nodeId type) as [st|] eqn:Hst; [|done].
    simpl. intros [= <-]. simpl.
    unfold handleFeedback in Hst.
    destruct (explorationData (session v) !! nodeId) as [current|] eqn:Hcurrent; [|done].
    assert (links st = links (session v) ∧
            explorationData st =
              <[nodeId := bump type current]> (explorationData (session v))) as [-> ->].
    { destruct (activeNode (session v)) as [active|].
      - destruct (truthy (Some active) && cyberneticMode (session v)).
        + destruct (getAdaptiveHierarchicalLayers _ _ _ _); [|done].
          by injection Hst as <-.
        + by injection Hst as <-.
      - by injection Hst as <-. }
    split; [done|]. right. exists nodeId, current, (bump type current). eauto.
  - intros [= <-]. simpl. auto.
  - unfold toggleCyberneticMode.
    destruct (activeNode (session v)) as [active|].
    + destruct (truthy (Some active)).
      * destruct (getAdaptiveHierarchicalLayers _ _ _ _); [|done].
        simpl. intros [= <-]. simpl. auto.
      * simpl. intros [= <-]. simpl. auto.
    + simpl. intros [= <-]. simpl. auto.
  - intros [= <-]. unfold fire. destruct (timers v); simpl; auto.
Qed.


(** What a handler that returns leaves of the feedback panel and of the
    timers: ids that were there already, or the id clicked. *)
Lemma handle_panel v event v' :
  handle v event = Some v' →
  (∀ id, feedbackNodeId v' = Some id →
     feedbackNodeId v = Some id ∨ id ∈ timers v ∨ event = Click id) ∧
  (∀ id, id ∈ timers v' → id ∈ timers v ∨ event = Click id).
Proof.
  destruct event as [id|type| | |]; simpl.
  - destruct (decide (activeNode (session v) = Some id)) as [Hactive|Hactive].
    + unfold handleNodeClick. rewrite bool_decide_eq_true_2 by done.
      destruct (cyberneticMode (session v)); intros [= <-]; simpl.
      * split; [intros ? [= <-]|]; auto.
      * auto.
    + rewrite handleNodeClick_open by done.
      destruct (getAdaptiveHierarchicalLayers _ _ _ _) as [newLayers|]; [|done].
      simpl. destruct (explorationData (session v) !! id) as [current|]; [|done].
      simpl. intros [= <-]. simpl. split; [auto|].
      intros id' Hid'. destruct (cyberneticMode (session v)); [|auto].
      apply elem_of_app in Hid' as [?|Hid']; [auto|].
      apply list_elem_of_singleton in Hid' as ->. auto.
  - unfold pressFeedback. destruct (feedbackNodeId v) as [nodeId|] eqn:Hpanel;
      [|intros [= <-]; rewrite Hpanel; auto].
    destruct (showFeedback v && truthy (Some nodeId));
      [|intros [= <-]; rewrite Hpanel; auto].
    destruct (handleFeedback (session v) nodeId type) as [st|]; [|done].
    simpl. intros [= <-]. simpl. auto.
  - intros [= <-]. simpl. auto.
  - destruct (toggleCyberneticMode (session v)); [|done].
    simpl. intros [= <-]. simpl. auto.
  - intros [= <-]. unfold fire. destruct (timers v) as [|id rest] eqn:Htimers; simpl.
    + rewrite Htimers. auto.
    + split.
      * intros id' [= <-]. right. left. apply list_elem_of_here.
      * intros id' Hid'. left. by apply list_elem_of_further.
Qed.

Lemma handle_recorded ids v event v' :
  recorded ids v →
  (∀ id, event = Click id → id ∈ ids) →
  handle v event = Some v' →
  recorded ids v'.
Proof.
  intros [Hdom Hpanel Htimers] Hclick Hhandle.
  destruct (handle_data _ _ _ Hhandle) as [_ Hdata].
  destruct (handle_panel _ _ _ Hhandle) as [Hpanel' Htimers'].
  split.
  - destruct Hdata as [->|(nodeId & current & next & Hcurrent & -> & _)]; [done|].
    rewrite dom_insert_L, Hdom.
    assert (nodeId ∈ ids) by (rewrite <- Hdom; by apply elem_of_dom_2 in Hcurrent).
    set_solver.
  - intros id Hid. destruct (Hpanel' id Hid) as [?|[?|?]]; auto.
  - intros id Hid. destruct (Htimers' id Hid) as [?|?]; auto.
Qed.

Lemma handle_returns ids v event :
  recorded ids v →
  (∀ id, event = Click id → id ∈ ids) →
  is_Some (handle v event).
Proof.
  intros [Hdom Hpanel Htimers] Hclick.
  assert (∀ id, id ∈ ids → is_Some (explorationData (session v) !! id)) as Hrecord.
  { intros id Hid. apply elem_of_dom. by rewrite Hdom. }
  destruct event as [id|type| | |]; simpl; try done.
  - destruct (decide (activeNode (session v) = Some id)) as [Hactive|Hactive].
    + unfold handleNodeClick. rewrite bool_decide_eq_true_2 by done.
      by destruct (cyberneticMode (session v)).
    + rewrite handleNodeClick_open by done.
      destruct (getAdaptiveHierarchicalLayers_total id (links (session v))
        (explorationData (session v)) (cyberneticMode (session v))) as [newLayers ->].
      destruct (Hrecord id (Hclick id eq_refl)) as [current ->]. done.
  - unfold pressFeedback. destruct (feedbackNodeId v) as [nodeId|] eqn:Hnode; [|done].
    destruct (showFeedback v && truthy (Some nodeId)); [|done].
    destruct (Hrecord nodeId (Hpanel nodeId eq_refl)) as [current Hcurrent].
    unfold handleFeedback. rewrite Hcurrent.
    destruct (activeNode (session v)) as [active|]; [|done].
    destruct (truthy (Some active) && cyberneticMode (session v)); [|done].
    by destruct (getAdaptiveHierarchicalLayers_total active (links (session v))
      (<[nodeId := bump type current]> (explorationData (session v)))
      (cyberneticMode (session v))) as [newLayers ->].
  - unfold toggleCyberneticMode.
    destruct (activeNode (session v)) as [active|]; [|done].
    destruct (truthy (Some active)); [|done].
    by destruct (getAdaptiveHierarchicalLayers_total active (links (session v))
      (explorationData (session v)) (negb (cyberneticMode (session v))))
      as [newLayers ->].
Qed.

Lemma elem_of_clicked id events : id ∈ clicked events ↔ Click id ∈ events.
Proof.
  unfold clicked. rewrite list_elem_of_omap. split.
  - intros (event & Hevent & Hid). destruct event; try done. by injection Hid as ->.
  - intros Hevent. by exists (Click id).
Qed.

Lemma run_recorded ids events : ∀ v,
  recorded ids v →
  (∀ id, id ∈ clicked events → id ∈ ids) →
  ∃ v', run v events = Some v' ∧ recorded ids v'.
Proof.
  induction events as [|event events IH]; intros v Hv Hclicked; simpl; [eauto|].
  assert (∀ id, event = Click id → id ∈ ids) as Hclick.
  { intros id ->. apply Hclicked, elem_of_clicked, list_elem_of_here. }
  destruct (handle_returns ids v event Hv Hclick) as [v1 Hv1].
  rewrite Hv1. simpl. apply IH.
  - by eapply handle_recorded.
  - intros id Hid. apply Hclicked, elem_of_clicked.
    apply list_elem_of_further. by apply elem_of_clicked.
Qed.

Lemma initialView_recorded nodes links :
  recorded (list_to_set (id <$> nodes)) (initialView nodes links).
Proof.
  split; simpl; [apply initialExplorationData_dom|done|].
  intros id Hid. by apply elem_of_nil in Hid.
Qed.

(** X10. No handler of the map ever throws: from the first render, every
    sequence of clicks on nodes of the graph, feedback buttons, closes,
    mode toggles and timeouts runs through, and the exploration map keeps
    exactly one record for every node id. *)
Theorem handlers_never_throw (nodes : list RawNode) (links : list RawLink)
    (events : list Event) :
  (∀ nodeId, nodeId ∈ clicked events → nodeId ∈ id <$> nodes) →
  ∃ v, run (initialView nodes links) events = Some v ∧
       dom (explorationData (session v)) = list_to_set (id <$> nodes).
Proof.
  intros Hclicked.
  destruct (run_recorded (list_to_set (id <$> nodes)) events (initialView nodes links))
    as (v & Hrun & Hv).
  - apply initialView_recorded.
  - intros nodeId Hid. apply elem_of_list_to_set. by apply Hclicked.
  - exists v. split; [done|]. apply Hv.
Qed.

Lemma handlers_never_throw_witness :
  ∃ v, run (initialView [mkNode "form" "Form"; mkNode "function" "Function"]
              [mkLink "form" "function"])
         [Toggle; Click "form"; Timeout; Feedback Insightful; Click "form"] = Some v ∧
       dom (explorationData (session v)) = {[ "form"; "function" ]}.
Proof.
  destruct (handlers_never_throw [mkNode "form" "Form"; mkNode "function" "Function"]
              [mkLink "form" "function"]
              [Toggle; Click "form"; Timeout; Feedback Insightful; Click "form"])
    as (v & Hrun & Hdom).
  - intros nodeId Hid. vm_compute in Hid.
    apply list_elem_of_In in Hid. simpl in Hid.
    destruct Hid as [<-|[<-|[]]]; apply list_elem_of_here.
  - exists v. split; [exact Hrun|]. rewrite Hdom. simpl. set_solver.
Defined.


(** *** The layers on display are never stale *)

(** A visit leaves every score as it is. *)
Lemma score_visit (data : gmap string NodeExploration) nodeId current n :
  data !! nodeId = Some current →
  getExplorationScore n (<[nodeId := visit current]> data) = getExplorationScore n data.
Proof.
  intros Hcurrent. unfold getExplorationScore.
  destruct (decide (nodeId = n)) as [->|Hne].
  - by rewrite lookup_insert_eq, Hcurrent.
  - by rewrite lookup_insert_ne.
Qed.

Lemma truthy_nonempty nodeId : nodeId ≠ "" → truthy (Some nodeId) = true.
Proof.
  intros Hne. simpl. destruct (String.eqb_spec nodeId ""); done.
Qed.

Lemma handle_fresh v event v' :
  fresh v →
  (∀ id, event = Click id → id ≠ "") →
  handle v event = Some v' →
  fresh v'.
Proof.
  unfold fresh. intros Hfresh Hclick.
  destruct event as [id|type| | |]; simpl.
  - destruct (decide (activeNode (session v) = Some id)) as [Hactive|Hactive].
    + unfold handleNodeClick. rewrite bool_decide_eq_true_2 by done.
      by destruct (cyberneticMode (session v)); intros [= <-].
    + rewrite handleNodeClick_open by done.
      destruct (getAdaptiveHierarchicalLayers _ _ _ _) as [newLayers|] eqn:Hlayers;
        [|done].
      simpl. destruct (explorationData (session v) !! id) as [current|] eqn:Hcurrent;
        [|done].
      simpl. intros [= <-]. simpl. split; [by apply Hclick|].
      rewrite <- Hlayers. apply layers_scores. intros n.
      by rewrite (score_visit _ _ _ _ Hcurrent).
  - unfold pressFeedback. destruct (feedbackNodeId v) as [nodeId|]; [|by intros [= <-]].
    destruct (showFeedback v && truthy (Some nodeId)); [|by intros [= <-]].
    destruct (handleFeedback (session v) nodeId type) as [st|] eqn:Hst; [|done].
    simpl. intros [= <-]. simpl.
    unfold handleFeedback in Hst.
    destruct (explorationData (session v) !! nodeId) as [current|]; [|done].
    destruct (activeNode (session v)) as [active|] eqn:Hactive.
    + destruct Hfresh as [Hne Hlayers]. rewrite (truthy_nonempty _ Hne) in Hst.
      destruct (cyberneticMode (session v)) eqn:Hmode; cbn [andb] in Hst.
      * destruct (getAdaptiveHierarchicalLayers active _
                    (<[nodeId := bump type current]> _) _) as [newLayers|] eqn:Hnew;
          [|done].
        by injection Hst as <-.
      * injection Hst as <-. simpl. split; [done|].
        rewrite <- Hlayers. apply standard_ignores_data.
    + by injection Hst as <-.
  - by intros [= <-].
  - unfold toggleCyberneticMode.
    destruct (activeNode (session v)) as [active|] eqn:Hactive.
    + destruct Hfresh as [Hne Hlayers]. rewrite (truthy_nonempty _ Hne).
      destruct (getAdaptiveHierarchicalLayers active (links (session v))
                  (explorationData (session v)) (negb (cyberneticMode (session v))))
        as [newLayers|] eqn:Hnew; [|done].
      simpl. by intros [= <-].
    + simpl. by intros [= <-].
  - intros [= <-]. unfold fire. by destruct (timers v).
Qed.

Lemma run_fresh events : ∀ v v',
  fresh v →
  (∀ id, id ∈ clicked events → id ≠ "") →
  run v events = Some v' →
  fresh v'.
Proof.
  induction events as [|event events IH]; intros v v' Hv Hclicked; simpl.
  { by intros [= <-]. }
  destruct (handle v event) as [v1|] eqn:Hv1; [|done]. simpl.
  apply IH.
  - eapply handle_fresh; [done| |done].
    intros id ->. apply Hclicked, elem_of_clicked, list_elem_of_here.
  - intros id Hid. apply Hclicked, elem_of_clicked.
    apply list_elem_of_further. by apply elem_of_clicked.
Qed.

(** X11. The layers on display are never stale.  After every sequence of
    events from the first render, in which the nodes clicked are nodes of
    the graph with a non-empty id: while a node is active, the layers on
    display are the layering from that node under the current mode and
    the current exploration data; while none is, no layers are kept. *)
Theorem layers_never_stale (nodes : list RawNode) (links : list RawLink)
    (events : list Event) :
  (∀ nodeId, nodeId ∈ clicked events → nodeId ∈ id <$> nodes ∧ nodeId ≠ "") →
  ∃ v, run (initialView nodes links) events = Some v ∧
    match activeNode (session v) with
    | Some active =>
      getAdaptiveHierarchicalLayers active links (explorationData (session v))
        (cyberneticMode (session v)) = Some (hierarchicalLayers (session v))
    | None =>
      hierarchicalLayers (session v) = [] ∧ previousLayers (session v) = []
    end.
Proof.
  intros Hclicked.
  destruct (run_recorded (list_to_set (id <$> nodes)) events (initialView nodes links))
    as (v & Hrun & _).
  - apply initialView_recorded.
  - intros nodeId Hid. apply elem_of_list_to_set. by apply Hclicked.
  - exists v. split; [done|].
    assert (fresh v) as Hfresh.
    { eapply run_fresh; [|intros nodeId Hid; by apply Hclicked|exact Hrun]. done. }
    assert (Session.links (session v) = links) as Hlinks.
    { clear Hfresh Hclicked. revert Hrun.
      assert (links = Session.links (session (initialView nodes links))) as Heq by done.
      rewrite Heq at 2. clear Heq.
      generalize (initialView nodes links). induction events as [|event events IH];
        intros v0; simpl; [by intros [= <-]|].
      destruct (handle v0 event) as [v1|] eqn:Hv1; [|done]. simpl.
      intros Hrun. rewrite (IH _ Hrun). by apply handle_data in Hv1 as [-> _]. }
    unfold fresh in Hfresh. rewrite Hlinks in Hfresh.
    destruct (activeNode (session v)); [apply Hfresh|done].
Qed.

Lemma layers_never_stale_witness :
  ∃ v, run (initialView [mkNode "form" "Form"; mkNode "function" "Function"]
              [mkLink "form" "function"])
         [Toggle; Click "form"; Timeout; Feedback Insightful] = Some v ∧
       activeNode (session v) = Some "form" ∧
       getAdaptiveHierarchicalLayers "form" [mkLink "form" "function"]
         (explorationData (session v)) (cyberneticMode (session v)) =
       Some (hierarchicalLayers (session v)).
Proof.
  destruct (layers_never_stale [mkNode "form" "Form"; mkNode "function" "Function"]
              [mkLink "form" "function"]
              [Toggle; Click "form"; Timeout; Feedback Insightful])
    as (v & Hrun & Hlayers).
  - intros nodeId Hid. vm_compute in Hid.
    apply list_elem_of_In in Hid. simpl in Hid.
    destruct Hid as [<-|[]]. split; [apply list_elem_of_here|done].
  - exists v. split; [exact Hrun|].
    assert (activeNode (session v) = Some "form") as Hactive.
    { vm_compute in Hrun. by injection Hrun as <-. }
    rewrite Hactive in Hlayers. by split.
Defined.

(** *** Counters only grow *)

Lemma grown_refl data : grown data data.
Proof. intros nodeId current Hcurrent. exists current. repeat split; (done || lia). Qed.

Lemma grown_trans data1 data2 data3 :
  grown data1 data2 → grown data2 data3 → grown data1 data3.
Proof.
  intros H12 H23 nodeId current Hcurrent.
  destruct (H12 nodeId current Hcurrent) as (c2 & Hc2 & ?).
  destruct (H23 nodeId c2 Hc2) as (c3 & Hc3 & ?).
  exists c3. split; [done|]. lia.
Qed.

Lemma handle_grown v event v' :
  handle v event = Some v' →
  grown (explorationData (session v)) (explorationData (session v')).
Proof.
  intros Hhandle. apply handle_data in Hhandle as [_ Hdata].
  destruct Hdata as [->|(nodeId & current & next & Hcurrent & -> & Hnext)];
    [apply grown_refl|].
  intros n c Hc. destruct (decide (nodeId = n)) as [->|Hne].
  - rewrite lookup_insert_eq. exists next. split; [done|].
    rewrite Hcurrent in Hc. injection Hc as <-.
    destruct Hnext as [->|[type ->]]; [simpl; lia|destruct type; simpl; lia].
  - rewrite lookup_insert_ne by done. exists c. split; [done|]. lia.
Qed.

(** X12. No handler lowers a counter, drops a record or touches the links:
    after any sequence of events that runs through, every record is still
    there with counters at least as high, and the links are the same. *)
Theorem counters_only_grow (v v' : View) (events : list Event) :
  run v events = Some v' →
  grown (explorationData (session v)) (explorationData (session v')) ∧
  links (session v') = links (session v).
Proof.
  revert v. induction events as [|event events IH]; intros v; simpl.
  { intros [= <-]. split; [apply grown_refl|done]. }
  destruct (handle v event) as [v1|] eqn:Hv1; [|done]. simpl.
  intros Hrun. destruct (IH _ Hrun) as [Hgrown Hlinks]. split.
  - eapply grown_trans; [by eapply handle_grown|done].
  - rewrite Hlinks. by apply handle_data in Hv1 as [-> _].
Qed.

Lemma counters_only_grow_witness :
  ∃ v', run (initialView [mkNode "form" "Form"] []) [Click "form"] = Some v' ∧
    grown (explorationData (session (initialView [mkNode "form" "Form"] [])))
      (explorationData (session v')).
Proof.
  eexists. split; [reflexivity|].
  refine (proj1 (counters_only_grow (initialView [mkNode "form" "Form"] []) _
                   [Click "form"] _)).
  reflexivity.
Defined.

End HandlersFacts.

(** ** The statistics panel *)

Module StatsFacts.

Import Stats.

Lemma fold_tally records : ∀ totals,
  totalExplored (fold_left tally records totals) = totalExplored totals + explored records ∧
  totalInsightful (fold_left tally records totals) +
  totalNeutral (fold_left tally records totals) +
  totalFamiliar (fold_left tally records totals) =
    totalInsightful totals + totalNeutral totals + totalFamiliar totals +
    feedbackOf records.
Proof.
  unfold explored.
  induction records as [|data records IH]; intros totals; simpl; [lia|].
  destruct (IH (tally totals data)) as [-> ->]. unfold tally, totalFeedback. simpl.
  destruct (0 <? visits data); simpl; lia.
Qed.

(** The accumulators do not depend on the order of the records. *)
Lemma totalsOf_perm records1 records2 :
  records1 ≡ₚ records2 → totalsOf records1 = totalsOf records2.
Proof.
  unfold totalsOf. generalize (mkTotals 0 0 0 0).
  intros totals Hperm. revert totals.
  induction Hperm as [|data l1 l2 _ IH|d1 d2 l|l1 l2 l3 _ IH1 _ IH2]; intros totals;
    simpl; [done|apply IH| |by rewrite IH1].
  f_equal. unfold tally. simpl.
  destruct (0 <? visits d1), (0 <? visits d2); f_equal; lia.
Qed.

Lemma size_list_to_set_le (ids : list string) :
  size (list_to_set ids : gset string) ≤ length ids.
Proof.
  induction ids as [|nodeId ids IH].
  { rewrite list_to_set_nil, size_empty. done. }
  rewrite list_to_set_cons, size_union_alt, size_singleton. cbn [length].
  assert (size (list_to_set ids ∖ {[nodeId]} : gset string) ≤ size (list_to_set ids : gset string))
    by (apply subseteq_size; set_solver).
  lia.
Qed.

(** X13. The statistics panel, for an exploration map whose keys are node
    ids and a graph with at least one node: the coverage lies between 0
    and 100, the number of under-explored nodes is not negative and adds
    up with the number of explored records to the number of nodes, the
    three feedback totals add up to the feedback of all records, and the
    accumulators are the same for every order in which the records are
    enumerated. *)
Theorem stats_range (explorationData : gmap string NodeExploration)
    (nodes : list RawNode) :
  dom explorationData ⊆ list_to_set (id <$> nodes) →
  nodes ≠ [] →
  let shown := stats explorationData nodes in
  let records := (map_to_list explorationData).*2 in
  (∃ rate, explorationRate shown = Some rate ∧ (0 <= rate ∧ rate <= 100)%Q) ∧
  (0 ≤ underExplored shown)%Z ∧
  (Z.of_nat (explored records) + underExplored shown = Z.of_nat (length nodes))%Z ∧
  insightfulShown shown + neutralShown shown + familiarShown shown = feedbackOf records ∧
  ∀ records', records' ≡ₚ records → totalsOf records' = totalsOf records.
Proof.
  intros Hdom Hnodes. cbn zeta. unfold stats. cbn [explorationRate underExplored
    insightfulShown neutralShown familiarShown].
  set (records := (map_to_list explorationData).*2).
  destruct (fold_tally records (mkTotals 0 0 0 0)) as [Hexplored Hfeedback].
  fold (totalsOf records) in Hexplored, Hfeedback. simpl in Hexplored, Hfeedback.
  rewrite Hexplored.
  assert (explored records ≤ length nodes) as Hle.
  { unfold explored. etrans; [apply filter_length_le|].
    unfold records. rewrite length_fmap, length_map_to_list, <- size_dom.
    etrans; [apply (subseteq_size _ _ Hdom)|].
    etrans; [apply size_list_to_set_le|]. by rewrite length_fmap. }
  assert (0 < length nodes) as Hpos by (destruct nodes; [done|simpl; lia]).
  destruct (Nat.eqb_spec (length nodes) 0) as [?|_]; [lia|].
  split; [|split; [lia|split; [lia|split; [done|]]]].
  - eexists. split; [done|].
    pose proof (num_nonneg (explored records)) as Hnum.
    pose proof (num_pos _ Hpos) as Hden.
    assert (num (explored records) <= num (length nodes))%Q as Hq.
    { unfold num. rewrite <- Zle_Qle. lia. }
    assert (0 <= num (explored records) / num (length nodes) ∧
            num (explored records) / num (length nodes) <= 1)%Q as [H0 H1].
    { split; [apply Qle_shift_div_l|apply Qle_shift_div_r]; try done; lra. }
    split; lra.
  - intros records' Hperm. by apply totalsOf_perm.
Qed.

Lemma stats_range_witness :
  (0 ≤ underExplored (stats {[ "form" := mkExploration 1 0 0 0 ]}
                        [mkNode "form" "Form"; mkNode "function" "Function"]))%Z.
Proof.
  apply (stats_range {[ "form" := mkExploration 1 0 0 0 ]}
           [mkNode "form" "Form"; mkNode "function" "Function"]).
  - rewrite dom_singleton_L. simpl. set_solver.
  - done.
Defined.

End StatsFacts.

(** ** Node sizes in the 2D graph *)

Module Graph2DFacts.

Import Randomize Graph2D.

Lemma filter_length_sublist {A} (f : A → bool) (l1 l2 : list A) :
  l1 `sublist_of` l2 → length (List.filter f l1) ≤ length (List.filter f l2).
Proof.
  induction 1 as [|x l1 l2 _ IH|x l1 l2 _ IH]; simpl; [done| |].
  - destruct (f x); simpl; lia.
  - destruct (f x); simpl; lia.
Qed.

Lemma touches_count nodeId links :
  length (List.filter (touches nodeId) links) + loops nodeId links =
  outDegree links nodeId + inDegree links nodeId.
Proof.
  unfold loops, outDegree, inDegree, touches.
  induction links as [|l links IH]; simpl; [done|].
  destruct (String.eqb (source l) nodeId), (String.eqb (target l) nodeId); simpl; lia.
Qed.

(** X14. The size of a node in the 2D graph lies between 25 and 55.  A
    node that is neither a main node nor the feedback loop has size
    [25 + 3 c] capped at 45, where [c] counts the links at the node, a
    link from the node to itself once (the lower bound of the [Math.max]
    never applies); it is 45 from seven links on.  Adding links never
    shrinks a node.  The total that a click shows is [c] plus the links
    from the node to itself. *)
Theorem getNodeSize_range (nodeId : string) (links : list RawLink) :
  25 ≤ getNodeSize nodeId links ≤ 55 ∧
  (nodeId ∉ mainNodes → nodeId ≠ "feedbackLoop" →
     getNodeSize nodeId links =
       Nat.min 45 (25 + 3 * length (List.filter (touches nodeId) links)) ∧
     (getNodeSize nodeId links = 45 ↔
      7 ≤ length (List.filter (touches nodeId) links))) ∧
  (∀ links', links `sublist_of` links' →
     getNodeSize nodeId links ≤ getNodeSize nodeId links') ∧
  (∀ d, id d = nodeId →
     connections (nodeInfo d links) =
       length (List.filter (touches nodeId) links) + loops nodeId links ∧
     connections (nodeInfo d links) =
       outgoing (nodeInfo d links) + incoming (nodeInfo d links)).
Proof.
  unfold getNodeSize. split; [|split; [|split]].
  - case_bool_decide; [lia|]. destruct (String.eqb nodeId "feedbackLoop"); lia.
  - intros Hmain Hloop. rewrite bool_decide_eq_false_2 by done.
    destruct (String.eqb_spec nodeId "feedbackLoop"); [done|]. lia.
  - intros links' Hsub. case_bool_decide; [done|].
    destruct (String.eqb nodeId "feedbackLoop"); [done|].
    pose proof (filter_length_sublist (touches nodeId) _ _ Hsub). lia.
  - intros d <-. unfold nodeInfo. cbn [connections outgoing incoming].
    split; [|done]. by rewrite touches_count.
Qed.

End Graph2DFacts.

(** ** The size of a randomised edge list *)

Module RandomizeMoreFacts.

Import Randomize RandomizeFacts.

(** *** How many links the passes add *)

Lemma tryLink_length s t g :
  (tryLink s t g = g) ∨
  (length (newLinks (tryLink s t g)) = length (newLinks g) + 1 ∧
   getOr0 (outgoingCount (tryLink s t g)) s = getOr0 (outgoingCount g) s + 1 ∧
   getOr0 (incomingCount (tryLink s t g)) t = getOr0 (incomingCount g) t + 1).
Proof.
  unfold tryLink. destruct (_ && _); [|by left]. right.
  unfold addLink. cbn [newLinks outgoingCount incomingCount].
  rewrite length_app, !getOr0_insert, !String.eqb_refl. simpl. lia.
Qed.

Lemma fillOutgoing_length rand nodeIds sourceNode fuel : ∀ g g',
  fillOutgoing fuel rand nodeIds sourceNode g = Some g' →
  length (newLinks g') ≤
  length (newLinks g) + (minConnectionsPerNode - getOr0 (outgoingCount g) sourceNode).
Proof.
  unfold minConnectionsPerNode.
  induction fuel as [|fuel IH]; intros g g'; cbn [fillOutgoing];
    unfold minConnectionsPerNode;
    destruct (Nat.ltb_spec (getOr0 (outgoingCount g) sourceNode) 3) as [Hlt|Hge];
    try done; try (intros [= <-]; lia).
  unfold random. cbn zeta.
  destruct (pick (rand (drawn g)) nodeIds) as [targetNode|].
  - intros Hg'. apply IH in Hg'.
    destruct (tryLink_length sourceNode targetNode
      (mkGen (newLinks g) (usedPairs g) (outgoingCount g) (incomingCount g) (S (drawn g))))
      as [Hsame|(Hlen & Hout & _)].
    + rewrite Hsame in Hg'. simpl in Hg'. lia.
    + rewrite Hlen, Hout in Hg'. simpl in Hg'. lia.
  - intros Hg'. apply IH in Hg'. simpl in Hg'. lia.
Qed.

Lemma fillIncoming_length rand nodeIds targetNode fuel : ∀ g g',
  fillIncoming fuel rand nodeIds targetNode g = Some g' →
  length (newLinks g') ≤
  length (newLinks g) + (minConnectionsPerNode - getOr0 (incomingCount g) targetNode).
Proof.
  unfold minConnectionsPerNode.
  induction fuel as [|fuel IH]; intros g g'; cbn [fillIncoming];
    unfold minConnectionsPerNode;
    destruct (Nat.ltb_spec (getOr0 (incomingCount g) targetNode) 3) as [Hlt|Hge];
    try done; try (intros [= <-]; lia).
  unfold random. cbn zeta.
  destruct (pick (rand (drawn g)) nodeIds) as [sourceNode|].
  - intros Hg'. apply IH in Hg'.
    destruct (tryLink_length sourceNode targetNode
      (mkGen (newLinks g) (usedPairs g) (outgoingCount g) (incomingCount g) (S (drawn g))))
      as [Hsame|(Hlen & _ & Hin)].
    + rewrite Hsame in Hg'. simpl in Hg'. lia.
    + rewrite Hlen, Hin in Hg'. simpl in Hg'. lia.
  - intros Hg'. apply IH in Hg'. simpl in Hg'. lia.
Qed.

Lemma forEachNode_length (body : string → Gen → option Gen) :
  (∀ node g g', body node g = Some g' →
     length (newLinks g') ≤ length (newLinks g) + minConnectionsPerNode) →
  ∀ todo g g', forEachNode body todo g = Some g' →
    length (newLinks g') ≤ length (newLinks g) + minConnectionsPerNode * length todo.
Proof.
  intros Hbody. induction todo as [|node todo IH]; intros g g'; cbn [forEachNode].
  - intros [= <-]. lia.
  - destruct (body node g) as [g1|] eqn:Hg1; [|done]. intros Hg'.
    apply Hbody in Hg1. apply IH in Hg'. cbn [length]. lia.
Qed.

Lemma random_length rand g : length (newLinks (random rand g).2) = length (newLinks g).
Proof. done. Qed.

Lemma topUp_length rand nodeIds targetNumLinks remaining : ∀ g,
  length (newLinks (topUp remaining rand nodeIds targetNumLinks g)) ≤
  Nat.max targetNumLinks (length (newLinks g)).
Proof.
  induction remaining as [|remaining IH]; intros g; cbn [topUp];
    destruct (Nat.ltb_spec (length (newLinks g)) targetNumLinks) as [Hlt|Hge];
    try lia.
  pose proof (random_length rand g) as Hlen1.
  destruct (random rand g) as [r1 g1]. cbn [snd] in Hlen1.
  pose proof (random_length rand g1) as Hlen2.
  destruct (random rand g1) as [r2 g2]. cbn [snd] in Hlen2.
  destruct (pick r1 nodeIds) as [s|], (pick r2 nodeIds) as [t|];
    try (etrans; [apply IH|]; lia).
  etrans; [apply IH|].
  destruct (tryLink_length s t g2) as [->|(Hlen & _)]; lia.
Qed.

(** *** Out-degrees add up to at most the number of links *)

Lemma outDegree_filter links nodeId other :
  other ≠ nodeId →
  outDegree (List.filter (fun l => negb (String.eqb (source l) nodeId)) links) other =
  outDegree links other.
Proof.
  intros Hne. unfold outDegree. induction links as [|l links IH]; [done|]. simpl.
  destruct (String.eqb_spec (source l) nodeId) as [Heq|Hneq]; simpl.
  - destruct (String.eqb_spec (source l) other) as [Heq'|_]; [congruence|done].
  - destruct (String.eqb (source l) other); simpl; by rewrite IH.
Qed.

Lemma outDegree_sum (nodeIds : list string) : ∀ links : list RawLink,
  NoDup nodeIds →
  (∀ nodeId, nodeId ∈ nodeIds → minConnectionsPerNode ≤ outDegree links nodeId) →
  minConnectionsPerNode * length nodeIds ≤ length links.
Proof.
  induction nodeIds as [|nodeId nodeIds IH]; intros links Hnd Hout; [simpl; lia|].
  apply NoDup_cons in Hnd as [Hfresh Hnd].
  specialize (IH (List.filter (fun l => negb (String.eqb (source l) nodeId)) links) Hnd).
  assert (length links =
          outDegree links nodeId +
          length (List.filter (fun l => negb (String.eqb (source l) nodeId)) links))
    as Hsplit.
  { unfold outDegree. clear. induction links as [|l links IH]; [done|]. simpl.
    destruct (String.eqb (source l) nodeId); simpl; lia. }
  pose proof (Hout nodeId (list_elem_of_here _ _)) as Hfirst.
  cbn [length]. rewrite Hsplit.
  assert (minConnectionsPerNode * length nodeIds ≤
          length (List.filter (fun l => negb (String.eqb (source l) nodeId)) links))
    as Hrest.
  { apply IH. intros other Hother. rewrite outDegree_filter.
    - apply Hout. by apply list_elem_of_further.
    - intros ->. done. }
  lia.
Qed.

(** The three passes, when the first two return. *)
Lemma passes_spec fuel rand nodeIds targetNumLinks links :
  randomizeConnections fuel rand nodeIds targetNumLinks = Some links →
  (∀ l, l ∈ links → source l ∈ nodeIds ∧ target l ∈ nodeIds) ∧
  (∀ nodeId, nodeId ∈ nodeIds → minConnectionsPerNode ≤ outDegree links nodeId) ∧
  length links ≤ Nat.max targetNumLinks (2 * minConnectionsPerNode * length nodeIds).
Proof.
  unfold randomizeConnections.
  destruct (forEachNode (fillOutgoing fuel rand nodeIds) nodeIds (initialGen nodeIds))
    as [g1|] eqn:Hpass1; [|done].
  destruct (forEachNode (fillIncoming fuel rand nodeIds) nodeIds g1)
    as [g2|] eqn:Hpass2; [|done].
  intros [= <-].
  destruct (firstPass_spec fuel rand nodeIds g1 Hpass1) as [Hinv1 Hout].
  destruct (forEachNode_spec nodeIds (fillIncoming fuel rand nodeIds)
    (fun node g => minConnectionsPerNode ≤ inDegree (newLinks g) node))
    with (todo := nodeIds) (g := g1) (g' := g2)
    as (Hinv2 & Hgrow2 & Hin); [| |done|done|done|].
  { intros node g g' Hnode. by apply fillIncoming_spec. }
  { intros node g g' Hgrow Hreached. destruct (Hgrow node). lia. }
  destruct (topUp_spec rand nodeIds targetNumLinks (targetNumLinks * 10) g2 Hinv2)
    as [Hinv3 Hgrow3].
  split; [exact (inv_within _ _ Hinv3)|]. split.
  - intros nodeId Hnode. specialize (Hout nodeId Hnode).
    destruct (Hgrow2 nodeId), (Hgrow3 nodeId). lia.
  - etrans; [apply topUp_length|].
    apply (forEachNode_length (fillOutgoing fuel rand nodeIds)) in Hpass1.
    2:{ intros node g g' Hg'. apply fillOutgoing_length in Hg'. lia. }
    apply (forEachNode_length (fillIncoming fuel rand nodeIds)) in Hpass2.
    2:{ intros node g g' Hg'. apply fillIncoming_length in Hg'. lia. }
    unfold initialGen in Hpass1. cbn [newLinks length] in Hpass1.
    unfold minConnectionsPerNode in *. lia.
Qed.

(** X15. The size of a randomised edge list.  Every link that
    [randomizeConnections] returns joins two ids of the node list; there
    are at most as many links as the original graph had, or six per
    listed node if that is more; and for a node list without duplicates
    there are at least three per node. *)
Theorem randomizeConnections_size (fuel : nat) (rand : Source)
    (nodeIds : list string) (targetNumLinks : nat) (links : list RawLink) :
  randomizeConnections fuel rand nodeIds targetNumLinks = Some links →
  (∀ l, l ∈ links → source l ∈ nodeIds ∧ target l ∈ nodeIds) ∧
  length links ≤ Nat.max targetNumLinks (6 * length nodeIds) ∧
  (NoDup nodeIds → 3 * length nodeIds ≤ length links).
Proof.
  intros Hrun. apply passes_spec in Hrun as (Hwithin & Hout & Hlen).
  unfold minConnectionsPerNode in *.
  split; [done|]. split; [lia|].
  intros Hnd. by apply (outDegree_sum nodeIds links Hnd).
Qed.

Lemma randomizeConnections_size_witness :
  ∃ links,
    randomizeConnections 20 quarters
      ["form"; "function"; "material"; "emotion"; "process"] 18 = Some links ∧
    length links ≤ Nat.max 18 (6 * 5) ∧ 3 * 5 ≤ length links.
Proof.
  destruct (randomizeConnections 20 quarters
              ["form"; "function"; "material"; "emotion"; "process"] 18)
    as [links|] eqn:Hrun; [|vm_compute in Hrun; discriminate Hrun].
  exists links. split; [reflexivity|].
  destruct (randomizeConnections_size 20 quarters
    ["form"; "function"; "material"; "emotion"; "process"] 18 links Hrun)
    as (_ & Hmax & Hmin).
  split; [exact Hmax|]. apply Hmin.
  apply (bool_decide_unpack _). vm_compute. exact I.
Defined.

End RandomizeMoreFacts.

(** ** How many random values the layout draws *)

Module DrawsFacts.

Import Randomize Layout LayoutFacts.

Section Draws.

Context {number : Type} {arith : Arith number}.

Local Abbreviation Positions := (@Layout.Positions number).
Local Abbreviation initialise := (@Layout.initialise number arith).
Local Abbreviation integration := (@Layout.integration number arith).
Local Abbreviation integrate := (@Layout.integrate number arith).
Local Abbreviation step := (@Layout.step number arith).
Local Abbreviation simulate := (@Layout.simulate number arith).
Local Abbreviation forceDirectedLayout := (@Layout.forceDirectedLayout number arith).

(** Four values per node place the nodes. *)
Lemma initialise_drawn rand count nodes : ∀ i (st : Positions * nat),
  (initialise true rand count nodes i st).2 = st.2 + 4 * length nodes.
Proof.
  induction nodes as [|node nodes IH]; intros i [positions drawn]; cbn [Layout.initialise].
  - simpl. lia.
  - rewrite IH. cbn [length]. unfold place, Layout.random. simpl. lia.
Qed.

(** Two values per node jitter the nodes while [iter < iterations / 3]. *)
Lemma integration_drawn rand iter iterations nodes : ∀ (st st' : Positions * nat),
  integration true rand iter iterations nodes st = Some st' →
  st'.2 = st.2 + (if iter * 3 <? iterations then 2 * length nodes else 0).
Proof.
  induction nodes as [|node nodes IH]; intros [positions drawn] st';
    cbn [Layout.integration].
  - intros [= <-]. simpl. destruct (_ <? _); lia.
  - unfold Layout.integrate. cbn [andb].
    destruct (Layout.get positions (id node)) as [pos|]; [|done]. simpl.
    destruct (iter * 3 <? iterations) eqn:Hjitter; simpl.
    + intros Hst'. apply IH in Hst'. simpl in *. lia.
    + intros Hst'. apply IH in Hst'. simpl in *. lia.
Qed.

(** The iterations from [iter] on that jitter are those below [bound]. *)
Lemma simulate_drawn rand nodes links iterations bound todo :
  (∀ iter, iter * 3 < iterations ↔ iter < bound) →
  ∀ iter (st st' : Positions * nat),
  simulate true rand nodes links todo iter iterations st = Some st' →
  st'.2 = st.2 + 2 * length nodes * (Nat.min (iter + todo) bound - Nat.min iter bound).
Proof.
  intros Hbound. induction todo as [|todo IH]; intros iter [positions drawn] st';
    cbn [Layout.simulate].
  - intros [= <-]. simpl. rewrite Nat.add_0_r. lia.
  - unfold Layout.step.
    destruct (repulsion nodes positions) as [p1|]; [|done]. simpl.
    destruct (Layout.forEach attract links p1) as [p2|]; [|done]. simpl.
    destruct (integration true rand iter iterations nodes (p2, drawn))
      as [st1|] eqn:Hint; [|done].
    simpl. intros Hst'. apply IH in Hst'. apply integration_drawn in Hint.
    rewrite Hst', Hint. cbn [snd].
    destruct (Nat.ltb_spec (iter * 3) iterations) as [Hlt|Hge].
    + apply Hbound in Hlt.
      assert (Nat.min (iter + S todo) bound - Nat.min iter bound =
              1 + (Nat.min (S iter + todo) bound - Nat.min (S iter) bound)) as -> by lia.
      lia.
    + assert (¬ iter < bound) by (intros Hlt; apply Hbound in Hlt; lia).
      assert (Nat.min (iter + S todo) bound - Nat.min iter bound =
              Nat.min (S iter + todo) bound - Nat.min (S iter) bound) as -> by lia.
      lia.
Qed.

End Draws.

(** X16. With [randomize], the layout draws 138 values per node from the
    random source: four to place the node, and two to jitter it in each of
    the first 67 of the 200 iterations.  This holds for every
    arithmetic. *)
Theorem forceDirectedLayout_draws {number : Type} `{Arith number}
    (rand : Source) (nodes : list RawNode) (links : list RawLink) :
  ∃ positions,
    forceDirectedLayout rand nodes links true = Some (positions, 138 * length nodes).
Proof.
  destruct (simulated_keys rand nodes links true) as (raw & drawn & Hsim & -> & _).
  exists (normalize raw). do 2 f_equal.
  apply (simulate_drawn rand nodes links 200 67) in Hsim; [|intros iter; lia].
  simpl in Hsim. rewrite Hsim, initialise_drawn. simpl. lia.
Qed.

End DrawsFacts.

(** ** The layout fits the viewport, and loops exert no force *)

Module ViewportFacts.

Import Randomize Layout LayoutFacts.

Local Open Scope R_scope.



(** *** A link from a node to itself exerts no force *)

Lemma mutate_same (positions : @Positions R) key pos (f : Position R → Position R) :
  get positions key = Some pos → f pos = pos → mutate positions key f = positions.
Proof.
  intros Hget Hf. induction positions as [|[k p] positions IH]; [done|].
  cbn [get mutate] in *. destruct (String.eqb k key).
  - injection Hget as ->. by rewrite Hf.
  - by rewrite IH.
Qed.

Lemma attract_loop (positions : @Positions R) link :
  source link = target link → attract link positions = Some positions.
Proof.
  intros Hloop. unfold attract. rewrite <- Hloop.
  destruct (get positions (source link)) as [pos|] eqn:Hget; [|done].
  cbn [plus minus times divide exact].
  rewrite (mutate_same positions (source link) pos).
  - rewrite (mutate_same positions (source link) pos); [done|done|].
    destruct pos as [px py pvx pvy]. cbn [x y vx vy]. f_equal; unfold Rdiv; ring.
  - done.
  - destruct pos as [px py pvx pvy]. cbn [x y vx vy]. f_equal; unfold Rdiv; ring.
Qed.

Lemma attraction_loops (links : list RawLink) : ∀ positions : @Positions R,
  forEach attract links positions =
  forEach attract
    (List.filter (fun link => negb (String.eqb (source link) (target link))) links)
    positions.
Proof.
  induction links as [|link links IH]; intros positions; [done|].
  cbn [List.filter forEach].
  destruct (String.eqb_spec (source link) (target link)) as [Hloop|Hne]; cbn [negb].
  - rewrite (attract_loop positions link Hloop). simpl. apply IH.
  - cbn [forEach]. destruct (attract link positions); simpl; [apply IH|done].
Qed.

Lemma simulate_loops randomize rand nodes links iterations todo :
  ∀ iter (st : @Positions R * nat),
  simulate randomize rand nodes links todo iter iterations st =
  simulate randomize rand nodes
    (List.filter (fun link => negb (String.eqb (source link) (target link))) links)
    todo iter iterations st.
Proof.
  induction todo as [|todo IH]; intros iter [positions drawn]; [done|].
  cbn [simulate]. unfold step.
  destruct (repulsion nodes positions) as [p1|]; [|done]. simpl.
  rewrite attraction_loops.
  destruct (forEach attract _ p1) as [p2|]; [|done]. simpl.
  destruct (integration _ _ _ _ _ _) as [st1|]; [|done]. simpl. apply IH.
Qed.

(** X18. A link from a node to itself exerts no force: in exact
    arithmetic the layout is the one computed without such links. *)
Theorem forceDirectedLayout_loops (rand : Source) (nodes : list RawNode)
    (links : list RawLink) (randomize : bool) :
  forceDirectedLayout (number := R) rand nodes links randomize =
  forceDirectedLayout (number := R) rand nodes
    (List.filter (fun link => negb (String.eqb (source link) (target link))) links)
    randomize.
Proof.
  unfold forceDirectedLayout. by rewrite simulate_loops.
Qed.

End ViewportFacts.

(** ** The 3D scene of the map *)

Module SceneFacts.

Import Layers LayersFacts Distance DistanceFacts AdaptiveFacts Session Layout LayoutFacts Scene.

(** *** Maps filled entry by entry *)

Lemma setAll_snoc {V} (entries : list (string * V)) key value :
  setAll (entries ++ [(key, value)]) = <[key := value]> (setAll entries).
Proof. unfold setAll. by rewrite fold_left_app. Qed.

Lemma setAll_dom {V} (entries : list (string * V)) :
  dom (setAll entries) = list_to_set entries.*1.
Proof.
  induction entries as [|[key value] entries IH] using rev_ind; [set_solver|].
  rewrite setAll_snoc, dom_insert_L, IH, fmap_app, list_to_set_app_L. set_solver.
Qed.

Lemma setAll_lookup {V} (entries : list (string * V)) key value :
  setAll entries !! key = Some value → (key, value) ∈ entries.
Proof.
  induction entries as [|[k v] entries IH] using rev_ind; [done|].
  rewrite setAll_snoc. destruct (decide (k = key)) as [->|Hne].
  - rewrite lookup_insert_eq. intros [= ->]. apply elem_of_app. right.
    apply list_elem_of_here.
  - rewrite lookup_insert_ne by done. intros Hin. apply elem_of_app. left. by apply IH.
Qed.

(** For distinct keys the map holds every entry. *)
Lemma setAll_lookup_NoDup {V} (entries : list (string * V)) key value :
  NoDup entries.*1 → (key, value) ∈ entries → setAll entries !! key = Some value.
Proof.
  induction entries as [|[k v] entries IH] using rev_ind; intros Hnd Hin.
  { by apply elem_of_nil in Hin. }
  rewrite fmap_app in Hnd. apply NoDup_app in Hnd as (Hnd & Hfresh & _).
  rewrite setAll_snoc. apply elem_of_app in Hin as [Hin|Hin].
  - rewrite lookup_insert_ne; [by apply IH|].
    intros ->. apply (Hfresh key); [|apply list_elem_of_here].
    apply list_elem_of_fmap. by exists (key, value).
  - apply list_elem_of_singleton in Hin as [= -> ->]. apply lookup_insert_eq.
Qed.


(** *** Which nodes have a position *)

Section PositionsFacts.

Context {number : Type} {arith : Arith number}.

Local Abbreviation ringEntries := (@Scene.ringEntries number arith).
Local Abbreviation ringPosition := (@Scene.ringPosition number arith).
Local Abbreviation hierarchicalPositions := (@Scene.hierarchicalPositions number arith).
Local Abbreviation twoDPositions := (@Scene.twoDPositions number arith).
Local Abbreviation nodePositions := (@Scene.nodePositions number).
Local Abbreviation hierarchicalLines := (@Scene.hierarchicalLines number).
Local Abbreviation twoDLines := (@Scene.twoDLines number).
Local Abbreviation linesFrom := (@Scene.linesFrom number).
Local Abbreviation drawn := (@Scene.drawn number).

(** The entries of the layers from index [first] on. *)
Lemma ringEntries_from (layers : list NodeLayer) : ∀ first,
  mjoin (imap (fun levelIdx layer =>
    imap (fun nodeIdx nodeId =>
      (nodeId, ringPosition (first + levelIdx) (length (nodes layer)) nodeIdx))
      (nodes layer)) layers) =
  match layers with
  | [] => []
  | layer :: layers =>
    imap (fun nodeIdx nodeId =>
      (nodeId, ringPosition first (length (nodes layer)) nodeIdx)) (nodes layer) ++
    mjoin (imap (fun levelIdx layer =>
      imap (fun nodeIdx nodeId =>
        (nodeId, ringPosition (S first + levelIdx) (length (nodes layer)) nodeIdx))
        (nodes layer)) layers)
  end.
Proof.
  intros first. destruct layers as [|layer layers]; [done|].
  cbn [imap mjoin list_join]. rewrite Nat.add_0_r. f_equal. f_equal.
  apply imap_ext. intros i la _. simpl. apply imap_ext. intros j n _.
  by rewrite Nat.add_succ_r.
Qed.

Lemma ringEntries_elem_of (layers : list NodeLayer) nodeId pos : ∀ first,
  (nodeId, pos) ∈ mjoin (imap (fun levelIdx layer =>
    imap (fun nodeIdx nodeId =>
      (nodeId, ringPosition (first + levelIdx) (length (nodes layer)) nodeIdx))
      (nodes layer)) layers) ↔
  ∃ levelIdx layer nodeIdx,
    layers !! levelIdx = Some layer ∧ nodes layer !! nodeIdx = Some nodeId ∧
    pos = ringPosition (first + levelIdx) (length (nodes layer)) nodeIdx.
Proof.
  induction layers as [|layer layers IH]; intros first.
  { split; [intros Hin; by apply elem_of_nil in Hin|by intros (? & ? & ? & ? & _)]. }
  rewrite ringEntries_from, elem_of_app, IH, elem_of_lookup_imap. split.
  - intros [(nodeIdx & n & [= <- ->] & Hn)|(levelIdx & la & nodeIdx & Hla & Hn & ->)].
    + exists 0, layer, nodeIdx. by rewrite Nat.add_0_r.
    + exists (S levelIdx), la, nodeIdx. split; [done|]. split; [done|].
      by rewrite Nat.add_succ_r.
  - intros ([|levelIdx] & la & nodeIdx & Hla & Hn & ->).
    + injection Hla as <-. left. exists nodeIdx, nodeId. by rewrite Nat.add_0_r.
    + right. exists levelIdx, la, nodeIdx. split; [done|]. split; [done|].
      by rewrite Nat.add_succ_r.
Qed.

(** A node has a position in the hierarchical view exactly when a layer
    lists it. *)
Lemma hierarchicalPositions_is_Some active (layers : list NodeLayer) nodeId :
  active ≠ "" →
  is_Some (hierarchicalPositions (Some active) layers !! nodeId) ↔
  nodeId ∈ flatten layers.
Proof.
  intros Hactive. unfold Scene.hierarchicalPositions.
  rewrite (HandlersFacts.truthy_nonempty _ Hactive). cbn [negb orb].
  destruct layers as [|layer layers].
  { simpl. rewrite lookup_empty. split; [by intros [? ?]|intros Hin; by apply elem_of_nil in Hin]. }
  cbn [length Nat.eqb].
  rewrite <- elem_of_dom, setAll_dom, elem_of_list_to_set, list_elem_of_fmap.
  rewrite elem_of_flatten. split.
  - intros ([n pos] & -> & Hin).
    apply (ringEntries_elem_of (layer :: layers) n pos 0) in Hin
      as (levelIdx & la & nodeIdx & Hla & Hn & _).
    exists la. split; [by eapply list_elem_of_lookup_2|by eapply list_elem_of_lookup_2].
  - intros (la & Hla & Hn).
    apply list_elem_of_lookup_1 in Hla as [levelIdx Hla].
    apply list_elem_of_lookup_1 in Hn as [nodeIdx Hn].
    exists (nodeId, ringPosition (0 + levelIdx) (length (nodes la)) nodeIdx).
    split; [done|].
    apply (ringEntries_elem_of (layer :: layers) nodeId _ 0). eauto 10.
Qed.

Lemma isNodeInPath_flatten (layers : list NodeLayer) nodeId :
  isNodeInPath layers nodeId = true ↔ nodeId ∈ flatten layers.
Proof.
  unfold isNodeInPath. rewrite existsb_exists, elem_of_flatten.
  split; intros (la & Hla & Hn); exists la.
  - apply bool_decide_eq_true in Hn. split; [by apply list_elem_of_In|done].
  - split; [by apply list_elem_of_In|by apply bool_decide_eq_true].
Qed.

Lemma elem_of_drawn (nodes : list RawNode) positions node :
  node ∈ drawn nodes positions ↔ node ∈ nodes ∧ is_Some (positions !! id node).
Proof.
  unfold Scene.drawn. rewrite list_elem_of_In, filter_In, <- list_elem_of_In.
  by rewrite bool_decide_eq_true.
Qed.


(** An entry of the hierarchical view is the ring position of a place in
    the layers. *)
Lemma hierarchicalPositions_lookup activeNode (layers : list NodeLayer) nodeId pos :
  hierarchicalPositions activeNode layers !! nodeId = Some pos →
  ∃ levelIdx layer nodeIdx,
    layers !! levelIdx = Some layer ∧ nodes layer !! nodeIdx = Some nodeId ∧
    pos = ringPosition levelIdx (length (nodes layer)) nodeIdx.
Proof.
  unfold Scene.hierarchicalPositions. destruct (_ || _); [done|].
  intros Hpos. apply setAll_lookup in Hpos.
  by apply (ringEntries_elem_of layers nodeId pos 0) in Hpos.
Qed.

Lemma isConnected_edge links sourceId targetId :
  isConnected links sourceId targetId = true ↔ edge links sourceId targetId.
Proof.
  unfold isConnected, edge. rewrite existsb_exists, list_elem_of_In. split.
  - intros ([s t] & Hin & Heq). simpl in Heq.
    apply andb_true_iff in Heq as [Hs Ht].
    apply String.eqb_eq in Hs, Ht. by subst.
  - intros Hin. exists (mkLink sourceId targetId). split; [done|].
    simpl. by rewrite !String.eqb_refl.
Qed.

Lemma elem_of_linesFrom links (positions : gmap string (Vector3 number)) nextLayer
    sourceId line :
  line ∈ linesFrom links positions nextLayer sourceId ↔
  ∃ targetId,
    targetId ∈ nodes nextLayer ∧ edge links sourceId targetId ∧
    positions !! sourceId = Some line.1 ∧ positions !! targetId = Some line.2.
Proof.
  unfold Scene.linesFrom.
  destruct (positions !! sourceId) as [sourcePos|].
  2:{ split; [intros Hin; by apply elem_of_nil in Hin|by intros (? & _ & _ & ? & _)]. }
  rewrite list_elem_of_In, in_flat_map. split.
  - intros (targetId & Ht & Hline). exists targetId.
    destruct (isConnected links sourceId targetId) eqn:Hc; [|done].
    apply isConnected_edge in Hc.
    destruct (positions !! targetId) as [targetPos|]; [|done].
    destruct Hline as [<-|[]]. by rewrite list_elem_of_In.
  - intros (targetId & Ht & He & [= ->] & Hto). exists targetId.
    split; [by apply list_elem_of_In|].
    apply isConnected_edge in He. rewrite He, Hto. left. by destruct line.
Qed.

Lemma elem_of_hierarchicalLines active (layers : list NodeLayer)
    (positions : gmap string (Vector3 number)) links line :
  active ≠ "" →
  line ∈ hierarchicalLines (Some active) layers positions links ↔
  ∃ levelIdx layer nextLayer sourceId targetId,
    layers !! levelIdx = Some layer ∧ layers !! S levelIdx = Some nextLayer ∧
    sourceId ∈ nodes layer ∧ targetId ∈ nodes nextLayer ∧
    edge links sourceId targetId ∧
    positions !! sourceId = Some line.1 ∧ positions !! targetId = Some line.2.
Proof.
  intros Hactive. unfold Scene.hierarchicalLines.
  rewrite (HandlersFacts.truthy_nonempty _ Hactive). cbn [negb orb].
  destruct (Nat.eqb_spec (length layers) 0) as [Hempty|Hlayers].
  { destruct layers; [|done]. split; [intros Hin; by apply elem_of_nil in Hin|].
    by intros (? & ? & ? & ? & ? & ? & _). }
  rewrite list_elem_of_join. split.
  - intros (lines & Hline & Hlines).
    apply elem_of_lookup_imap in Hlines as (levelIdx & layer & -> & Hlayer).
    destruct (levelIdx =? length layers - 1); [by apply elem_of_nil in Hline|].
    rewrite Nat.add_1_r in Hline.
    destruct (layers !! S levelIdx) as [nextLayer|] eqn:Hnext;
      [|by apply elem_of_nil in Hline].
    apply list_elem_of_In, in_flat_map in Hline as (sourceId & Hs & Hline).
    apply list_elem_of_In, elem_of_linesFrom in Hline as (targetId & Ht & He & Hfrom & Hto).
    exists levelIdx, layer, nextLayer, sourceId, targetId.
    by rewrite list_elem_of_In.
  - intros (levelIdx & layer & nextLayer & sourceId & targetId
            & Hlayer & Hnext & Hs & Ht & He & Hfrom & Hto).
    eexists. split; [|apply elem_of_lookup_imap; by exists levelIdx, layer].
    apply lookup_lt_Some in Hnext as Hlt.
    destruct (Nat.eqb_spec levelIdx (length layers - 1)) as [?|_]; [lia|].
    rewrite Nat.add_1_r, Hnext.
    apply list_elem_of_In, in_flat_map. exists sourceId.
    split; [by apply list_elem_of_In|].
    apply list_elem_of_In, elem_of_linesFrom. by exists targetId.
Qed.

End PositionsFacts.

(** X19. What the scene draws while no node is active: every node of the
    graph, at the place the 2D layout gives it, and one line for every link
    whose two ends are nodes of the graph; the other links get no line.
    This holds for every arithmetic, with or without [randomize]. *)
Theorem scene_flat {number : Type} `{Arith number}
    (rand : Randomize.Source) (nodes : list RawNode) (links : list RawLink)
    (randomize : bool) (hierarchical : gmap string (Vector3 number)) :
  ∃ layout2D count,
    forceDirectedLayout rand nodes links randomize = Some (layout2D, count) ∧
    drawn nodes (nodePositions None (twoDPositions layout2D) hierarchical) = nodes ∧
    (∀ node, node ∈ nodes →
       ∃ pos, Layout.get layout2D (id node) = Some pos ∧
         twoDPositions layout2D !! id node =
           Some (mkVector3 (Layout.x pos) (lit 0) (Layout.y pos))) ∧
    length (twoDLines None links (twoDPositions layout2D)) =
      length (List.filter (connected nodes) links).
Proof.
  destruct (forceDirectedLayout_returns rand nodes links randomize)
    as (layout2D & count & Hrun & Hnd & Hkeys).
  exists layout2D, count. split; [done|].
  assert (∀ nodeId, is_Some (twoDPositions layout2D !! nodeId) ↔ nodeId ∈ id <$> nodes)
    as Hdom.
  { intros nodeId. rewrite <- Hkeys, <- elem_of_dom. unfold twoDPositions.
    rewrite setAll_dom, elem_of_list_to_set. unfold keys.
    change (List.map ?f ?l) with (f <$> l). by rewrite <- list_fmap_compose. }
  split; [|split].
  - unfold drawn, nodePositions. cbn [truthy negb].
    apply forallb_filter_id, forallb_forall. intros node Hnode.
    apply bool_decide_eq_true, Hdom, list_elem_of_fmap_2. by apply list_elem_of_In.
  - intros node Hnode.
    assert (id node ∈ keys layout2D) as Hkey
      by (apply Hkeys; by apply list_elem_of_fmap_2).
    apply get_is_Some in Hkey as [pos Hpos]. exists pos. split; [done|].
    unfold twoDPositions. apply setAll_lookup_NoDup.
    + change (List.map ?f ?l) with (f <$> l). by rewrite <- list_fmap_compose.
    + clear -Hpos. induction layout2D as [|[k p] layout2D IH]; [done|].
      cbn [Layout.get] in Hpos. cbn [List.map]. destruct (String.eqb_spec k (id node)).
      * injection Hpos as ->. subst k. apply list_elem_of_here.
      * apply list_elem_of_further. by apply IH.
  - unfold twoDLines. cbn [truthy]. clear Hrun.
    induction links as [|link links IH]; [done|].
    cbn [omap list_omap List.filter].
    destruct (connected nodes link) eqn:Hconnected; unfold connected in Hconnected.
    + apply andb_true_iff in Hconnected as [Hs Ht].
      apply bool_decide_eq_true, Hdom in Hs as [from ->].
      apply bool_decide_eq_true, Hdom in Ht as [to ->].
      simpl. by rewrite IH.
    + assert (twoDPositions layout2D !! source link = None ∨
              twoDPositions layout2D !! target link = None) as [->| ->].
      { apply andb_false_iff in Hconnected as [Hs|Ht]; [left|right];
          apply eq_None_not_Some; rewrite Hdom.
        - by apply bool_decide_eq_false in Hs.
        - by apply bool_decide_eq_false in Ht. }
      * simpl. exact IH.
      * destruct (twoDPositions layout2D !! source link); simpl; exact IH.
Qed.

(** X20. What the scene draws while a node is active.  With the layers of
    the active node on display (in either mode), a node of the graph is
    drawn exactly when it can be reached from the active node, and every
    node that is drawn is drawn as active.  This holds for every
    arithmetic and whatever the 2D layout is. *)
Theorem scene_draws_reachable {number : Type} `{Arith number}
    (nodes : list RawNode) (links : list RawLink)
    (explorationData : gmap string NodeExploration) (cyberneticMode : bool)
    (active : string) (layout2D : gmap string (Vector3 number)) :
  active ≠ "" →
  ∃ layers,
    getAdaptiveHierarchicalLayers active links explorationData cyberneticMode =
      Some layers ∧
    ∀ node, node ∈ nodes →
      (node ∈ drawn nodes
                (nodePositions (Some active) layout2D
                   (hierarchicalPositions (Some active) layers)) ↔
       reachable links active (id node)) ∧
      (isActive (Some active) layers node = true ↔ reachable links active (id node)).
Proof.
  intros Hactive.
  destruct (layers_cover active links explorationData cyberneticMode)
    as (layers & Hlayers & _ & Hcover).
  exists layers. split; [done|]. intros node Hnode. split.
  - rewrite elem_of_drawn. unfold nodePositions.
    rewrite (HandlersFacts.truthy_nonempty _ Hactive). cbn [negb].
    rewrite hierarchicalPositions_is_Some by done. rewrite Hcover. tauto.
  - unfold isActive. rewrite orb_true_iff, isNodeInPath_flatten, Hcover.
    rewrite bool_decide_eq_true. split; [|by right].
    intros [[= ->]|?]; [apply rtc_refl|done].
Qed.

Lemma scene_draws_reachable_witness :
  ∃ layers,
    getAdaptiveHierarchicalLayers "A" diamond ∅ false = Some layers ∧
    (isActive (Some "A") layers (mkNode "D" "D") = true ↔ reachable diamond "A" "D").
Proof.
  destruct (scene_draws_reachable (number := R) [mkNode "D" "D"] diamond ∅ false "A" ∅)
    as (layers & Hlayers & Hdrawn); [done|].
  exists layers. split; [exact Hlayers|].
  apply (Hdrawn (mkNode "D" "D")). apply list_elem_of_here.
Defined.


(** X21. The lines of the hierarchical view.  Every line joins the
    positions of a node of one layer and a node of the next layer that a
    link connects.  In normal mode, every node beyond layer 0 has such a
    line from a node of the layer before it.  This holds for every
    arithmetic. *)
Theorem hierarchicalLines_tree {number : Type} `{Arith number}
    (links : list RawLink) (explorationData : gmap string NodeExploration)
    (active : string) :
  active ≠ "" →
  ∃ layers,
    getAdaptiveHierarchicalLayers active links explorationData false = Some layers ∧
    let positions := hierarchicalPositions (Some active) layers in
    let lines := hierarchicalLines (Some active) layers positions links in
    (∀ line, line ∈ lines →
       ∃ levelIdx layer nextLayer sourceId targetId,
         layers !! levelIdx = Some layer ∧ layers !! S levelIdx = Some nextLayer ∧
         sourceId ∈ nodes layer ∧ targetId ∈ nodes nextLayer ∧
         edge links sourceId targetId ∧
         positions !! sourceId = Some line.1 ∧ positions !! targetId = Some line.2) ∧
    (∀ levelIdx nextLayer targetId,
       layers !! S levelIdx = Some nextLayer → targetId ∈ nodes nextLayer →
       ∃ layer sourceId line,
         layers !! levelIdx = Some layer ∧ sourceId ∈ nodes layer ∧
         edge links sourceId targetId ∧ line ∈ lines ∧
         positions !! sourceId = Some line.1 ∧ positions !! targetId = Some line.2).
Proof.
  intros Hactive.
  destruct (standard_distance_classes active links explorationData)
    as (layers & Hlayers & Hrings & Hplace).
  exists layers. split; [done|]. cbn zeta. split.
  - intros line Hline. by apply elem_of_hierarchicalLines in Hline.
  - intros levelIdx nextLayer targetId Hnext Ht.
    destruct (Hrings _ _ Hnext) as (_ & _ & Hring).
    pose proof (distance_pred _ _ _ _ (proj1 (Hring targetId) Ht))
      as (sourceId & Hs & He).
    destruct (Hplace _ _ Hs) as (layer & Hlayer & Hsource).
    assert (is_Some (hierarchicalPositions (Some active) layers !! sourceId))
      as [sourcePos Hfrom].
    { apply hierarchicalPositions_is_Some; [done|]. apply elem_of_flatten.
      exists layer. split; [by eapply list_elem_of_lookup_2|done]. }
    assert (is_Some (hierarchicalPositions (Some active) layers !! targetId))
      as [targetPos Hto].
    { apply hierarchicalPositions_is_Some; [done|]. apply elem_of_flatten.
      exists nextLayer. split; [by eapply list_elem_of_lookup_2|done]. }
    exists layer, sourceId, (sourcePos, targetPos).
    split; [done|]. split; [done|]. split; [done|]. split; [|done].
    apply elem_of_hierarchicalLines; [done|].
    by exists levelIdx, layer, nextLayer, sourceId, targetId.
Qed.

Lemma hierarchicalLines_tree_witness :
  ∃ layers,
    getAdaptiveHierarchicalLayers "A" diamond ∅ false = Some layers ∧
    ∃ line,
      line ∈ hierarchicalLines (number := R) (Some "A") layers
               (hierarchicalPositions (Some "A") layers) diamond ∧
      hierarchicalPositions (Some "A") layers !! "D" = Some line.2.
Proof.
  destruct (hierarchicalLines_tree (number := R) diamond ∅ "A")
    as (layers & Hlayers & _ & Hlines); [done|].
  exists layers. split; [exact Hlayers|].
  injection Hlayers as <-.
  destruct (Hlines 1 (mkLayer 2 ["D"; "D"]) "D" eq_refl (list_elem_of_here _ _))
    as (_ & _ & line & _ & _ & _ & Hline & _ & Hto).
  exists line. split; [exact Hline|exact Hto].
Defined.

(** *** Layer changes: the markers of the scene and the counters of the
    left panel *)

Lemma levelPairs_keys layers : (levelPairs layers).*1 = flatten layers.
Proof.
  unfold levelPairs, flatten. induction layers as [|layer layers IH]; [done|].
  cbn [flat_map]. rewrite fmap_app, IH. f_equal.
  rewrite <- list_fmap_compose. apply list_fmap_id.
Qed.

(** The counters, as one loop over the pairs. *)
Lemma layerChanges_pairs layers previousLayers :
  layerChanges layers previousLayers =
  fold_left (fun '(promoted, demoted) '(nodeId, currentLevel) =>
    match layerMap previousLayers !! nodeId with
    | Some prevLevel =>
      if prevLevel =? currentLevel then (promoted, demoted)
      else if currentLevel <? prevLevel then (promoted + 1, demoted)
      else (promoted, demoted + 1)
    | None => (promoted, demoted)
    end) (levelPairs layers) (0, 0).
Proof.
  unfold layerChanges, levelPairs. generalize (0, 0).
  induction layers as [|layer layers IH]; intros counters; [done|].
  cbn [fold_left flat_map]. rewrite fold_left_app, <- IH. f_equal.
  generalize counters. clear. induction (nodes layer) as [|nodeId ids IH];
    intros counters; [done|].
  cbn [fold_left fmap list_fmap]. rewrite <- IH. by destruct counters.
Qed.

Lemma counters_flagged previousLayerMap (pairs : list (string * nat)) : ∀ counters,
  let counters' :=
    fold_left (fun '(promoted, demoted) '(nodeId, currentLevel) =>
      match previousLayerMap !! nodeId with
      | Some prevLevel =>
        if prevLevel =? currentLevel then (promoted, demoted)
        else if currentLevel <? prevLevel then (promoted + 1, demoted)
        else (promoted, demoted + 1)
      | None => (promoted, demoted)
      end) pairs counters in
  counters'.1 + counters'.2 =
  counters.1 + counters.2 +
  length (List.filter (fun pair => bool_decide (is_Some (flagged previousLayerMap pair.1 pair.2)))
            pairs).
Proof.
  induction pairs as [|[nodeId currentLevel] pairs IH]; intros [promoted demoted];
    cbn zeta; [simpl; lia|].
  cbn [fold_left List.filter]. cbn zeta in IH. rewrite IH. unfold flagged. cbn [fst snd].
  destruct (previousLayerMap !! nodeId) as [prevLevel|]; [|simpl; lia].
  destruct (prevLevel =? currentLevel); [simpl; lia|].
  destruct (currentLevel <? prevLevel); simpl; lia.
Qed.

Lemma flagged_size previousLayerMap (pairs : list (string * nat)) :
  NoDup pairs.*1 →
  size (map_imap (flagged previousLayerMap) (setAll pairs)) =
  length (List.filter (fun pair => bool_decide (is_Some (flagged previousLayerMap pair.1 pair.2)))
            pairs).
Proof.
  induction pairs as [|[nodeId currentLevel] pairs IH] using rev_ind; intros Hnd.
  { unfold setAll. simpl. by rewrite map_imap_empty, map_size_empty. }
  rewrite fmap_app in Hnd. apply NoDup_app in Hnd as (Hnd & Hfresh & _).
  assert (setAll pairs !! nodeId = None) as Hnone.
  { apply not_elem_of_dom. rewrite setAll_dom, elem_of_list_to_set.
    intros Hin. apply (Hfresh nodeId Hin). apply list_elem_of_here. }
  rewrite setAll_snoc, List.filter_app, length_app, <- IH by done.
  rewrite map_imap_insert. cbn [List.filter fst snd].
  destruct (flagged previousLayerMap nodeId currentLevel) as [change|] eqn:Hflag.
  - rewrite bool_decide_eq_true_2 by done.
    rewrite map_size_insert_None; [simpl; lia|].
    by rewrite map_lookup_imap, Hnone.
  - rewrite bool_decide_eq_false_2 by (by intros [? ?]).
    rewrite delete_id; [simpl; lia|]. by rewrite map_lookup_imap, Hnone.
Qed.

(** X22. Layer changes.  A node flagged by [changedLayerNodes] has
    different levels in the previous and in the current layering; a
    layering compared with itself flags no node.  When no id is listed
    twice in the current layering, the promotions and demotions that the
    left panel counts add up to the number of flagged nodes. *)
Theorem layer_changes_agree (previousLayers hierarchicalLayers : list NodeLayer) :
  (∀ nodeId from to,
     changedLayerNodes true previousLayers hierarchicalLayers !! nodeId =
       Some (from, to) →
     from ≠ to ∧ layerMap previousLayers !! nodeId = Some from ∧
     layerMap hierarchicalLayers !! nodeId = Some to) ∧
  changedLayerNodes true hierarchicalLayers hierarchicalLayers = ∅ ∧
  (previousLayers ≠ [] → NoDup (flatten hierarchicalLayers) →
   (layerChanges hierarchicalLayers previousLayers).1 +
   (layerChanges hierarchicalLayers previousLayers).2 =
   size (changedLayerNodes true previousLayers hierarchicalLayers)).
Proof.
  split; [|split].
  - intros nodeId from to. unfold changedLayerNodes. cbn [negb orb].
    destruct (length previousLayers =? 0); [done|].
    cbn zeta. rewrite map_lookup_imap.
    destruct (layerMap hierarchicalLayers !! nodeId) as [currentLevel|]; [|done].
    simpl. unfold flagged.
    destruct (layerMap previousLayers !! nodeId) as [previousLevel|]; [|done].
    destruct (Nat.eqb_spec previousLevel currentLevel); [done|].
    by intros [= <- <-].
  - unfold changedLayerNodes. cbn [negb orb].
    destruct (length hierarchicalLayers =? 0); [done|].
    apply map_eq. intros nodeId. cbn zeta. rewrite map_lookup_imap, lookup_empty.
    unfold flagged.
    destruct (layerMap hierarchicalLayers !! nodeId) as [currentLevel|]; [|done].
    simpl. by rewrite Nat.eqb_refl.
  - intros Hprevious Hnd. unfold changedLayerNodes. cbn [negb orb].
    destruct (Nat.eqb_spec (length previousLayers) 0) as [Hzero|_].
    { by destruct previousLayers. }
    rewrite layerChanges_pairs.
    pose proof (counters_flagged (layerMap previousLayers) (levelPairs hierarchicalLayers)
                  (0, 0)) as Hcount.
    cbn zeta in Hcount. rewrite Hcount. cbn [fst snd].
    change (layerMap hierarchicalLayers) with (setAll (levelPairs hierarchicalLayers)).
    rewrite flagged_size; [done|]. by rewrite levelPairs_keys.
Qed.

(** *** The rings of the hierarchical view, in exact arithmetic *)

Local Open Scope R_scope.

Lemma int_exact (n : nat) : int (number := R) n = INR n.
Proof.
  unfold int. cbn [lit exact]. unfold Q2R. simpl.
  rewrite INR_IZR_INZ. lra.
Qed.

(** X23. The rings of the hierarchical view, in exact arithmetic: a node
    listed by the layer at index [i] of [k] ids stands at height
    [4 - 1.8 i], on the circle of radius [min(3, 0.4 k)] around the
    vertical axis, hence never further than 3 from it. *)
Theorem hierarchicalPositions_rings (activeNode : option string)
    (layers : list NodeLayer) (nodeId : string) (pos : Vector3 R) :
  hierarchicalPositions (number := R) activeNode layers !! nodeId = Some pos →
  ∃ levelIdx layer,
    layers !! levelIdx = Some layer ∧ nodeId ∈ nodes layer ∧
    y pos = 4 - INR levelIdx * (9 / 5) ∧
    x pos * x pos + z pos * z pos =
      Rsqr (Rmin 3 (INR (length (nodes layer)) * (2 / 5))) ∧
    x pos * x pos + z pos * z pos <= 9.
Proof.
  intros Hpos.
  apply hierarchicalPositions_lookup in Hpos
    as (levelIdx & layer & nodeIdx & Hlayer & Hnode & ->).
  exists levelIdx, layer. split; [done|]. split; [by eapply list_elem_of_lookup_2|].
  unfold ringPosition. cbn [x y z plus minus times divide Math_min Math_cos Math_sin
    Math_PI lit exact].
  rewrite !int_exact.
  assert (Q2R 4 = 4 ∧ Q2R 1.8 = 9 / 5 ∧ Q2R 3 = 3 ∧ Q2R 0.4 = 2 / 5 ∧ Q2R 2 = 2)
    as (-> & -> & -> & -> & ->) by (unfold Q2R; simpl; repeat split; lra).
  set (radius := Rmin 3 (INR (length (nodes layer)) * (2 / 5))).
  set (angle := INR nodeIdx / INR (length (nodes layer)) * PI * 2).
  split; [done|].
  assert (cos angle * radius * (cos angle * radius) +
          sin angle * radius * (sin angle * radius) = Rsqr radius) as Hcircle.
  { pose proof (sin2_cos2 angle) as Hunit. unfold Rsqr in *. nra. }
  split; [exact Hcircle|]. rewrite Hcircle.
  assert (0 <= radius <= 3) as Hradius.
  { unfold radius. pose proof (Rmin_l 3 (INR (length (nodes layer)) * (2 / 5))).
    pose proof (pos_INR (length (nodes layer))).
    split; [|done]. apply Rmin_glb; lra. }
  unfold Rsqr. nra.
Qed.

Lemma hierarchicalPositions_rings_witness :
  ∃ pos,
    hierarchicalPositions (number := R) (Some "A") [mkLayer 0 ["A"]] !! "A" = Some pos ∧
    y pos = 4 - INR 0 * (9 / 5).
Proof.
  eexists. split.
  - unfold hierarchicalPositions, ringEntries, setAll. cbn. apply lookup_insert_eq.
  - destruct (hierarchicalPositions_rings (Some "A") [mkLayer 0 ["A"]] "A"
      (ringPosition 0 1 0)) as (levelIdx & layer & Hlayer & _ & Hy & _).
    + unfold hierarchicalPositions, ringEntries, setAll. cbn. apply lookup_insert_eq.
    + destruct levelIdx as [|[|levelIdx]]; [exact Hy|done|done].
Defined.

End SceneFacts.

(** ** The topographic scene *)

Module MountainFacts.

Import Flat FlatFacts Layout LayoutFacts Scene SceneFacts Mountain.

Section TerrainFacts.

Context {number : Type} {arith : Arith number}.

Variable add : Vector3 number → Vector3 number → Vector3 number.
Variable lerp : Vector3 number → Vector3 number → number → Vector3 number.

Local Abbreviation pathLoop := (@Mountain.pathLoop number arith add lerp).
Local Abbreviation pathStep := (@Mountain.pathStep number arith add lerp).
Local Abbreviation pathPoints := (@Mountain.pathPoints number arith add lerp).

(** The ids of a path that have a position. *)
Lemma pathLoop_length (positions : gmap string (Vector3 number))
    (activePath : list string) : ∀ idx pts,
  (pts = [] ∨ 0 < idx) →
  length (pathLoop positions activePath idx pts) =
  let located :=
    length (List.filter (fun nodeId => bool_decide (is_Some (positions !! nodeId)))
              activePath) in
  match pts with
  | [] => 2 * located - 1
  | _ :: _ => length pts + 2 * located
  end.
Proof.
  induction activePath as [|nodeId activePath IH]; intros idx pts Hidx; cbn zeta.
  { simpl. destruct pts; simpl; lia. }
  cbn [Mountain.pathLoop List.filter]. rewrite IH by (right; lia). cbn zeta.
  unfold Mountain.pathStep.
  destruct (positions !! nodeId) as [base|] eqn:Hbase.
  - rewrite bool_decide_eq_true_2 by done. cbn [length].
    destruct pts as [|p pts].
    + simpl. lia.
    + destruct Hidx as [?|Hidx]; [done|].
      destruct (last (p :: pts)) as [prev|] eqn:Hlast.
      2:{ apply last_None in Hlast. done. }
      destruct (Nat.ltb_spec 0 idx) as [_|?]; [|lia].
      cbn [app length]. rewrite length_app. cbn [length]. lia.
  - rewrite bool_decide_eq_false_2 by (by intros [? ?]).
    destruct pts; lia.
Qed.

Lemma nodePositions_is_Some (nodes : list RawNode) nodeId :
  is_Some (nodePositions (number := number) nodes !! nodeId) ↔ nodeId ∈ id <$> nodes.
Proof.
  unfold nodePositions. rewrite <- elem_of_dom, setAll_dom, elem_of_list_to_set.
  rewrite fmap_imap.
  assert (imap (fun (i : nat) => fst ∘ (fun node => (id node, polar (number := number) (length nodes) i))) nodes
          = id <$> nodes) as ->; [|done].
  generalize (length nodes). intros n.
  rewrite <- (imap_const id nodes). by apply imap_ext.
Qed.

Lemma nodePositions_lookup (nodes : list RawNode) nodeId pos :
  nodePositions (number := number) nodes !! nodeId = Some pos →
  ∃ i, i < length nodes ∧ pos = polar (length nodes) i.
Proof.
  unfold nodePositions. intros Hpos. apply setAll_lookup in Hpos.
  apply elem_of_lookup_imap in Hpos as (i & node & [= _ ->] & Hnode).
  exists i. split; [by eapply lookup_lt_Some|done].
Qed.

End TerrainFacts.

(** X24. A click in the topographic scene.  The handler returns; the
    markers drawn as active are those of the nodes that can be reached
    from the clicked node; and the line of the active path has [2 k - 1]
    points, where [k] is the number of reachable ids that are nodes of the
    graph: each of them lifted, and a point between each two (no point
    when [k] is 0).  This holds for every arithmetic and whatever [add]
    and [lerp] compute. *)
Theorem topographic_click {number : Type} `{Arith number}
    (add : Vector3 number → Vector3 number → Vector3 number)
    (lerp : Vector3 number → Vector3 number → number → Vector3 number)
    (nodes : list RawNode) (links : list RawLink) (nodeId : string) :
  ∃ trace,
    handleNodeClick links nodeId = Some trace ∧
    activeNode trace = Some nodeId ∧
    (∀ node, isActive (activeNode trace) (activePath trace) node = true ↔
             reachable links nodeId (id node)) ∧
    length (pathPoints add lerp (activePath trace) (nodePositions nodes)) =
      2 * length (List.filter (fun n => bool_decide (n ∈ id <$> nodes))
                    (activePath trace)) - 1.
Proof.
  destruct (bfsPath_loop_spec links nodeId (S (length links)) ∅ [nodeId] [])
    as (path & Hpath & _ & _ & Hreach); [apply inv_init| |].
  { simpl. pose proof (pending_length_le links ∅). lia. }
  exists (mkTrace (Some nodeId) path). split.
  { unfold handleNodeClick, bfsPath. by rewrite Hpath. }
  split; [done|]. split.
  - intros node. unfold isActive. cbn [activeNode activePath].
    rewrite orb_true_iff, !bool_decide_eq_true, Hreach. split; [|by right].
    intros [[= ->]|?]; [apply rtc_refl|done].
  - cbn [activePath]. unfold pathPoints.
    rewrite (pathLoop_length add lerp) by (by left). cbn zeta. f_equal. f_equal. f_equal.
    apply filter_ext. intros n.
    apply bool_decide_ext, nodePositions_is_Some.
Qed.

(** *** The mountain, in exact arithmetic *)

Local Open Scope R_scope.

(** X25. Where the topographic scene puts the nodes, in exact arithmetic:
    every node stands at a distance between 1.6 and 3.76 from the vertical
    axis, and at a height between 0.42 and 2.78. *)
Theorem nodePositions_terrain (nodes : list RawNode) (nodeId : string)
    (pos : Vector3 R) :
  nodePositions (number := R) nodes !! nodeId = Some pos →
  Rsqr (8 / 5) <= x pos * x pos + z pos * z pos <= Rsqr (94 / 25) ∧
  21 / 50 <= y pos <= 139 / 50.
Proof.
  intros Hpos. apply nodePositions_lookup in Hpos as (i & Hi & ->).
  unfold polar. cbn [x y z plus minus times divide Math_cos Math_sin Math_PI lit exact].
  rewrite !int_exact.
  assert (Q2R 1.6 = 8 / 5 ∧ Q2R 4.0 = 4 ∧ Q2R 2.7 = 27 / 10 ∧ Q2R 2 = 2 ∧ Q2R 3 = 3 ∧
          Q2R 0.9 = 9 / 10 ∧ Q2R 0.5 = 1 / 2 ∧ Q2R 1 = 1 ∧ Q2R 4 = 4 ∧
          Q2R 0.08 = 2 / 25)
    as (-> & -> & -> & -> & -> & -> & -> & -> & -> & ->)
    by (unfold Q2R; simpl; repeat split; lra).
  set (ringT := INR (i mod 4) / 3).
  assert (0 <= ringT <= 1) as HringT.
  { unfold ringT. pose proof (pos_INR (i mod 4)) as Hpos.
    assert (INR (i mod 4) <= INR 3) as Hle.
    { apply le_INR. pose proof (Nat.mod_upper_bound i 4). lia. }
    replace (INR 3) with 3 in Hle by (simpl; lra). lra. }
  set (radius := 8 / 5 + (4 - 8 / 5) * ringT * (9 / 10)).
  set (angle := INR i / INR (length nodes) * PI * 2).
  assert (cos angle * radius * (cos angle * radius) +
          sin angle * radius * (sin angle * radius) = Rsqr radius) as ->.
  { pose proof (sin2_cos2 angle) as Hunit. unfold Rsqr in *. nra. }
  assert (8 / 5 <= radius <= 94 / 25) as Hradius by (unfold radius; lra).
  pose proof (SIN_bound (INR i / INR (length nodes) * 4 * PI)) as Hsin.
  split.
  - unfold Rsqr. nra.
  - lra.
Qed.

Lemma nodePositions_terrain_witness :
  ∃ pos,
    nodePositions (number := R) [mkNode "form" "Form"] !! "form" = Some pos ∧
    21 / 50 <= y pos <= 139 / 50.
Proof.
  eexists. split.
  - unfold nodePositions, setAll. cbn. apply lookup_insert_eq.
  - refine (proj2 (nodePositions_terrain [mkNode "form" "Form"] "form" _ _)).
    unfold nodePositions, setAll. cbn. apply lookup_insert_eq.
Defined.

End MountainFacts.
